(** * The bounding cage of [src/ui/bounding_cage.h]

    A shallow embedding of the [BoundingCage] class: key frames, the binary
    tree of cells, the doubly linked list of leaf cells threaded through
    that tree, the two iterators and the cage itself.

    - C++ [double] is the kernel's binary64 [float]; [int] and Eigen's
      indices are [Z] and [nat].
    - Objects held through [std::shared_ptr] live in two arenas (one for
      cells, one for key frames); a pointer is an index into its arena and
      the null pointer is [None].  Reference counts are not modelled: an
      object that is no longer reachable stays in its arena.
    - Code that can go wrong (a null dereference, an Eigen range violation,
      a failed [assert]) runs in the [result] monad. *)

From stdpp Require Import base option list.
From Stdlib Require Import Floats ZArith Uint63.

Set Default Proof Using "Type".

(* ================================================================= *)
(** ** Scalars *)

Abbreviation double := float.

Declare Scope dbl_scope.
Delimit Scope dbl_scope with dbl.
Notation "a + b" := (PrimFloat.add a b) : dbl_scope.
Notation "a - b" := (PrimFloat.sub a b) : dbl_scope.
Notation "a * b" := (PrimFloat.mul a b) : dbl_scope.
Notation "a <? b" := (PrimFloat.ltb a b) : dbl_scope.
Notation "a <=? b" := (PrimFloat.leb a b) : dbl_scope.
Notation "a =? b" := (PrimFloat.eqb a b) : dbl_scope.

(** A number that is neither a zero, nor negative, nor a NaN. *)
Definition SFpositive (f : spec_float) : Prop :=
  match f with
  | S754_finite false _ _ | S754_infinity false => True
  | _ => False
  end.

(* ================================================================= *)
(** ** Faults and the [result] monad *)

Inductive fault : Set :=
| NullDeref       (* [*p] or [p->f] on a null [shared_ptr] *)
| DanglingPtr     (* an arena index that names no object *)
| EigenRange      (* a coefficient or block outside a matrix *)
| AssertFailed    (* a failed [assert] *)
| OutOfFuel.      (* the recursion bound of the model was hit *)

Inductive result (A : Type) : Type :=
| Ok (a : A)
| Fault (f : fault).
Arguments Ok {A} a.
Arguments Fault {A} f.

#[global] Instance result_ret : MRet result := fun A a => Ok a.
#[global] Instance result_bind : MBind result := fun A B k r =>
  match r with
  | Ok a => k a
  | Fault f => Fault f
  end.

#[global] Instance result_fmap : FMap result := fun A B f r =>
  match r with
  | Ok a => Ok (f a)
  | Fault e => Fault e
  end.

Definition is_Ok {A} (r : result A) : Prop := exists a, r = Ok a.

(* ================================================================= *)
(** ** Eigen: fixed-size vectors and matrices *)

Record RowVector2d : Set := mkRowVector2d { x2 : double; y2 : double }.
Record RowVector3d : Set := mkRowVector3d { x3 : double; y3 : double; z3 : double }.

(** [a + b] and [s * a] on row vectors, coefficient by coefficient. *)
Definition vadd (a b : RowVector3d) : RowVector3d :=
  mkRowVector3d (x3 a + x3 b)%dbl (y3 a + y3 b)%dbl (z3 a + z3 b)%dbl.
Definition smul (s : double) (a : RowVector3d) : RowVector3d :=
  mkRowVector3d (s * x3 a)%dbl (s * y3 a)%dbl (s * z3 a)%dbl.

Definition coeffs3 (a : RowVector3d) : list double := [x3 a; y3 a; z3 a].

(** A 3x3 matrix, row by row. *)
Record Matrix3d : Set := mkMatrix3d
  { m_row0 : RowVector3d; m_row1 : RowVector3d; m_row2 : RowVector3d }.

(** [m.row(i)] for the literal indices the header uses. *)
Definition row3 (m : Matrix3d) (i : nat) : RowVector3d :=
  match i with
  | 0 => m_row0 m
  | 1 => m_row1 m
  | _ => m_row2 m
  end.

(* ================================================================= *)
(** ** Eigen: matrices with run-time sizes

    The coefficients row by row, and the number of columns (which a matrix
    without rows still has).  Every row of a well-formed matrix has
    [mcols] coefficients. *)

Record Matrix (A : Type) : Type := mkMatrix { mcols : nat; mdata : list (list A) }.
Arguments mkMatrix {A} mcols mdata.
Arguments mcols {A} m.
Arguments mdata {A} m.

Abbreviation MatrixXd := (Matrix float).
Abbreviation MatrixXi := (Matrix Z).

Definition rows {A} (m : Matrix A) : nat := length (mdata m).
Definition cols {A} (m : Matrix A) : nat := mcols m.

(** The default constructor of a matrix type with [r] and [c] fixed or
    dynamic: a dynamic dimension starts at 0. *)
Definition Matrix_default {A} (c : nat) : Matrix A := mkMatrix c [].

(** [m.resize(r, c)]: the old coefficients are dropped; a fresh coefficient
    holds [d]. *)
Definition resize {A} (d : A) (r c : nat) (m : Matrix A) : Matrix A :=
  mkMatrix c (replicate r (replicate c d)).

(** [m.setZero()] keeps the size. *)
Definition setZero (m : MatrixXd) : MatrixXd :=
  mkMatrix (mcols m) (map (map (fun _ : double => 0%float)) (mdata m)).

Definition Zero (r c : nat) : MatrixXd := mkMatrix c (replicate r (replicate c 0%float)).

(** [m(i, j) = v]: a write outside the matrix is a range error. *)
Definition set_coeff {A} (m : Matrix A) (i j : nat) (v : A) : result (Matrix A) :=
  match mdata m !! i with
  | Some r =>
      if bool_decide (j < length r)
      then Ok (mkMatrix (mcols m) (<[i := <[j := v]> r]> (mdata m)))
      else Fault EigenRange
  | None => Fault EigenRange
  end.

(** [m.block(i0, j0, p, q) = b] for a block [b] given row by row: the
    coefficients are written one at a time. *)
Fixpoint set_row_from {A} (m : Matrix A) (i j : nat) (vs : list A) : result (Matrix A) :=
  match vs with
  | [] => Ok m
  | v :: vs' => m' ← set_coeff m i j v; set_row_from m' i (S j) vs'
  end.

Fixpoint set_block {A} (m : Matrix A) (i j : nat) (b : list (list A)) : result (Matrix A) :=
  match b with
  | [] => Ok m
  | r :: b' => m' ← set_row_from m i j r; set_block m' (S i) j b'
  end.

(** [m.block(startRow, startCol, blockRows, blockCols)] read as a value.
    The constructor of Eigen's [Block] asserts
    [startRow >= 0 && blockRows >= 0 && startRow <= rows() - blockRows
     && startCol >= 0 && blockCols >= 0 && startCol <= cols() - blockCols],
    for an empty block as for any other; a block that fails it is a range
    error. *)
Definition block {A} (m : Matrix A) (startRow startCol blockRows blockCols : Z)
  : result (Matrix A) :=
  if bool_decide (0 ≤ startRow ∧ 0 ≤ blockRows ∧
                  startRow ≤ Z.of_nat (rows m) - blockRows ∧
                  0 ≤ startCol ∧ 0 ≤ blockCols ∧
                  startCol ≤ Z.of_nat (cols m) - blockCols)%Z
  then Ok (mkMatrix (Z.to_nat blockCols)
             (map (fun r => take (Z.to_nat blockCols) (drop (Z.to_nat startCol) r))
                (take (Z.to_nat blockRows) (drop (Z.to_nat startRow) (mdata m)))))
  else Fault EigenRange.

(** A conversion to a fixed-size matrix type checks the size. *)
Definition to_fixed {A} (r c : nat) (m : Matrix A) : result (Matrix A) :=
  if bool_decide (rows m = r ∧ cols m = c) then Ok m else Fault EigenRange.

(** The product of a matrix and a column vector. *)
Definition dot (r v : list double) : double :=
  foldl (fun acc p => (acc + p.1 * p.2)%dbl) 0%float (zip r v).
Definition mul_vec (m : MatrixXd) (v : list double) : list double :=
  map (fun r => dot r v) (mdata m).

(* ================================================================= *)
(** ** The classes as data *)

Abbreviation cell_ptr := nat.
Abbreviation keyframe_ptr := nat.

(** [class BoundingCage::KeyFrame].  [_vertices_2d] is an n x 2 matrix and
    is kept as its rows; [_cells] holds the two weak pointers, the cell on
    the left first.  The owning cage and the logger are left out. *)
Record KeyFrame : Set := mkKeyFrame
  { _orientation : Matrix3d;
    _center : RowVector3d;
    _vertices_2d : list RowVector2d;
    _mesh_vertex_indices : list Z;
    _index : double;
    _cells : option cell_ptr * option cell_ptr }.

(** [class BoundingCage::Cell]. *)
Record Cell : Type := mkCell
  { left_child : option cell_ptr;
    right_child : option cell_ptr;
    next_cell : option cell_ptr;
    prev_cell : option cell_ptr;
    left_keyframe : option keyframe_ptr;
    right_keyframe : option keyframe_ptr;
    V : MatrixXd;
    F : MatrixXi;
    mesh_face_indexes : list Z }.

(** The two arenas. *)
Record Heap : Type := mkHeap
  { cell_arena : list Cell;
    keyframe_arena : list KeyFrame }.

Record CellIterator : Set := mkCellIterator { cell : option cell_ptr }.

(** [class BoundingCage::Cells]: the two ends of the leaf list. *)
Record Cells : Set := mkCells { head : option cell_ptr; tail : option cell_ptr }.

Record KeyFrameIterator : Set := mkKeyFrameIterator { keyframe : option keyframe_ptr }.

(** [class BoundingCage]; [keyframes] has no state of its own. *)
Record BoundingCage : Type := mkBoundingCage
  { SV : MatrixXd;
    SV_smooth : MatrixXd;
    root : option cell_ptr;
    CV : MatrixXd;
    CF : MatrixXi;
    num_mesh_vertices : Z;
    num_mesh_faces : Z;
    cells : Cells }.

(** A cage together with the objects its pointers name. *)
Record State : Type := mkState { heap : Heap; cage : BoundingCage }.

(** The four mesh fields of the cage, which a split hands down to the
    cells and key frames it rebuilds. *)
Record MeshBuffer : Type := mkMeshBuffer
  { buf_CV : MatrixXd; buf_CF : MatrixXi; buf_vertices : Z; buf_faces : Z }.

(** Modelled from the spec: the parts that the sources neither define nor
    determine.  The skeleton smoother and the frame geometry (sections 2
    and 4.1: the frames of the two end key frames, and the centre, the
    transported frame and the interpolated polygon of a key frame between
    two others); the two validators that [KeyFrame] declares; and the
    triangulation scheme behind [KeyFrame::init_mesh] and
    [Cell::init_mesh], which section 9 leaves to the implementer.  Every
    definition below that depends on one of them takes a [Geometry]. *)
Class Geometry : Type := mkGeometry
  { smooth_skeleton : MatrixXd -> nat -> MatrixXd;
    end_frame : MatrixXd -> bool -> RowVector3d * Matrix3d;
    interpolate : MatrixXd -> KeyFrame -> KeyFrame -> double ->
                  RowVector3d * Matrix3d * list RowVector2d;
    validate_points_2d : KeyFrame -> bool;
    validate_cage : Heap -> KeyFrame -> bool;
    keyframe_init_mesh : bool -> KeyFrame -> MeshBuffer -> MeshBuffer * list Z;
    cell_init_mesh : KeyFrame -> KeyFrame -> option Cell -> MeshBuffer ->
                     MeshBuffer * (MatrixXd * MatrixXi * list Z) }.

(* ================================================================= *)
(** ** Pointers *)

(** [*p] for a [shared_ptr<Cell>] and a [shared_ptr<KeyFrame>]. *)
Definition deref_cell (h : Heap) (p : option cell_ptr) : result Cell :=
  match p with
  | None => Fault NullDeref
  | Some i =>
      match cell_arena h !! i with
      | Some c => Ok c
      | None => Fault DanglingPtr
      end
  end.

Definition deref_keyframe (h : Heap) (p : option keyframe_ptr) : result KeyFrame :=
  match p with
  | None => Fault NullDeref
  | Some i =>
      match keyframe_arena h !! i with
      | Some kf => Ok kf
      | None => Fault DanglingPtr
      end
  end.

(** [w.lock()] for a [weak_ptr<Cell>]: null when [w] is empty or the cell
    is gone. *)
Definition lock (h : Heap) (w : option cell_ptr) : option cell_ptr :=
  match w with
  | Some i => if cell_arena h !! i is Some _ then Some i else None
  | None => None
  end.

(** [p->... = ...]: the object [p] names is replaced by [f] of it. *)
Definition update_cell (p : cell_ptr) (f : Cell -> Cell) (h : Heap) : Heap :=
  {| cell_arena := alter f p (cell_arena h); keyframe_arena := keyframe_arena h |}.

Definition update_keyframe (p : keyframe_ptr) (f : KeyFrame -> KeyFrame) (h : Heap) : Heap :=
  {| cell_arena := cell_arena h; keyframe_arena := alter f p (keyframe_arena h) |}.

(** [if (p) p->... = ...]. *)
Definition update_cell_opt (p : option cell_ptr) (f : Cell -> Cell) (h : Heap) : Heap :=
  match p with
  | Some i => update_cell i f h
  | None => h
  end.

Definition update_keyframe_opt (p : option keyframe_ptr) (f : KeyFrame -> KeyFrame)
    (h : Heap) : Heap :=
  match p with
  | Some i => update_keyframe i f h
  | None => h
  end.

(** [std::make_shared]: the new object goes to the end of its arena. *)
Definition new_cell (c : Cell) (h : Heap) : cell_ptr * Heap :=
  (length (cell_arena h),
   {| cell_arena := cell_arena h ++ [c]; keyframe_arena := keyframe_arena h |}).

Definition new_keyframe (kf : KeyFrame) (h : Heap) : keyframe_ptr * Heap :=
  (length (keyframe_arena h),
   {| cell_arena := cell_arena h; keyframe_arena := keyframe_arena h ++ [kf] |}).

(** Assignments to one field. *)
Definition set_next_cell (n : option cell_ptr) (c : Cell) : Cell :=
  {| left_child := left_child c; right_child := right_child c;
     next_cell := n; prev_cell := prev_cell c;
     left_keyframe := left_keyframe c; right_keyframe := right_keyframe c;
     V := V c; F := F c; mesh_face_indexes := mesh_face_indexes c |}.

Definition set_prev_cell (p : option cell_ptr) (c : Cell) : Cell :=
  {| left_child := left_child c; right_child := right_child c;
     next_cell := next_cell c; prev_cell := p;
     left_keyframe := left_keyframe c; right_keyframe := right_keyframe c;
     V := V c; F := F c; mesh_face_indexes := mesh_face_indexes c |}.

Definition set_children (a b : option cell_ptr) (c : Cell) : Cell :=
  {| left_child := a; right_child := b;
     next_cell := next_cell c; prev_cell := prev_cell c;
     left_keyframe := left_keyframe c; right_keyframe := right_keyframe c;
     V := V c; F := F c; mesh_face_indexes := mesh_face_indexes c |}.

Definition set_cell_mesh (m : MatrixXd * MatrixXi * list Z) (c : Cell) : Cell :=
  {| left_child := left_child c; right_child := right_child c;
     next_cell := next_cell c; prev_cell := prev_cell c;
     left_keyframe := left_keyframe c; right_keyframe := right_keyframe c;
     V := m.1.1; F := m.1.2; mesh_face_indexes := m.2 |}.

Definition set_left_cell (p : option cell_ptr) (kf : KeyFrame) : KeyFrame :=
  {| _orientation := _orientation kf; _center := _center kf;
     _vertices_2d := _vertices_2d kf;
     _mesh_vertex_indices := _mesh_vertex_indices kf;
     _index := _index kf; _cells := (p, (_cells kf).2) |}.

Definition set_right_cell (p : option cell_ptr) (kf : KeyFrame) : KeyFrame :=
  {| _orientation := _orientation kf; _center := _center kf;
     _vertices_2d := _vertices_2d kf;
     _mesh_vertex_indices := _mesh_vertex_indices kf;
     _index := _index kf; _cells := ((_cells kf).1, p) |}.

Definition set_vertices_2d (pts : list RowVector2d) (kf : KeyFrame) : KeyFrame :=
  {| _orientation := _orientation kf; _center := _center kf;
     _vertices_2d := pts;
     _mesh_vertex_indices := _mesh_vertex_indices kf;
     _index := _index kf; _cells := _cells kf |}.

Definition set_mesh_vertex_indices (idx : list Z) (kf : KeyFrame) : KeyFrame :=
  {| _orientation := _orientation kf; _center := _center kf;
     _vertices_2d := _vertices_2d kf;
     _mesh_vertex_indices := idx;
     _index := _index kf; _cells := _cells kf |}.

(* ================================================================= *)
(** ** Key frames *)

Module KeyFrame.

(** Modelled from the spec: the explicit constructor is declared in the
    header and defined elsewhere.  The frame, the centre, the polygon and
    the index are the ones given (section 4.1, [explicit_frame]); the key
    frame is detached, with no mesh vertices and no bounding cell, until a
    cell is made on it. *)
Definition ctor (center : RowVector3d) (coord_frame : Matrix3d)
    (pts : list RowVector2d) (idx : double) : KeyFrame :=
  {| _orientation := coord_frame; _center := center; _vertices_2d := pts;
     _mesh_vertex_indices := []; _index := idx; _cells := (None, None) |}.

Definition in_bounding_cage (kf : KeyFrame) : bool :=
  negb (length (_mesh_vertex_indices kf) =? 0).

Definition normal (kf : KeyFrame) : RowVector3d := row3 (_orientation kf) 2.
Definition up (kf : KeyFrame) : RowVector3d := row3 (_orientation kf) 1.
Definition right (kf : KeyFrame) : RowVector3d := row3 (_orientation kf) 0.
Definition orientation (kf : KeyFrame) : Matrix3d := _orientation kf.
Definition center (kf : KeyFrame) : RowVector3d := _center kf.
Definition vertices_2d (kf : KeyFrame) : list RowVector2d := _vertices_2d kf.
Definition index (kf : KeyFrame) : double := _index kf.

(** Where the local point [p] lies in space: [center() + x * right() +
    y * up()]. *)
Definition local_to_world (kf : KeyFrame) (p : RowVector2d) : RowVector3d :=
  vadd (vadd (center kf) (smul (x2 p) (right kf))) (smul (y2 p) (up kf)).

(** The statements of [transform()] run on a given initial [ret]. *)
Definition transform_on (ret : MatrixXd) (kf : KeyFrame) : result MatrixXd :=
  let ret := setZero ret in
  ret ← set_block ret 0 0 [coeffs3 (row3 (_orientation kf) 0);
                            coeffs3 (row3 (_orientation kf) 1);
                            coeffs3 (row3 (_orientation kf) 2)];
  ret ← set_block ret 0 3 [[x3 (_center kf)]; [y3 (_center kf)]; [z3 (_center kf)]];
  ret ← set_coeff ret 3 3 1%float;
  to_fixed 4 4 ret.

(** [transform()]: [ret] is declared as [Eigen::MatrixX4d], a matrix with
    four columns and a dynamic number of rows, so it starts without rows. *)
Definition transform (kf : KeyFrame) : result MatrixXd :=
  transform_on (Matrix_default 4) kf.

(** One turn of the loop of [vertices_3d()]: [points3d.row(i) = ...]. *)
Definition vertices_3d_step (kf : KeyFrame) (points3d : list RowVector3d) (i : nat)
  : list RowVector3d :=
  match _vertices_2d kf !! i with
  | Some p =>
      <[i := vadd (vadd (_center kf) (smul (x2 p) (row3 (_orientation kf) 0)))
                  (smul (y2 p) (row3 (_orientation kf) 1))]> points3d
  | None => points3d
  end.

(** [vertices_3d()]: [points3d] has as many rows as [_vertices_2d] and is
    filled for [i] from 0 up. *)
Definition vertices_3d (kf : KeyFrame) : list RowVector3d :=
  let n := length (_vertices_2d kf) in
  foldl (vertices_3d_step kf)
        (replicate n (mkRowVector3d 0%float 0%float 0%float)) (seq 0 n).

(** The polygon with its point [i] moved to [newpos]. *)
Definition candidate (kf : KeyFrame) (i : Z) (newpos : RowVector2d) : KeyFrame :=
  set_vertices_2d (<[Z.to_nat i := newpos]> (_vertices_2d kf)) kf.

(** Modelled from the spec: [move_point_2d] is declared in the header and
    defined elsewhere.  Section 4.2: the i-th point of the polygon is
    replaced; with [validate_2d] the candidate polygon is first checked
    for self-intersection, with [validate_3d] it is also checked against
    the neighbouring key frames, and a candidate that fails is not
    installed; with neither flag the update always succeeds.  The result
    is the success flag and the key frame after the call.  A row index
    outside the polygon is a range error. *)
Definition move_point_2d `{!Geometry} (h : Heap) (kf : KeyFrame) (i : Z)
    (newpos : RowVector2d) (validate2d validate_3d : bool) : result (bool * KeyFrame) :=
  if bool_decide (0 <= i < Z.of_nat (length (_vertices_2d kf)))%Z then
    let cand := candidate kf i newpos in
    if validate2d && negb (validate_points_2d cand) then Ok (false, kf)
    else if validate_3d && negb (validate_cage h cand) then Ok (false, kf)
    else Ok (true, cand)
  else Fault EigenRange.

End KeyFrame.

(* ================================================================= *)
(** ** Cells *)

Module Cell.

(** The constructor: the four pointers are stored, the children are null
    and the cached mesh is empty. *)
Definition ctor (left_kf right_kf : option keyframe_ptr)
    (prev next : option cell_ptr) : Cell :=
  {| left_child := None; right_child := None;
     next_cell := next; prev_cell := prev;
     left_keyframe := left_kf; right_keyframe := right_kf;
     V := Matrix_default 0; F := Matrix_default 0; mesh_face_indexes := [] |}.

Definition vertices (c : Cell) : MatrixXd := V c.
Definition faces (c : Cell) : MatrixXi := F c.

Definition min_index (h : Heap) (c : Cell) : result double :=
  kf ← deref_keyframe h (left_keyframe c); Ok (KeyFrame.index kf).

Definition max_index (h : Heap) (c : Cell) : result double :=
  kf ← deref_keyframe h (right_keyframe c); Ok (KeyFrame.index kf).

(** A cell is a leaf when it has no children (section 3). *)
Definition is_leaf (c : Cell) : bool :=
  match left_child c, right_child c with
  | None, None => true
  | _, _ => false
  end.

(** Modelled from the spec: [make_cell] is declared in the header and
    defined elsewhere.  It constructs the cell on two key frames that
    exist and makes it the cell on the right of its left key frame and
    the cell on the left of its right key frame (section 3: a key frame
    refers back to the cell on either side of it). *)
Definition make_cell (h : Heap) (left_kf right_kf : option keyframe_ptr)
    (prev next : option cell_ptr) : result (cell_ptr * Heap) :=
  _ ← deref_keyframe h left_kf;
  _ ← deref_keyframe h right_kf;
  let '(p, h) := new_cell (ctor left_kf right_kf prev next) h in
  let h := update_keyframe_opt left_kf (set_right_cell (Some p)) h in
  let h := update_keyframe_opt right_kf (set_left_cell (Some p)) h in
  Ok (p, h).

(** Modelled from the spec: the test of step 3 of section 4.3, whether
    [index] lies in the index range of the cell [q]. *)
Definition contains (h : Heap) (q : cell_ptr) (index : double) : result bool :=
  c ← deref_cell h (Some q);
  lo ← min_index h c;
  hi ← max_index h c;
  Ok ((lo <=? index)%dbl && (index <=? hi)%dbl).

(** Modelled from the spec: step 2 of the split algorithm of section 4.3,
    for the leaf [this] whose fields are [c].  Two child cells are made
    on (left key frame, [key_frame]) and ([key_frame], right key frame);
    they take the place of [this] in the leaf list, the links of [this]
    going to the left and the right child; [this] gets the two children;
    the key frame gets its mesh vertices if it has none, and the two
    children their mesh slices, the left one in the storage of [this]. *)
Definition split_leaf `{!Geometry} (h : Heap) (mesh : MeshBuffer) (this : cell_ptr)
    (c : Cell) (key_frame : option keyframe_ptr) : result (Heap * MeshBuffer) :=
  '(a, h) ← make_cell h (left_keyframe c) key_frame (prev_cell c) None;
  '(b, h) ← make_cell h key_frame (right_keyframe c) (Some a) (next_cell c);
  let h := update_cell a (set_next_cell (Some b)) h in
  let h := update_cell_opt (prev_cell c) (set_next_cell (Some a)) h in
  let h := update_cell_opt (next_cell c) (set_prev_cell (Some b)) h in
  let h := update_cell this
             (fun c => set_prev_cell None (set_next_cell None
                         (set_children (Some a) (Some b) c))) h in
  kf ← deref_keyframe h key_frame;
  let '(mesh, idx) :=
    if KeyFrame.in_bounding_cage kf then (mesh, _mesh_vertex_indices kf)
    else keyframe_init_mesh false kf mesh in
  let h := update_keyframe_opt key_frame (set_mesh_vertex_indices idx) h in
  kf ← deref_keyframe h key_frame;
  lk ← deref_keyframe h (left_keyframe c);
  rk ← deref_keyframe h (right_keyframe c);
  let '(mesh, ma) := cell_init_mesh lk kf (Some c) mesh in
  let '(mesh, mb) := cell_init_mesh kf rk None mesh in
  let h := update_cell a (set_cell_mesh ma) h in
  let h := update_cell b (set_cell_mesh mb) h in
  Ok (h, mesh).

(** Modelled from the spec: [Cell::split] is declared in the header and
    defined elsewhere.  Section 4.3: (1) a key frame whose index is not
    strictly inside the range of the cell is rejected, with nothing
    changed; (2) a leaf is split in two; (3) an internal cell hands the
    key frame to the child whose range contains the index, and fails when
    neither does; (4) the result is the installed key frame, or null.
    [fuel] bounds the depth of the descent. *)
Fixpoint split `{!Geometry} (fuel : nat) (h : Heap) (mesh : MeshBuffer)
    (this : cell_ptr) (key_frame : option keyframe_ptr)
  : result (option keyframe_ptr * Heap * MeshBuffer) :=
  match fuel with
  | 0 => Fault OutOfFuel
  | S fuel' =>
      c ← deref_cell h (Some this);
      kf ← deref_keyframe h key_frame;
      lo ← min_index h c;
      hi ← max_index h c;
      if negb ((lo <? KeyFrame.index kf)%dbl && (KeyFrame.index kf <? hi)%dbl)
      then Ok (None, h, mesh)
      else if is_leaf c then
        '(h', mesh') ← split_leaf h mesh this c key_frame;
        Ok (key_frame, h', mesh')
      else
        let descend (child : option cell_ptr) otherwise :=
          match child with
          | Some q =>
              inside ← contains h q (KeyFrame.index kf);
              if inside : bool then split fuel' h mesh q key_frame else otherwise
          | None => otherwise
          end in
        descend (left_child c) (descend (right_child c) (Ok (None, h, mesh)))
  end.

End Cell.

(* ================================================================= *)
(** ** The iterator over the leaf cells *)

Module CellIterator.

Definition default : CellIterator := mkCellIterator None.

(** [operator++]: a null iterator stays where it is. *)
Definition incr (h : Heap) (it : CellIterator) : result CellIterator :=
  match cell it with
  | Some _ => c ← deref_cell h (cell it); Ok (mkCellIterator (next_cell c))
  | None => Ok it
  end.

(** [operator--]. *)
Definition decr (h : Heap) (it : CellIterator) : result CellIterator :=
  match cell it with
  | Some _ => c ← deref_cell h (cell it); Ok (mkCellIterator (prev_cell c))
  | None => Ok it
  end.

(** [operator==] and [operator!=] compare the pointers. *)
Definition eqb (a b : CellIterator) : bool := bool_decide (cell a = cell b).
Definition neqb (a b : CellIterator) : bool := negb (eqb a b).

(** The loop [for (it = start; it != CellIterator(); step(it))], which
    collects the cells it visits; [fuel] bounds the number of turns. *)
Fixpoint walk (step : Heap -> CellIterator -> result CellIterator)
    (fuel : nat) (h : Heap) (it : CellIterator) : result (list cell_ptr) :=
  match fuel with
  | 0 => Fault OutOfFuel
  | S fuel' =>
      match cell it with
      | None => Ok []
      | Some p =>
          it' ← step h it;
          rest ← walk step fuel' h it';
          Ok (p :: rest)
      end
  end.

End CellIterator.

Module Cells.
Definition begin (cs : Cells) : CellIterator := mkCellIterator (head cs).
Definition end_ (cs : Cells) : CellIterator := CellIterator.default.
Definition rbegin (cs : Cells) : CellIterator := mkCellIterator (tail cs).
Definition rend (cs : Cells) : CellIterator := CellIterator.default.
End Cells.

(* ================================================================= *)
(** ** The iterator over the key frames *)

Module KeyFrameIterator.

Definition default : KeyFrameIterator := mkKeyFrameIterator None.

(** [operator++]: the first statement reads [keyframe->_cells[1]] before
    [keyframe] is tested. *)
Definition incr (h : Heap) (it : KeyFrameIterator) : result KeyFrameIterator :=
  kf ← deref_keyframe h (keyframe it);
  let right_cell := lock h (_cells kf).2 in
  match keyframe it, right_cell with
  | Some _, Some _ =>
      c ← deref_cell h right_cell; Ok (mkKeyFrameIterator (right_keyframe c))
  | _, None => Ok (mkKeyFrameIterator None)
  | None, Some _ => Ok it
  end.

(** [operator--], with [keyframe->_cells[0]]. *)
Definition decr (h : Heap) (it : KeyFrameIterator) : result KeyFrameIterator :=
  kf ← deref_keyframe h (keyframe it);
  let left_cell := lock h (_cells kf).1 in
  match keyframe it, left_cell with
  | Some _, Some _ =>
      c ← deref_cell h left_cell; Ok (mkKeyFrameIterator (left_keyframe c))
  | _, None => Ok (mkKeyFrameIterator None)
  | None, Some _ => Ok it
  end.

Definition eqb (a b : KeyFrameIterator) : bool := bool_decide (keyframe a = keyframe b).

End KeyFrameIterator.

(* ================================================================= *)
(** ** The cage *)

Module BoundingCage.

(** The state a default-constructed cage starts in. *)
Definition ctor : BoundingCage :=
  {| SV := Matrix_default 0; SV_smooth := Matrix_default 0; root := None;
     CV := Matrix_default 0; CF := Matrix_default 0;
     num_mesh_vertices := 0; num_mesh_faces := 0;
     cells := mkCells None None |}.

Definition clear (c : BoundingCage) : BoundingCage :=
  {| SV := resize 0%float 0 0 (SV c);
     SV_smooth := resize 0%float 0 0 (SV_smooth c);
     root := None;
     CV := resize 0%float 0 0 (CV c);
     CF := resize 0%Z 0 0 (CF c);
     num_mesh_vertices := 0; num_mesh_faces := 0;
     cells := mkCells None None |}.

Definition skeleton_vertices (c : BoundingCage) : MatrixXd := SV c.
Definition smooth_skeleton_vertices (c : BoundingCage) : MatrixXd := SV_smooth c.

Definition vertices (c : BoundingCage) : result MatrixXd :=
  block (CV c) 0 0 (num_mesh_vertices c) 3.
Definition faces (c : BoundingCage) : result MatrixXi :=
  block (CF c) 0 0 (num_mesh_faces c) 3.

(** [min_index()]; the [assert] compares the root with the head of the
    leaf list before the value is returned. *)
Definition min_index (h : Heap) (c : BoundingCage) : result double :=
  match root c with
  | None => Ok 0%float
  | Some _ =>
      r ← deref_cell h (root c);
      rmin ← Cell.min_index h r;
      hd ← deref_cell h (head (cells c));
      hmin ← Cell.min_index h hd;
      if (rmin =? hmin)%dbl then Cell.min_index h r else Fault AssertFailed
  end.

Definition max_index (h : Heap) (c : BoundingCage) : result double :=
  match root c with
  | None => Ok 0%float
  | Some _ =>
      r ← deref_cell h (root c);
      rmax ← Cell.max_index h r;
      tl ← deref_cell h (tail (cells c));
      tmax ← Cell.max_index h tl;
      if (rmax =? tmax)%dbl then Cell.max_index h r else Fault AssertFailed
  end.

(** [keyframes.begin()], [keyframes.end()], [keyframes.rbegin()] and
    [keyframes.rend()]. *)
Definition keyframes_begin (h : Heap) (c : BoundingCage) : result KeyFrameIterator :=
  match head (cells c) with
  | Some _ => hd ← deref_cell h (head (cells c)); Ok (mkKeyFrameIterator (left_keyframe hd))
  | None => Ok KeyFrameIterator.default
  end.

Definition keyframes_end : KeyFrameIterator := KeyFrameIterator.default.

Definition keyframes_rbegin (h : Heap) (c : BoundingCage) : result KeyFrameIterator :=
  match tail (cells c) with
  | Some _ => tl ← deref_cell h (tail (cells c)); Ok (mkKeyFrameIterator (right_keyframe tl))
  | None => Ok KeyFrameIterator.default
  end.

Definition keyframes_rend : KeyFrameIterator := KeyFrameIterator.default.

(** The leaf cells as [for (it = cells.begin(); it != cells.end(); it++)]
    meets them, and as the same loop from [cells.rbegin()] with [it--]
    does.  A list without repetition has at most as many cells as the
    arena. *)
Definition leaves (s : State) : result (list cell_ptr) :=
  CellIterator.walk CellIterator.incr (S (length (cell_arena (heap s))))
    (heap s) (Cells.begin (cells (cage s))).

Definition leaves_backward (s : State) : result (list cell_ptr) :=
  CellIterator.walk CellIterator.decr (S (length (cell_arena (heap s))))
    (heap s) (Cells.rbegin (cells (cage s))).

Definition mesh_buffer (c : BoundingCage) : MeshBuffer :=
  mkMeshBuffer (CV c) (CF c) (num_mesh_vertices c) (num_mesh_faces c).

Definition with_mesh (m : MeshBuffer) (cs : Cells) (c : BoundingCage) : BoundingCage :=
  {| SV := SV c; SV_smooth := SV_smooth c; root := root c;
     CV := buf_CV m; CF := buf_CF m;
     num_mesh_vertices := buf_vertices m; num_mesh_faces := buf_faces m;
     cells := cs |}.

(** The index of the last skeleton vertex, as a [double]. *)
Definition last_index (sv : MatrixXd) : double :=
  PrimFloat.of_uint63 (Uint63.of_Z (Z.of_nat (rows sv) - 1)).

(** Modelled from the spec: [set_skeleton_vertices] is declared in the
    header and defined elsewhere.  Section 4.5: with fewer than two
    points it fails and changes nothing; otherwise it stores the skeleton
    and its smoothed copy, constructs the two end key frames with
    explicit frames at the indices 0 and N-1 (section 3), the root cell
    spanning them, which is the only leaf, and the initial mesh with its
    two caps. *)
Definition set_skeleton_vertices `{!Geometry} (s : State) (new_SV : MatrixXd)
    (smoothing_iters : nat) (polygon_template : list RowVector2d)
  : result (bool * State) :=
  if bool_decide (rows new_SV < 2) then Ok (false, s)
  else
    let c := clear (cage s) in
    let smooth := smooth_skeleton new_SV smoothing_iters in
    let '(c0, f0) := end_frame smooth false in
    let '(c1, f1) := end_frame smooth true in
    let front := KeyFrame.ctor c0 f0 polygon_template 0%float in
    let back := KeyFrame.ctor c1 f1 polygon_template (last_index new_SV) in
    let '(mesh, i0) := keyframe_init_mesh true front (mesh_buffer c) in
    let '(mesh, i1) := keyframe_init_mesh true back mesh in
    let front := set_mesh_vertex_indices i0 front in
    let back := set_mesh_vertex_indices i1 back in
    let '(kf0, h) := new_keyframe front (heap s) in
    let '(kf1, h) := new_keyframe back h in
    '(r, h) ← Cell.make_cell h (Some kf0) (Some kf1) None None;
    let '(mesh, mr) := cell_init_mesh front back None mesh in
    let h := update_cell r (set_cell_mesh mr) h in
    Ok (true,
        mkState h
          {| SV := new_SV; SV_smooth := smooth; root := Some r;
             CV := buf_CV mesh; CF := buf_CF mesh;
             num_mesh_vertices := buf_vertices mesh;
             num_mesh_faces := buf_faces mesh;
             cells := mkCells (Some r) (Some r) |}).

(** Modelled from the spec: the ends of the leaf list after a split
    (section 4.4: the list runs over the leaves in ascending order); an
    end that has been split gives way to its outer child. *)
Definition follow_split (h : Heap) (cs : Cells) : result Cells :=
  hd ← deref_cell h (head cs);
  tl ← deref_cell h (tail cs);
  Ok (mkCells (if left_child hd is Some a then Some a else head cs)
              (if right_child tl is Some b then Some b else tail cs)).

(** Modelled from the spec: [split_internal] is declared in the header
    and defined elsewhere.  The key frame is handed to the root
    (section 4.3); after a split the cage takes the rebuilt mesh and the
    new ends of the leaf list (section 3: the list threads the leaves in
    ascending order). *)
Definition split_internal `{!Geometry} (s : State) (kf : option keyframe_ptr)
  : result (option keyframe_ptr * State) :=
  match root (cage s) with
  | None => Ok (None, s)
  | Some r =>
      '(ret, h, mesh) ← Cell.split (S (length (cell_arena (heap s)))) (heap s)
                          (mesh_buffer (cage s)) r kf;
      match ret with
      | None => Ok (None, mkState h (with_mesh mesh (cells (cage s)) (cage s)))
      | Some _ =>
          cs ← follow_split h (cells (cage s));
          Ok (ret, mkState h (with_mesh mesh cs (cage s)))
      end
  end.

(** Modelled from the spec: the containing leaf cell of section 4.5, the
    first of the cells [ls] whose index range contains [index]. *)
Fixpoint find_containing (h : Heap) (ls : list cell_ptr) (index : double)
  : result (option Cell) :=
  match ls with
  | [] => Ok None
  | p :: ls' =>
      inside ← Cell.contains h p index;
      if inside : bool then c ← deref_cell h (Some p); Ok (Some c)
      else find_containing h ls' index
  end.

(** Modelled from the spec: [keyframe_for_index] is declared in the header
    and defined elsewhere.  Section 4.5: outside the range from
    [min_index()] to [max_index()] the result is the end iterator;
    otherwise it is a new, detached key frame at [index], interpolated
    between the key frames of the leaf cell that contains [index]. *)
Definition keyframe_for_index `{!Geometry} (s : State) (index : double)
  : result (KeyFrameIterator * State) :=
  lo ← min_index (heap s) (cage s);
  hi ← max_index (heap s) (cage s);
  if (index <? lo)%dbl || (hi <? index)%dbl then Ok (keyframes_end, s)
  else
    ls ← leaves s;
    found ← find_containing (heap s) ls index;
    match found with
    | None => Ok (keyframes_end, s)
    | Some c =>
        lk ← deref_keyframe (heap s) (left_keyframe c);
        rk ← deref_keyframe (heap s) (right_keyframe c);
        let '(ctr, frame, pts) := interpolate (SV_smooth (cage s)) lk rk index in
        let '(k, h) := new_keyframe (KeyFrame.ctor ctr frame pts index) (heap s) in
        Ok (mkKeyFrameIterator (Some k), mkState h (cage s))
    end.

(** Modelled from the spec: [split(KeyFrameIterator&)] is declared in the
    header and defined elsewhere.  Section 4.5: the key frame the iterator
    is at is installed at its stored index; the result is an iterator at
    it, or the end iterator. *)
Definition split_iterator `{!Geometry} (s : State) (it : KeyFrameIterator)
  : result (KeyFrameIterator * State) :=
  match keyframe it with
  | None => Ok (keyframes_end, s)
  | Some _ =>
      '(ret, s') ← split_internal s (keyframe it);
      Ok (mkKeyFrameIterator ret, s')
  end.

(** Modelled from the spec: [split(double)] is declared in the header and
    defined elsewhere.  Section 4.5: the interpolated key frame at [index]
    is computed and installed; outside the range of the cage the result
    is the end iterator. *)
Definition split `{!Geometry} (s : State) (index : double)
  : result (KeyFrameIterator * State) :=
  '(it, s1) ← keyframe_for_index s index;
  split_iterator s1 it.

(** Modelled from the spec: the call [it->move_point_2d(i, newpos,
    validate2d, validate_3d)] on the key frame an iterator is at, which
    changes that key frame and nothing else. *)
Definition move_point_2d `{!Geometry} (s : State) (it : KeyFrameIterator) (i : Z)
    (newpos : RowVector2d) (validate2d validate_3d : bool) : result (bool * State) :=
  kf ← deref_keyframe (heap s) (keyframe it);
  '(ok, kf') ← KeyFrame.move_point_2d (heap s) kf i newpos validate2d validate_3d;
  Ok (ok, mkState (update_keyframe_opt (keyframe it) (fun _ => kf') (heap s)) (cage s)).

(** The number of leaf cells. *)
Definition leaf_count (s : State) : result nat := length <$> leaves s.

End BoundingCage.

(** The states a program reaches from a new cage through the public
    operations.  A skeleton has no more rows than an Eigen index, a signed
    64-bit integer, counts. *)
Inductive reachable `{!Geometry} : State -> Prop :=
| reach_new :
    reachable (mkState (mkHeap [] []) BoundingCage.ctor)
| reach_set_skeleton_vertices s new_SV iters template ok s' :
    reachable s ->
    BoundingCage.set_skeleton_vertices s new_SV iters template = Ok (ok, s') ->
    (Z.of_nat (rows new_SV) < 2 ^ 63)%Z ->
    reachable s'
| reach_clear s :
    reachable s ->
    reachable (mkState (heap s) (BoundingCage.clear (cage s)))
| reach_split s index it s' :
    reachable s ->
    BoundingCage.split s index = Ok (it, s') ->
    reachable s'
| reach_split_iterator s it it' s' :
    reachable s ->
    BoundingCage.split_iterator s it = Ok (it', s') ->
    reachable s'
| reach_keyframe_for_index s index it s' :
    reachable s ->
    BoundingCage.keyframe_for_index s index = Ok (it, s') ->
    reachable s'
| reach_move_point_2d s it i newpos validate2d validate_3d ok s' :
    reachable s ->
    BoundingCage.move_point_2d s it i newpos validate2d validate_3d = Ok (ok, s') ->
    reachable s'.

(* ================================================================= *)
(** ** Reading the leaf list *)

(** [left_keyframe->index()] of each of the cells [ls]. *)
Fixpoint left_indices (h : Heap) (ls : list cell_ptr) : result (list double) :=
  match ls with
  | [] => Ok []
  | p :: ls' =>
      c ← deref_cell h (Some p);
      lo ← Cell.min_index h c;
      rest ← left_indices h ls';
      Ok (lo :: rest)
  end.

(** Each element is smaller than the next one. *)
Fixpoint increasing (l : list double) : bool :=
  match l with
  | a :: (b :: _) as l' => (a <? b)%dbl && increasing l'
  | _ => true
  end.

(** [left_keyframe->index() < right_keyframe->index()] for the cell [p]. *)
Definition strict_cell (h : Heap) (p : cell_ptr) : result bool :=
  c ← deref_cell h (Some p);
  lo ← Cell.min_index h c;
  hi ← Cell.max_index h c;
  Ok (lo <? hi)%dbl.

(* ================================================================= *)
(** ** The shape of a cage *)

(** The indices of the key frames of the arena, in arena order. *)
Definition indices (h : Heap) : list double := map _index (keyframe_arena h).

(** [if (o) l[*o] = f(l[*o])] on an arena. *)
Definition alter_opt {A} (f : A -> A) (o : option nat) (l : list A) : list A :=
  match o with
  | Some i => alter f i l
  | None => l
  end.

(** The index of the key frame a pointer names. *)
Definition index_at (h : Heap) (k : option keyframe_ptr) : option double :=
  match k with
  | Some i => _index <$> keyframe_arena h !! i
  | None => None
  end.

(** Both key frames of the cell exist and the left one has the smaller
    index. *)
Definition ordered (h : Heap) (c : Cell) : Prop :=
  exists lo hi,
    index_at h (left_keyframe c) = Some lo /\
    index_at h (right_keyframe c) = Some hi /\
    (lo <? hi)%dbl = true.

(** [tree h p lk rk ls]: the cells below [p] form a binary tree between
    the key frames [lk] and [rk]; a cell has no child or two, the two
    children of a cell meet in one key frame, and [ls] are the leaves from
    left to right. *)
Inductive tree (h : Heap) :
  cell_ptr -> option keyframe_ptr -> option keyframe_ptr -> list cell_ptr -> Prop :=
| tree_leaf p c :
    cell_arena h !! p = Some c ->
    Cell.is_leaf c = true ->
    ordered h c ->
    tree h p (left_keyframe c) (right_keyframe c) [p]
| tree_node p c a b m la lb :
    cell_arena h !! p = Some c ->
    left_child c = Some a ->
    right_child c = Some b ->
    ordered h c ->
    tree h a (left_keyframe c) m la ->
    tree h b m (right_keyframe c) lb ->
    tree h p (left_keyframe c) (right_keyframe c) (la ++ lb).

(** What [next_cell] of a cell followed by the cells [ls] must be. *)
Definition next_of (ls : list cell_ptr) (nxt : option cell_ptr) : option cell_ptr :=
  match ls with
  | q :: _ => Some q
  | [] => nxt
  end.

(** What [prev_cell] of a cell preceded by the cells [ls] must be. *)
Definition prev_of (ls : list cell_ptr) (prv : option cell_ptr) : option cell_ptr :=
  match last ls with
  | Some q => Some q
  | None => prv
  end.

(** [dll h prv ls nxt]: the cells [ls] are doubly linked in this order,
    the first one coming after [prv] and the last one before [nxt]. *)
Fixpoint dll (h : Heap) (prv : option cell_ptr) (ls : list cell_ptr)
    (nxt : option cell_ptr) : Prop :=
  match ls with
  | [] => True
  | p :: ls' =>
      (exists c, cell_arena h !! p = Some c /\
                 prev_cell c = prv /\ next_cell c = next_of ls' nxt) /\
      dll h (Some p) ls' nxt
  end.

(** [chain h lk ls rk]: the cells [ls] lie side by side between the key
    frames [lk] and [rk], each one ordered. *)
Fixpoint chain (h : Heap) (lk : option keyframe_ptr) (ls : list cell_ptr)
    (rk : option keyframe_ptr) : Prop :=
  match ls with
  | [] => lk = rk
  | p :: ls' =>
      exists c, cell_arena h !! p = Some c /\ left_keyframe c = lk /\
                ordered h c /\ chain h (right_keyframe c) ls' rk
  end.

(** A cage is well formed when it is empty, or when its root is a tree
    whose leaves are the leaf list, doubly linked from [cells.head] to
    [cells.tail]. *)
Definition well_formed (s : State) : Prop :=
  match root (cage s) with
  | None => head (cells (cage s)) = None /\ tail (cells (cage s)) = None
  | Some r =>
      exists lk rk ls,
        tree (heap s) r lk rk ls /\
        dll (heap s) None ls None /\
        NoDup ls /\
        head (cells (cage s)) = hd_error ls /\
        tail (cells (cage s)) = last ls
  end.

(** The leaves of a tree with the leaf [p] replaced by [a] and [b]. *)
Definition replace_leaf (p a b : cell_ptr) (ls : list cell_ptr) : list cell_ptr :=
  flat_map (fun q => if decide (q = p) then [a; b] else [q]) ls.

(** What a split of the leaf [p], whose fields were [c], into the new
    cells [a] and [b] leaves in the heap [h']. *)
Record split_effect (h h' : Heap) (p : cell_ptr) (c : Cell)
    (key_frame : option keyframe_ptr) (a b : cell_ptr) : Prop :=
  { se_a : exists ca, cell_arena h' !! a = Some ca /\ Cell.is_leaf ca = true /\
             prev_cell ca = prev_cell c /\ next_cell ca = Some b /\
             left_keyframe ca = left_keyframe c /\ right_keyframe ca = key_frame;
    se_b : exists cb, cell_arena h' !! b = Some cb /\ Cell.is_leaf cb = true /\
             prev_cell cb = Some a /\ next_cell cb = next_cell c /\
             left_keyframe cb = key_frame /\ right_keyframe cb = right_keyframe c;
    se_p : exists cp, cell_arena h' !! p = Some cp /\
             left_child cp = Some a /\ right_child cp = Some b /\
             left_keyframe cp = left_keyframe c /\ right_keyframe cp = right_keyframe c;
    se_other : forall q c0, q <> p -> cell_arena h !! q = Some c0 ->
             exists c', cell_arena h' !! q = Some c' /\
               left_child c' = left_child c0 /\ right_child c' = right_child c0 /\
               left_keyframe c' = left_keyframe c0 /\
               right_keyframe c' = right_keyframe c0 /\
               prev_cell c' = (if decide (next_cell c = Some q) then Some b
                               else prev_cell c0) /\
               next_cell c' = (if decide (prev_cell c = Some q) then Some a
                               else next_cell c0);
    se_indices : indices h' = indices h }.

(* ================================================================= *)
(** ** A concrete geometry and concrete inputs *)

Definition e_x : RowVector3d := mkRowVector3d 1 0 0.
Definition e_y : RowVector3d := mkRowVector3d 0 1 0.
Definition e_z : RowVector3d := mkRowVector3d 0 0 1.
Definition origin : RowVector3d := mkRowVector3d 0 0 0.

(** Twice the signed area of the triangle [a b c]. *)
Definition orient (a b c : RowVector2d) : double :=
  ((x2 b - x2 a) * (y2 c - y2 a) - (y2 b - y2 a) * (x2 c - x2 a))%dbl.

(** Two segments cross when each has its ends strictly on either side of
    the other. *)
Definition segments_cross (e f : RowVector2d * RowVector2d) : bool :=
  ((orient e.1 e.2 f.1 * orient e.1 e.2 f.2 <? 0)%dbl
   && (orient f.1 f.2 e.1 * orient f.1 f.2 e.2 <? 0)%dbl)%bool.

Definition edges (pts : list RowVector2d) : list (RowVector2d * RowVector2d) :=
  zip pts (drop 1 pts ++ take 1 pts).

Definition self_intersects (pts : list RowVector2d) : bool :=
  existsb (fun e => existsb (segments_cross e) (edges pts)) (edges pts).

(** The point a fraction [t] of the way from [a] to [b]. *)
Definition lerp (t a b : double) : double := (a + t * (b - a))%dbl.

Definition example_interpolate (sv : MatrixXd) (lk rk : KeyFrame) (index : double)
  : RowVector3d * Matrix3d * list RowVector2d :=
  let t := PrimFloat.div (index - _index lk)%dbl (_index rk - _index lk)%dbl in
  (mkRowVector3d (lerp t (x3 (_center lk)) (x3 (_center rk)))
                 (lerp t (y3 (_center lk)) (y3 (_center rk)))
                 (lerp t (z3 (_center lk)) (z3 (_center rk))),
   _orientation lk,
   zip_with (fun p q => mkRowVector2d (lerp t (x2 p) (x2 q)) (lerp t (y2 p) (y2 q)))
            (_vertices_2d lk) (_vertices_2d rk)).

Definition example_end_frame (sv : MatrixXd) (last : bool) : RowVector3d * Matrix3d :=
  let r := if last then List.last (mdata sv) [] else List.hd [] (mdata sv) in
  (mkRowVector3d (nth 0 r 0%float) (nth 1 r 0%float) (nth 2 r 0%float),
   mkMatrix3d e_x e_y e_z).

(** The key frame's points are appended to the vertex buffer; a cap is a
    fan of triangles. *)
Definition example_keyframe_init_mesh (tesselate : bool) (kf : KeyFrame)
    (mesh : MeshBuffer) : MeshBuffer * list Z :=
  let n := length (_vertices_2d kf) in
  let first := buf_vertices mesh in
  let cap :=
    if tesselate
    then map (fun i => [first; first + Z.of_nat i; first + Z.of_nat i + 1]%Z)
             (seq 1 (n - 2))
    else [] in
  (mkMeshBuffer
     (mkMatrix 3 (mdata (buf_CV mesh) ++ map coeffs3 (KeyFrame.vertices_3d kf)))
     (mkMatrix 3 (mdata (buf_CF mesh) ++ cap))
     (first + Z.of_nat n)%Z
     (buf_faces mesh + Z.of_nat (length cap))%Z,
   map (fun i => (first + Z.of_nat i)%Z) (seq 0 n)).

(** Two triangles for each side of the prism between two key frames. *)
Definition side_faces (l r : list Z) : list (list Z) :=
  concat (zip_with (fun a b => [[a.1; a.2; b.1]; [a.2; b.2; b.1]])
            (zip l (drop 1 l ++ take 1 l)) (zip r (drop 1 r ++ take 1 r))).

(** The side faces go to the slots of the parent when there is one with
    as many faces, and to the end of the face buffer otherwise. *)
Definition example_cell_init_mesh (lk rk : KeyFrame) (parent : option Cell)
    (mesh : MeshBuffer) : MeshBuffer * (MatrixXd * MatrixXi * list Z) :=
  let faces := side_faces (_mesh_vertex_indices lk) (_mesh_vertex_indices rk) in
  let reuse :=
    match parent with
    | Some p => bool_decide (length (mesh_face_indexes p) = length faces)
    | None => false
    end in
  let slots :=
    if reuse then from_option mesh_face_indexes [] parent
    else map (fun i => (buf_faces mesh + Z.of_nat i)%Z) (seq 0 (length faces)) in
  let cf := if reuse then mdata (buf_CF mesh) else mdata (buf_CF mesh) ++ faces in
  let cf := foldl (fun cf sf => <[Z.to_nat sf.1 := sf.2]> cf) cf (zip slots faces) in
  (mkMeshBuffer (buf_CV mesh) (mkMatrix 3 cf) (buf_vertices mesh)
     (if reuse then buf_faces mesh else (buf_faces mesh + Z.of_nat (length faces))%Z),
   (mkMatrix 3 (map coeffs3 (KeyFrame.vertices_3d lk ++ KeyFrame.vertices_3d rk)),
    mkMatrix 3 faces, slots)).

Definition example_geometry : Geometry :=
  {| smooth_skeleton := fun sv _ => sv;
     end_frame := example_end_frame;
     interpolate := example_interpolate;
     validate_points_2d := fun kf => negb (self_intersects (_vertices_2d kf));
     validate_cage := fun _ _ => true;
     keyframe_init_mesh := example_keyframe_init_mesh;
     cell_init_mesh := example_cell_init_mesh |}.

Definition unit_square : list RowVector2d :=
  [mkRowVector2d 0 0; mkRowVector2d 1 0; mkRowVector2d 1 1; mkRowVector2d 0 1].

(** Five skeleton points one unit apart on the z axis. *)
Definition skeleton5 : MatrixXd :=
  mkMatrix 3 [[0; 0; 0]; [0; 0; 1]; [0; 0; 2]; [0; 0; 3]; [0; 0; 4]]%float.

Definition state_new : State := mkState (mkHeap [] []) BoundingCage.ctor.

(** The cage on [skeleton5] with the unit square as its polygon, and the
    same cage after [split(2.0)]. *)
Definition state_one_cell : State :=
  Eval vm_compute in
    match @BoundingCage.set_skeleton_vertices example_geometry state_new
            skeleton5 0 unit_square with
    | Ok (_, s) => s
    | Fault _ => state_new
    end.

Definition state_two_cells : State :=
  Eval vm_compute in
    match @BoundingCage.split example_geometry state_one_cell 2%float with
    | Ok (_, s) => s
    | Fault _ => state_new
    end.

(** A key frame at the origin whose frame is the world frame turned by a
    quarter turn about the normal: right = +y, up = -x. *)
Definition kf_quarter_turn : KeyFrame :=
  {| _orientation := mkMatrix3d e_y (mkRowVector3d (-1) 0 0) e_z;
     _center := origin;
     _vertices_2d := [mkRowVector2d 1 0];
     _mesh_vertex_indices := [];
     _index := 0%float;
     _cells := (None, None) |}.

(* ================================================================= *)
(** ** Walking the key frames *)

(** The loop [for (it = start; it != KeyFrameIterator(); step(it))] over
    the key frames, which collects the key frames it visits; [fuel]
    bounds the number of turns. *)
Fixpoint keyframes_walk (step : Heap -> KeyFrameIterator -> result KeyFrameIterator)
    (fuel : nat) (h : Heap) (it : KeyFrameIterator) : result (list keyframe_ptr) :=
  match fuel with
  | 0 => Fault OutOfFuel
  | S fuel' =>
      match keyframe it with
      | None => Ok []
      | Some k =>
          it' ← step h it;
          rest ← keyframes_walk step fuel' h it';
          Ok (k :: rest)
      end
  end.

(** The key frames as the loop from [keyframes.begin()] with [++it] meets
    them, and as the loop from [keyframes.rbegin()] with [--it] does.
    There is one key frame more than there are leaf cells. *)
Definition keyframes_forward (s : State) : result (list keyframe_ptr) :=
  b ← BoundingCage.keyframes_begin (heap s) (cage s);
  keyframes_walk KeyFrameIterator.incr (2 + length (cell_arena (heap s))) (heap s) b.

Definition keyframes_backward (s : State) : result (list keyframe_ptr) :=
  b ← BoundingCage.keyframes_rbegin (heap s) (cage s);
  keyframes_walk KeyFrameIterator.decr (2 + length (cell_arena (heap s))) (heap s) b.

(** [it->index()] of each of the key frames [ks]. *)
Fixpoint keyframe_indices (h : Heap) (ks : list keyframe_ptr) : result (list double) :=
  match ks with
  | [] => Ok []
  | k :: ks' =>
      kf ← deref_keyframe h (Some k);
      rest ← keyframe_indices h ks';
      Ok (KeyFrame.index kf :: rest)
  end.

(** [linked h prv k ls ks]: the key frames [k :: ks] and the cells [ls]
    alternate; each cell lies between two neighbouring key frames, and
    each key frame refers back to the cell on its left ([prv] for the
    first one) and to the cell on its right (none for the last one). *)
Fixpoint linked (h : Heap) (prv : option cell_ptr) (k : keyframe_ptr)
    (ls : list cell_ptr) (ks : list keyframe_ptr) : Prop :=
  match ls, ks with
  | [], [] => exists kf, keyframe_arena h !! k = Some kf /\ _cells kf = (prv, None)
  | p :: ls', k' :: ks' =>
      (exists kf c, keyframe_arena h !! k = Some kf /\ _cells kf = (prv, Some p) /\
                    cell_arena h !! p = Some c /\
                    left_keyframe c = Some k /\ right_keyframe c = Some k') /\
      linked h (Some p) k' ls' ks'
  | _, _ => False
  end.

(** The key frames of a cage with a root refer back to its leaf cells. *)
Definition well_linked (s : State) : Prop :=
  match root (cage s) with
  | None => True
  | Some _ =>
      exists ls k ks, BoundingCage.leaves s = Ok ls /\ linked (heap s) None k ls ks
  end.

(** What a split of the leaf between the key frames [kl] and [kr] at the
    key frame [k], into the new cells [a] and [b], leaves of the back
    references of the key frames in the heap [h']. *)
Definition split_links (h h' : Heap) (k kl kr : keyframe_ptr) (a b : cell_ptr) : Prop :=
  forall j kf, keyframe_arena h !! j = Some kf ->
    exists kf', keyframe_arena h' !! j = Some kf' /\
      _cells kf' =
        if decide (j = k) then (Some a, Some b)
        else if decide (j = kl) then ((_cells kf).1, Some a)
        else if decide (j = kr) then (Some b, (_cells kf).2)
        else _cells kf.

(* ================================================================= *)
(** * The half sweeps of [src/utils/voroffset/src/vor2d/DoubleVoronoi.h]

    [int] is a 32-bit integer, kept as a [Z]; a [std::vector] is a list.
    A run that does not return normally (a container constructed with a
    negative size, an index outside a container, a failed [vor_assert],
    or the bound on the turns of a loop of the model) is [None]. *)

Module voroffset.

(** The value an integer has as an [int]. *)
Definition to_int (z : Z) : Z := ((z + 2 ^ 31) mod 2 ^ 32 - 2 ^ 31)%Z.

(** The conversions of an [int] to [double], which is exact, and to
    [float], which rounds to the nearest binary32 number (written as the
    [double] of the same value). *)
Definition int_to_double (z : Z) : double :=
  SF2Prim (binary_normalize prec emax z 0 false).

Definition int_to_float (z : Z) : double :=
  SF2Prim (binary_normalize 24 128 z 0 false).

(** [struct VoronoiMorphoF::SegmentF]: a horizontal segment. *)
Module SegmentF.

Record t : Set := mk { x : double; y1 : double; y2 : double }.

(** [operator<]: by the sum of the two ends, then by [x]. *)
Definition lt (a s : t) : bool :=
  (y1 a + y2 a <? y1 s + y2 s)%dbl
  || ((y1 a + y2 a =? y1 s + y2 s)%dbl && (x a <? x s)%dbl).

Definition contains (a o : t) : bool :=
  (y1 a <=? y1 o)%dbl && (y2 o <=? y2 a)%dbl.

Definition isPoint (a : t) : bool := (y1 a =? y2 a)%dbl.

End SegmentF.

(** [struct VoronoiMorphoF]: the data members; [m_S] is a [std::set]
    ordered by [operator<], kept as the list of its elements. *)
Record VoronoiMorphoF : Set := mkVoronoiMorphoF
  { m_XMax : Z;
    m_YMax : Z;
    m_Radius : double;
    m_S : list SegmentF.t;
    m_Q : list (list SegmentF.t) }.

(** The constructor: [m_Q] gets [m_XMax] empty vectors. *)
Definition ctor (_xmax _ymax : Z) (_radius : double) : option VoronoiMorphoF :=
  if (_xmax <? 0)%Z then None
  else Some {| m_XMax := _xmax; m_YMax := _ymax; m_Radius := _radius;
               m_S := []; m_Q := replicate (Z.to_nat _xmax) [] |}.

(** The three methods the sweeps call, which the header declares and does
    not define: any three functions on the data members, taken to return
    normally.  [getLine] also gives the line it leaves in [nl]. *)
Class Methods : Type := mkMethods
  { removeInactiveSegments : Z -> VoronoiMorphoF -> VoronoiMorphoF;
    insertSegment : Z -> double -> double -> VoronoiMorphoF -> VoronoiMorphoF;
    getLine : Z -> list double -> Z -> VoronoiMorphoF -> VoronoiMorphoF * list double }.

(** [for (int k = (int)it[i].size() - 2; k >= 0; k -= 2)
       voronoi.insertSegment(i, it[i][k], it[i][k + 1]);] *)
Fixpoint dilate_segments `{!Methods} (fuel : nat) (i k : Z) (row : list double)
    (voronoi : VoronoiMorphoF) : option VoronoiMorphoF :=
  if (k <? 0)%Z then Some voronoi
  else
    match fuel with
    | 0 => None
    | S fuel' =>
        a ← row !! Z.to_nat k;
        b ← row !! Z.to_nat (k + 1);
        dilate_segments fuel' i (k - 2) row (insertSegment i a b voronoi)
    end.

(** The segments of one row of the dilation. *)
Definition dilate_row `{!Methods} (i : Z) (row : list double)
    (voronoi : VoronoiMorphoF) : option VoronoiMorphoF :=
  dilate_segments (length row) i (to_int (Z.of_nat (length row)) - 2) row voronoi.

(** [for (int k = (int)it[i].size() - 2; k >= 0; k -= 2) {
       voronoi.insertSegment(i, it[i][k + 1], j2);  j2 = it[i][k]; }] *)
Fixpoint erode_segments `{!Methods} (fuel : nat) (i k : Z) (row : list double)
    (j2 : double) (voronoi : VoronoiMorphoF) : option (VoronoiMorphoF * double) :=
  if (k <? 0)%Z then Some (voronoi, j2)
  else
    match fuel with
    | 0 => None
    | S fuel' =>
        a ← row !! Z.to_nat k;
        b ← row !! Z.to_nat (k + 1);
        erode_segments fuel' i (k - 2) row a (insertSegment i b j2 voronoi)
    end.

(** The segments of one row of the erosion: [j2] starts as
    [ysize*1.0f], and after the loop [insertSegment(i, -1, j2)]. *)
Definition erode_row `{!Methods} (i ysize : Z) (row : list double)
    (voronoi : VoronoiMorphoF) : option VoronoiMorphoF :=
  '(voronoi, j2) ← erode_segments (length row) i
                     (to_int (Z.of_nat (length row)) - 2) row
                     (int_to_float ysize) voronoi;
  Some (insertSegment i (-1)%float j2 voronoi).

(** [for (int i = 0; i < xsize; ++i)] of either sweep, [segments] being
    the part of its body between the [vor_assert] and [getLine]. *)
Fixpoint sweep_rows `{!Methods}
    (segments : Z -> list double -> VoronoiMorphoF -> option VoronoiMorphoF)
    (fuel : nat) (i xsize ysize : Z) (it : list (list double))
    (voronoi : VoronoiMorphoF) (result : list (list double))
  : option (list (list double)) :=
  if negb (i <? xsize)%Z then Some result
  else
    match fuel with
    | 0 => None
    | S fuel' =>
        let voronoi := removeInactiveSegments i voronoi in
        row ← it !! Z.to_nat i;
        if negb (Z.of_nat (length row) mod 2 =? 0)%Z then None
        else
          voronoi ← segments i row voronoi;
          nl ← result !! Z.to_nat i;
          let '(voronoi, nl) := getLine i nl ysize voronoi in
          sweep_rows segments fuel' (i + 1) xsize ysize it voronoi
            (<[Z.to_nat i := nl]> result)
    end.

(** [voronoiF_half_dilate]; the result is what the call leaves in
    [result]. *)
Definition voronoiF_half_dilate `{!Methods} (xsize ysize : Z) (radius : double)
    (it : list (list double)) : option (list (list double)) :=
  voronoi ← ctor xsize ysize radius;
  sweep_rows dilate_row (Z.to_nat xsize) 0 xsize ysize it voronoi
    (replicate (Z.to_nat xsize) []).

(** [voronoiF_half_erode].  The constructor is given [ysize + 1], a sum
    of two [int]s: it is the [int] of the sum, which past [INT_MAX] (where
    C++ leaves the sum undefined) is what two's complement arithmetic
    gives, [INT_MIN]. *)
Definition voronoiF_half_erode `{!Methods} (xsize ysize : Z) (radius : double)
    (it : list (list double)) : option (list (list double)) :=
  voronoi ← ctor xsize (to_int (ysize + 1)) radius;
  let result := replicate (Z.to_nat xsize) [] in
  if (xsize =? 0)%Z then Some result
  else
    let voronoi := insertSegment (-1) (-1)%float (int_to_double ysize) voronoi in
    sweep_rows (fun i => erode_row i ysize) (Z.to_nat xsize) 0 xsize ysize it
      voronoi result.

(** The vocabulary of the properties: the pairs [(l0, l1), (l2, l3), ...]
    of a list, and the calls [insertSegment(i, a, b)] for a list of pairs
    [(a, b)], first to last. *)
Fixpoint pairs (l : list double) : list (double * double) :=
  match l with
  | a :: b :: l' => (a, b) :: pairs l'
  | _ => []
  end.

Definition insert_all `{!Methods} (i : Z) (segs : list (double * double))
    (voronoi : VoronoiMorphoF) : VoronoiMorphoF :=
  foldl (fun v ab => insertSegment i ab.1 ab.2 v) voronoi segs.

(** The list [a0, b0, a1, b1, ...] of the pairs [(a0, b0), (a1, b1), ...]. *)
Fixpoint unpairs (ps : list (double * double)) : list double :=
  match ps with
  | [] => []
  | (a, b) :: ps' => a :: b :: unpairs ps'
  end.

(** The lines of a sweep, row by row from the row [i] on: the inactive
    segments are removed, the segments [segs i row] are inserted, and the
    line is what [getLine] makes of an empty one. *)
Fixpoint sweep_lines `{!Methods} (segs : Z -> list double -> list (double * double))
    (i ysize : Z) (rows : list (list double)) (voronoi : VoronoiMorphoF)
  : list (list double) :=
  match rows with
  | [] => []
  | row :: rows' =>
      let voronoi := insert_all i (segs i row) (removeInactiveSegments i voronoi) in
      let '(voronoi, nl) := getLine i [] ysize voronoi in
      nl :: sweep_lines segs (i + 1) ysize rows' voronoi
  end.

(** A recording instance of the methods, for the examples: every call is
    noted in [m_S], [getLine] gives the number of segments inserted so
    far. *)
Definition recording : Methods :=
  {| removeInactiveSegments := fun _ v => v;
     insertSegment := fun i a b v =>
       {| m_XMax := m_XMax v; m_YMax := m_YMax v; m_Radius := m_Radius v;
          m_S := m_S v ++ [SegmentF.mk (int_to_double i) a b]; m_Q := m_Q v |};
     getLine := fun _ _ _ v => (v, [int_to_double (Z.of_nat (length (m_S v)))]) |}.

End voroffset.

(* ================================================================= *)
(** * The file names of [src/utils/datfile.h]

    A [std::string] is the list of its bytes. *)

From Stdlib Require Strings.Byte.

Module DatFile.

(** [s.rfind(c)]: the position of the last [c] in [s], or [npos]. *)
Fixpoint rfind (c : Byte.byte) (s : list Byte.byte) : option nat :=
  match s with
  | [] => None
  | b :: s' =>
      match rfind c s' with
      | Some i => Some (S i)
      | None => if Byte.eqb b c then Some 0 else None
      end
  end.

(** [s.substr(pos)] and [s.substr(pos, n)] for [pos] within [s]. *)
Definition substr (s : list Byte.byte) (pos : nat) (n : option nat) : list Byte.byte :=
  match n with
  | Some n => take n (drop pos s)
  | None => drop pos s
  end.

(** The backslash. *)
Definition backslash : Byte.byte := Byte.x5c.

(** [dir_and_base_name], of the Windows build: the name is cut at its
    last backslash. *)
Definition dir_and_base_name (name : list Byte.byte)
  : list Byte.byte * list Byte.byte :=
  let filename := name in
  match rfind backslash filename with
  | Some separator =>
      (substr filename 0 (Some separator), substr filename (separator + 1) None)
  | None => (filename, filename)
  end.

End DatFile.

(* ================================================================= *)
(** * The render passes of [src/ui/bounding_widget_3d.cpp] *)

Module Bounding_Widget_3d.

(** What one turn of the loop over [sorted_cells] in [post_draw] does:
    it draws the box of [pass_cell], binds a framebuffer, which is [None]
    for the default framebuffer 0 and [Some b] for
    [_gl_state.framebuffer[b]], and renders the volume, sampling
    [_gl_state.texture[pass_texture]].  [initialize] attaches
    [texture[b]] to [framebuffer[b]]. *)
Record pass : Set := mkPass
  { pass_cell : CellIterator;
    pass_framebuffer : option Z;
    pass_texture : Z }.

(** The body of the loop for the turn [i] of [size]. *)
Definition render_pass (size i : Z) (cell : CellIterator) : pass :=
  let current_buf := Z.rem i 2 in
  let last_buf := Z.rem (i + 1) 2 in
  {| pass_cell := cell;
     pass_framebuffer := if (i =? size - 1)%Z then None else Some current_buf;
     pass_texture := last_buf |}.

(** [for (int i = 0; i < sorted_cells.size(); i++)]. *)
Fixpoint render_from (size i : Z) (cells : list CellIterator) : list pass :=
  match cells with
  | [] => []
  | cell :: cells' => render_pass size i cell :: render_from size (i + 1) cells'
  end.

Definition render_passes (sorted_cells : list CellIterator) : list pass :=
  render_from (Z.of_nat (length sorted_cells)) 0 sorted_cells.

End Bounding_Widget_3d.

(* ================================================================= *)
(** * Properties *)

(** ** The order of [double] *)

Lemma SFcompare_antisym (x y : SpecFloat.spec_float) :
  SFcompare y x = CompOpp <$> SFcompare x y.
Proof.
  destruct x as [sx|sx| |sx mx ex], y as [sy|sy| |sy my ey]; cbn;
    try reflexivity;
    try (destruct sx; reflexivity); try (destruct sy; reflexivity);
    try (destruct sx, sy; reflexivity).
  destruct sx, sy; try reflexivity; f_equal;
    rewrite (Z.compare_antisym ex ey);
    destruct (ex ?= ey)%Z; cbn; try reflexivity;
    change Eq with (CompOpp Eq) at 1;
    rewrite <- (Pos.compare_cont_antisym mx my Eq); reflexivity.
Qed.

(** [a == b] excludes [a < b] and [b < a]. *)
Lemma eqb_not_ltb (a b : double) :
  (a =? b)%dbl = true -> (a <? b)%dbl = false /\ (b <? a)%dbl = false.
Proof.
  rewrite FloatAxioms.eqb_spec, !FloatAxioms.ltb_spec. unfold SFeqb, SFltb.
  rewrite (SFcompare_antisym (Prim2SF a) (Prim2SF b)).
  destruct (SFcompare (Prim2SF a) (Prim2SF b)) as [[]|]; cbn; intros; try discriminate; auto.
Qed.

(** [a < b] excludes [b < a]. *)
Lemma ltb_asym (a b : double) :
  (a <? b)%dbl = true -> (b <? a)%dbl = false.
Proof.
  rewrite !FloatAxioms.ltb_spec. unfold SFltb.
  rewrite (SFcompare_antisym (Prim2SF a) (Prim2SF b)).
  destruct (SFcompare (Prim2SF a) (Prim2SF b)) as [[]|]; cbn; intros; try discriminate; auto.
Qed.

Lemma SFcompare_refl (x : SpecFloat.spec_float) :
  x <> S754_nan -> SFcompare x x = Some Eq.
Proof.
  destruct x as [s|s| |s m e]; cbn; intros Hnan; try congruence;
    try (destruct s; reflexivity).
  destruct s; rewrite Z.compare_refl, Pos.compare_cont_refl; reflexivity.
Qed.

(** Both sides of [a < b] are numbers, so each equals itself. *)
Lemma ltb_eqb_refl (a b : double) :
  (a <? b)%dbl = true -> (a =? a)%dbl = true /\ (b =? b)%dbl = true.
Proof.
  rewrite FloatAxioms.ltb_spec, !FloatAxioms.eqb_spec. unfold SFltb, SFeqb.
  intros Hlt.
  assert (Prim2SF a <> S754_nan /\ Prim2SF b <> S754_nan) as [Ha Hb].
  { destruct (Prim2SF a), (Prim2SF b); cbn in Hlt; split; congruence. }
  rewrite !SFcompare_refl by assumption. auto.
Qed.

(** [<] on [double] is transitive. *)
Lemma SFltb_trans (x y z : spec_float) :
  SFltb x y = true -> SFltb y z = true -> SFltb x z = true.
Proof.
  unfold SFltb.
  destruct x as [sx|sx| |sx mx ex], y as [sy|sy| |sy my ey], z as [sz|sz| |sz mz ez];
    cbn; try discriminate; try reflexivity;
    repeat match goal with s : bool |- _ => destruct s end;
    cbn; try discriminate; try reflexivity.
  all: change (Pos.compare_cont Eq) with Pos.compare.
  all: destruct (Z.compare_spec ex ey), (Z.compare_spec ey ez),
         (Z.compare_spec ex ez); try lia; cbn; try discriminate; try reflexivity.
  all: destruct (Pos.compare_spec mx my), (Pos.compare_spec my mz),
         (Pos.compare_spec mx mz); cbn; try discriminate; try reflexivity; lia.
Qed.

Lemma ltb_trans (a b c : double) :
  (a <? b)%dbl = true -> (b <? c)%dbl = true -> (a <? c)%dbl = true.
Proof. rewrite !FloatAxioms.ltb_spec. apply SFltb_trans. Qed.

(** In an increasing list every element is below all later ones. *)
Lemma increasing_pairwise (l : list double) :
  increasing l = true ->
  forall i j x y, i < j -> l !! i = Some x -> l !! j = Some y -> (x <? y)%dbl = true.
Proof.
  induction l as [|a l IH]; intros Hinc i j x y Hij Hi Hj; [discriminate|].
  destruct l as [|b l]; [destruct i, j; (lia || discriminate)|].
  change (increasing (a :: b :: l)) with ((a <? b)%dbl && increasing (b :: l)) in Hinc.
  apply andb_prop in Hinc as [Hab Hinc].
  destruct j as [|j]; [lia|]. cbn in Hj.
  destruct i as [|i].
  - injection Hi as <-. destruct j as [|j].
    + injection Hj as <-. exact Hab.
    + apply ltb_trans with b; [exact Hab|].
      apply (IH Hinc 0 (S j)); [lia|reflexivity|exact Hj].
  - cbn in Hi. apply (IH Hinc i j); [lia|assumption..].
Qed.

(** ** Converting a row count to [double] *)

Lemma digits2_pos_size p : digits2_pos p = Pos.size p.
Proof. induction p; cbn; congruence. Qed.

Lemma Zdigits2_bounds m :
  (0 < m)%Z -> (0 < Zdigits2 m /\ 2 ^ (Zdigits2 m - 1) <= m)%Z.
Proof.
  destruct m as [|p|p]; try lia. intros _. cbn [Zdigits2].
  rewrite digits2_pos_size. split; [lia|].
  pose proof (Pos.size_le p) as Hle.
  assert (2 ^ Z.pos (Pos.size p) <= 2 * Z.pos p)%Z as Hle'.
  { change 2%Z with (Z.pos 2). rewrite <- Pos2Z.inj_pow. exact Hle. }
  replace (Z.pos (Pos.size p)) with (Z.succ (Z.pos (Pos.size p) - 1)) in Hle' by lia.
  rewrite Z.pow_succ_r in Hle' by lia. lia.
Qed.

Lemma shr_1_m mrs :
  (0 <= shr_m mrs)%Z -> shr_m (shr_1 mrs) = (shr_m mrs / 2)%Z.
Proof.
  destruct mrs as [m r s]. cbn [shr_m]. intros Hm.
  destruct m as [|[p|p|]|p]; cbn [shr_1 shr_m]; try lia.
  - reflexivity.
  - rewrite Pos2Z.inj_xI. apply Z.div_unique with 1%Z; lia.
  - rewrite Pos2Z.inj_xO. apply Z.div_unique with 0%Z; lia.
  - reflexivity.
Qed.

Lemma iter_shr_1_m k mrs :
  (0 <= shr_m mrs)%Z ->
  shr_m (SpecFloat.iter_pos shr_1 k mrs) = (shr_m mrs / 2 ^ Z.pos k)%Z.
Proof.
  revert mrs. induction k as [k IH|k IH|]; intros mrs Hm; cbn [SpecFloat.iter_pos].
  - assert (0 <= shr_m (shr_1 mrs))%Z as H1.
    { rewrite shr_1_m by assumption. apply Z.div_pos; lia. }
    assert (0 <= shr_m (SpecFloat.iter_pos shr_1 k (shr_1 mrs)))%Z as H2.
    { rewrite IH by assumption. apply Z.div_pos; lia. }
    rewrite IH, IH, shr_1_m by assumption.
    rewrite !Z.div_div by lia. f_equal.
    rewrite <- Z.pow_add_r, <- Z.pow_succ_r by lia. f_equal. lia.
  - assert (0 <= shr_m (SpecFloat.iter_pos shr_1 k mrs))%Z as H2.
    { rewrite IH by assumption. apply Z.div_pos; lia. }
    rewrite IH, IH by assumption.
    rewrite !Z.div_div by lia. f_equal.
    rewrite <- Z.pow_add_r by lia. f_equal. lia.
  - rewrite shr_1_m by assumption. reflexivity.
Qed.

(** Rounding a positive mantissa whose exponent is in range leaves a
    positive mantissa. *)
Lemma shr_fexp_pos m e l :
  (0 < m)%Z -> (SpecFloat.emin prec emax <= e)%Z ->
  (0 < shr_m (shr_fexp prec emax m e l).1)%Z /\
  (SpecFloat.emin prec emax <= (shr_fexp prec emax m e l).2)%Z.
Proof.
  intros Hm He. unfold shr_fexp, shr.
  assert (shr_m (shr_record_of_loc m l) = m) as Hrec.
  { destruct l as [|[]]; reflexivity. }
  destruct (Zdigits2_bounds m Hm) as [Hd Hpow].
  destruct (fexp prec emax (Zdigits2 m + e) - e)%Z as [|k|k] eqn:Hn;
    cbn [fst snd]; rewrite ?Hrec; try (split; lia).
  unfold fexp, SpecFloat.emin, prec, emax in *.
  rewrite iter_shr_1_m, Hrec by lia. split; [|lia].
  assert (Z.pos k <= Zdigits2 m - 1)%Z as Hk by lia.
  apply Z.lt_le_trans with 1%Z; [lia|].
  apply Z.div_le_lower_bound; [lia|].
  rewrite Z.mul_1_r.
  apply Z.le_trans with (2 ^ (Zdigits2 m - 1))%Z; [|assumption].
  apply Z.pow_le_mono_r; lia.
Qed.

Lemma round_nearest_even_pos m l : (0 < m)%Z -> (0 < round_nearest_even m l)%Z.
Proof.
  intros Hm. destruct l as [|[]]; cbn [round_nearest_even]; try lia.
  destruct (Z.even m); lia.
Qed.

Lemma binary_round_aux_pos m e l :
  (0 < m)%Z -> (SpecFloat.emin prec emax <= e)%Z ->
  SFpositive (binary_round_aux prec emax false m e l).
Proof.
  intros Hm He. unfold binary_round_aux.
  destruct (shr_fexp_pos m e l Hm He) as [H1 H1e].
  destruct (shr_fexp prec emax m e l) as [mrs' e']. cbn [fst snd] in H1, H1e.
  pose proof (round_nearest_even_pos _ (loc_of_shr_record mrs') H1) as H2.
  destruct (shr_fexp_pos _ e' loc_Exact H2 H1e) as [H3 _].
  destruct (shr_fexp prec emax _ e' loc_Exact) as [mrs'' e'']. cbn [fst] in H3.
  destruct (shr_m mrs'') as [|p|p]; try lia.
  destruct (e'' <=? emax - prec)%Z; exact I.
Qed.

Lemma binary_normalize_pos z :
  (0 < z)%Z -> SFpositive (binary_normalize prec emax z 0 false).
Proof.
  destruct z as [|p|p]; try lia. intros _. cbn [binary_normalize].
  unfold binary_round, shl_align.
  destruct (fexp prec emax (Z.pos (digits2_pos p) + 0) - 0)%Z eqn:Hn;
    apply binary_round_aux_pos; try lia;
    unfold fexp, SpecFloat.emin, prec, emax in *; lia.
Qed.

(** A positive 63-bit integer converts to a positive [double]. *)
Lemma of_uint63_pos (n : int) :
  (0 < Uint63.to_Z n)%Z -> (0 <? PrimFloat.of_uint63 n)%dbl = true.
Proof.
  intros Hn. rewrite FloatAxioms.ltb_spec, FloatAxioms.of_uint63_spec.
  apply binary_normalize_pos in Hn.
  change (Prim2SF 0) with (S754_zero false).
  destruct (binary_normalize prec emax (Uint63.to_Z n) 0 false) as [[]|[]| |[] ? ?];
    cbn in Hn |- *; try contradiction; reflexivity.
Qed.

(** The last index of a skeleton of at least two rows, no more than an
    Eigen index counts, is above 0. *)
Lemma last_index_pos (sv : MatrixXd) :
  2 <= rows sv -> (Z.of_nat (rows sv) < 2 ^ 63)%Z ->
  (0 <? BoundingCage.last_index sv)%dbl = true.
Proof.
  intros H2 Hmax. unfold BoundingCage.last_index. apply of_uint63_pos.
  rewrite Uint63.of_Z_spec, Z.mod_small; [lia|].
  change wB with (2 ^ 63)%Z. lia.
Qed.

(** ** Key frames: [vertices_3d] *)

Section vertices_3d.
Context (kf : KeyFrame).

Lemma vertices_3d_step_length pts i :
  length (KeyFrame.vertices_3d_step kf pts i) = length pts.
Proof.
  unfold KeyFrame.vertices_3d_step.
  destruct (_vertices_2d kf !! i); [apply length_insert | reflexivity].
Qed.

(** The loop invariant: after the turns for [0 .. k-1] the rows below [k]
    are set and the rows from [k] on are as they were. *)
Lemma vertices_3d_loop init k :
  length init = length (_vertices_2d kf) ->
  k <= length (_vertices_2d kf) ->
  let pts := foldl (KeyFrame.vertices_3d_step kf) init (seq 0 k) in
  length pts = length init /\
  forall i, pts !! i =
    if decide (i < k) then KeyFrame.local_to_world kf <$> (_vertices_2d kf !! i)
    else init !! i.
Proof.
  intros Hlen. induction k as [|k IH]; intros Hk; cbn zeta.
  - split; [reflexivity|]. intros i. destruct (decide (i < 0)); [lia | reflexivity].
  - rewrite seq_S, foldl_app. cbn [foldl seq Nat.add].
    destruct IH as [IHlen IHrow]; [lia|].
    split; [rewrite vertices_3d_step_length; exact IHlen|].
    intros i. unfold KeyFrame.vertices_3d_step at 1.
    destruct (lookup_lt_is_Some_2 (_vertices_2d kf) k ltac:(lia)) as [p Hp].
    rewrite Hp. destruct (decide (i = k)) as [->|Hne].
    + rewrite list_lookup_insert_eq by lia.
      destruct (decide (k < S k)); [|lia]. rewrite Hp. reflexivity.
    + rewrite list_lookup_insert_ne by congruence. rewrite IHrow.
      destruct (decide (i < k)), (decide (i < S k)); try lia; reflexivity.
Qed.

End vertices_3d.

(** C3. For every key frame and every index [i], row [i] of
    [vertices_3d()] is [center() + x_i * right() + y_i * up()] for the row
    [(x_i, y_i)] of [vertices_2d()], and there is no row where
    [vertices_2d()] has none: the result is a function of the key frame's
    fields alone. *)
Theorem vertices_3d_row (kf : KeyFrame) (i : nat) :
  KeyFrame.vertices_3d kf !! i =
    (fun p => vadd (vadd (KeyFrame.center kf) (smul (x2 p) (KeyFrame.right kf)))
                   (smul (y2 p) (KeyFrame.up kf)))
      <$> (KeyFrame.vertices_2d kf !! i).
Proof.
  unfold KeyFrame.vertices_3d, KeyFrame.vertices_2d.
  destruct (vertices_3d_loop kf
              (replicate (length (_vertices_2d kf)) (mkRowVector3d 0 0 0))
              (length (_vertices_2d kf))) as [_ Hrow];
    [apply length_replicate | lia |].
  rewrite Hrow. destruct (decide (i < length (_vertices_2d kf))) as [|Hge]; [reflexivity|].
  rewrite (lookup_ge_None_2 (_vertices_2d kf)) by lia.
  apply lookup_ge_None_2. rewrite length_replicate. lia.
Qed.

(** ** Key frames: [transform] *)

(** Whatever the key frame, [transform()] stops at its first block
    assignment: [ret] has no rows. *)
Lemma transform_range_error (kf : KeyFrame) :
  KeyFrame.transform kf = Fault EigenRange.
Proof. reflexivity. Qed.

(** Run on a 4x4 matrix, the statements of [transform()] put the
    orientation, untransposed, next to the centre. *)
Lemma transform_on_4x4 (kf : KeyFrame) :
  KeyFrame.transform_on (Zero 4 4) kf =
    Ok (mkMatrix 4
          [coeffs3 (KeyFrame.right kf) ++ [x3 (KeyFrame.center kf)];
           coeffs3 (KeyFrame.up kf) ++ [y3 (KeyFrame.center kf)];
           coeffs3 (KeyFrame.normal kf) ++ [z3 (KeyFrame.center kf)];
           [0; 0; 0; 1]%float]).
Proof. reflexivity. Qed.

(** C4. [transform()] is not the map from local coordinates into space.
    For the key frame at the origin with right = +y and up = -x and the
    boundary point (1, 0): the call itself is a range error; and the
    matrix its statements build on a 4x4 [ret] sends (1, 0, 0, 1) to
    (0, -1, 0, 1), while row 0 of [vertices_3d()] is (0, 1, 0). *)
Theorem transform_is_not_local_to_world :
  KeyFrame.transform kf_quarter_turn = Fault EigenRange /\
  (exists M, KeyFrame.transform_on (Zero 4 4) kf_quarter_turn = Ok M /\
             mul_vec M [1; 0; 0; 1]%float = [0; -1; 0; 1]%float) /\
  KeyFrame.vertices_2d kf_quarter_turn !! 0 = Some (mkRowVector2d 1 0) /\
  KeyFrame.vertices_3d kf_quarter_turn !! 0 = Some (mkRowVector3d 0 1 0).
Proof.
  split; [reflexivity|]. split; [|split; vm_compute; reflexivity].
  eexists. split; [reflexivity|]. vm_compute. reflexivity.
Qed.

(** ** The key frame iterator *)

(** C7. For an iterator at a live key frame, [operator++] moves to the
    right key frame of the cell on the key frame's right, or to the end
    iterator when there is no such cell; [operator--] does the same on the
    left. *)
Theorem keyframe_iterator_moves (h : Heap) (it : KeyFrameIterator)
    (k : keyframe_ptr) (kf : KeyFrame) :
  keyframe it = Some k ->
  keyframe_arena h !! k = Some kf ->
  (forall rc c, lock h (_cells kf).2 = Some rc -> cell_arena h !! rc = Some c ->
     KeyFrameIterator.incr h it = Ok (mkKeyFrameIterator (right_keyframe c))) /\
  (lock h (_cells kf).2 = None ->
     KeyFrameIterator.incr h it = Ok BoundingCage.keyframes_end) /\
  (forall lc c, lock h (_cells kf).1 = Some lc -> cell_arena h !! lc = Some c ->
     KeyFrameIterator.decr h it = Ok (mkKeyFrameIterator (left_keyframe c))) /\
  (lock h (_cells kf).1 = None ->
     KeyFrameIterator.decr h it = Ok BoundingCage.keyframes_end).
Proof.
  intros Hit Hkf.
  unfold KeyFrameIterator.incr, KeyFrameIterator.decr, deref_keyframe.
  rewrite Hit, Hkf. cbn.
  repeat split.
  - intros rc c Hlock Hc. rewrite Hlock. cbn. rewrite Hc. reflexivity.
  - intros Hlock. rewrite Hlock. reflexivity.
  - intros lc c Hlock Hc. rewrite Hlock. cbn. rewrite Hc. reflexivity.
  - intros Hlock. rewrite Hlock. reflexivity.
Qed.

(** The key frame at 0 of the one-cell cage: the cell on its right ends at
    the key frame at 4, and nothing lies on its left. *)
Lemma keyframe_iterator_moves_witness :
  KeyFrameIterator.incr (heap state_one_cell) (mkKeyFrameIterator (Some 0)) =
    Ok (mkKeyFrameIterator (Some 1)) /\
  KeyFrameIterator.decr (heap state_one_cell) (mkKeyFrameIterator (Some 0)) =
    Ok BoundingCage.keyframes_end.
Proof.
  destruct (keyframe_iterator_moves (heap state_one_cell)
              (mkKeyFrameIterator (Some 0)) 0 _ eq_refl eq_refl)
    as (Hincr & _ & _ & Hdecr).
  split.
  - exact (Hincr 0 _ eq_refl eq_refl).
  - exact (Hdecr eq_refl).
Defined.

(** C10. [operator++] and [operator--] dereference [keyframe] before they
    test it: on the end iterator both are a null dereference, so a call
    that returns was made on an iterator that is not the end iterator. *)
Theorem keyframe_iterator_end_unguarded (h : Heap) :
  KeyFrameIterator.incr h BoundingCage.keyframes_end = Fault NullDeref /\
  KeyFrameIterator.decr h BoundingCage.keyframes_end = Fault NullDeref /\
  forall it,
    (is_Ok (KeyFrameIterator.incr h it) -> keyframe it <> None) /\
    (is_Ok (KeyFrameIterator.decr h it) -> keyframe it <> None).
Proof.
  split; [reflexivity|]. split; [reflexivity|].
  intros [[k|]]; split; intros [it' Hok]; try discriminate; cbn in Hok; discriminate.
Qed.

(** ** The cage: [clear], [min_index], [max_index] *)

(** C8. After [clear()] no state is left in the cage, which is the cage
    the default constructor makes: the two skeleton
    matrices and the two mesh buffers [CV] and [CF] are 0 x 0, the two
    mesh counters are 0, the root and the two ends of the leaf list are
    null, so that the cell range and the key frame range are empty, and
    [min_index()] and [max_index()] are 0.  The mesh is no longer
    reported, though: [vertices()] and [faces()] take the block of
    [num_mesh_vertices] (resp. [num_mesh_faces]) rows and three columns,
    and the buffers are left without columns, so that the block fails the
    range assertion of Eigen instead of being a matrix without rows. *)
Theorem clear_empties (h : Heap) (c : BoundingCage) :
  let c' := BoundingCage.clear c in
  c' = BoundingCage.ctor /\
  rows (BoundingCage.skeleton_vertices c') = 0 /\
  cols (BoundingCage.skeleton_vertices c') = 0 /\
  rows (BoundingCage.smooth_skeleton_vertices c') = 0 /\
  cols (BoundingCage.smooth_skeleton_vertices c') = 0 /\
  rows (CV c') = 0 /\ cols (CV c') = 0 /\
  rows (CF c') = 0 /\ cols (CF c') = 0 /\
  num_mesh_vertices c' = 0%Z /\ num_mesh_faces c' = 0%Z /\
  root c' = None /\ head (cells c') = None /\ tail (cells c') = None /\
  Cells.begin (cells c') = Cells.end_ (cells c') /\
  BoundingCage.keyframes_begin h c' = Ok BoundingCage.keyframes_end /\
  BoundingCage.min_index h c' = Ok 0%float /\
  BoundingCage.max_index h c' = Ok 0%float /\
  BoundingCage.vertices c' = Fault EigenRange /\
  BoundingCage.faces c' = Fault EigenRange.
Proof.
  cbn. repeat split.
Qed.

(** A block of [vertices()] or [faces()] that is in range has the rows
    counted and three columns, out of a buffer with at least as many of
    both. *)
Lemma block_rows {A} (m : Matrix A) (n : Z) (b : Matrix A) :
  block m 0 0 n 3 = Ok b ->
  (0 <= n <= Z.of_nat (rows m))%Z /\ 3 <= cols m /\
  rows b = Z.to_nat n /\ cols b = 3.
Proof.
  unfold block. case_bool_decide as Hr; [|discriminate]. intros [= <-].
  unfold rows, cols in *. cbn [mcols mdata].
  rewrite length_map, length_take, length_drop. cbn. lia.
Qed.

(** C9. Without a root [min_index()] and [max_index()] are 0; with a
    root whose two key frames are live, and with the head and the tail of
    the leaf list agreeing with it as the two [assert]s demand, they are
    the indices of the root's left and right key frame. *)
Theorem min_max_index_bounds (h : Heap) (c : BoundingCage) :
  (root c = None ->
     BoundingCage.min_index h c = Ok 0%float /\
     BoundingCage.max_index h c = Ok 0%float) /\
  (forall r lk rk hmin tmax,
     deref_cell h (root c) = Ok r ->
     deref_keyframe h (left_keyframe r) = Ok lk ->
     deref_keyframe h (right_keyframe r) = Ok rk ->
     deref_cell h (head (cells c)) ≫= Cell.min_index h = Ok hmin ->
     deref_cell h (tail (cells c)) ≫= Cell.max_index h = Ok tmax ->
     (KeyFrame.index lk =? hmin)%dbl = true ->
     (KeyFrame.index rk =? tmax)%dbl = true ->
     BoundingCage.min_index h c = Ok (KeyFrame.index lk) /\
     BoundingCage.max_index h c = Ok (KeyFrame.index rk)).
Proof.
  split.
  - intros Hroot. unfold BoundingCage.min_index, BoundingCage.max_index.
    rewrite Hroot. split; reflexivity.
  - intros r lk rk hmin tmax Hr Hlk Hrk Hhd Htl Hmin Hmax.
    unfold BoundingCage.min_index, BoundingCage.max_index.
    destruct (root c) as [p|] eqn:Hroot; [|discriminate].
    rewrite Hr. cbn. unfold Cell.min_index, Cell.max_index in *.
    rewrite Hlk, Hrk. cbn.
    destruct (deref_cell h (head (cells c))) as [hd|]; [|discriminate].
    destruct (deref_cell h (tail (cells c))) as [tl|]; [|discriminate].
    cbn in Hhd, Htl |- *. rewrite Hhd, Htl. cbn.
    rewrite Hmin, Hmax. split; reflexivity.
Qed.

(** The one-cell cage spans the indices 0 to 4. *)
Lemma min_max_index_bounds_witness :
  BoundingCage.min_index (heap state_one_cell) (cage state_one_cell) = Ok 0%float /\
  BoundingCage.max_index (heap state_one_cell) (cage state_one_cell) = Ok 4%float.
Proof.
  refine (proj2 (min_max_index_bounds (heap state_one_cell) (cage state_one_cell))
            _ _ _ 0%float 4%float eq_refl eq_refl eq_refl eq_refl eq_refl eq_refl eq_refl).
Defined.

(** ** Key frames: [move_point_2d] *)

(** The candidate differs from the key frame in row [i] of the polygon
    and nowhere else. *)
Lemma candidate_polygon (kf : KeyFrame) (i : Z) (newpos : RowVector2d) :
  (0 <= i < Z.of_nat (length (_vertices_2d kf)))%Z ->
  _vertices_2d (KeyFrame.candidate kf i newpos) !! Z.to_nat i = Some newpos /\
  (forall j, j <> Z.to_nat i ->
     _vertices_2d (KeyFrame.candidate kf i newpos) !! j = _vertices_2d kf !! j) /\
  set_vertices_2d (_vertices_2d kf) (KeyFrame.candidate kf i newpos) = kf.
Proof.
  intros Hi. cbn. split; [|split].
  - apply list_lookup_insert_eq. lia.
  - intros j Hj. apply list_lookup_insert_ne. congruence.
  - destruct kf; reflexivity.
Qed.

(** C2. For a valid row index [i]: with [validate2d] set, whatever
    [validate_3d] is, [move_point_2d] either installs the candidate and
    returns true, or returns false and leaves the key frame as it was, and
    it does the latter whenever the candidate polygon fails the 2D check;
    with both flags clear it installs the candidate and returns true. *)
Theorem move_point_2d_transactional `{!Geometry} (h : Heap) (kf : KeyFrame)
    (i : Z) (newpos : RowVector2d) :
  (0 <= i < Z.of_nat (length (KeyFrame.vertices_2d kf)))%Z ->
  (forall validate_3d, exists ok kf',
     KeyFrame.move_point_2d h kf i newpos true validate_3d = Ok (ok, kf') /\
     ((ok = true /\ kf' = KeyFrame.candidate kf i newpos) \/
      (ok = false /\ kf' = kf)) /\
     (validate_points_2d (KeyFrame.candidate kf i newpos) = false ->
        ok = false /\ kf' = kf)) /\
  KeyFrame.move_point_2d h kf i newpos false false =
    Ok (true, KeyFrame.candidate kf i newpos).
Proof.
  intros Hi. unfold KeyFrame.move_point_2d, KeyFrame.vertices_2d in *.
  rewrite bool_decide_true by exact Hi. split; [|reflexivity].
  intros validate_3d. cbn [andb].
  destruct (validate_points_2d (KeyFrame.candidate kf i newpos)) eqn:H2d; cbn [negb].
  - destruct (validate_3d && negb (validate_cage h (KeyFrame.candidate kf i newpos)));
      eexists _, _; (split; [reflexivity|]); split; auto; discriminate.
  - eexists _, _. split; [reflexivity|]. auto.
Qed.

(** Dragging the corner (1, 1) of the unit square to (-1, 0.5) makes the
    edge from (1, 0) cross the edge on the y axis: the move is refused and
    the key frame is as before. *)
Lemma move_point_2d_transactional_witness :
  let kf := KeyFrame.ctor origin (mkMatrix3d e_x e_y e_z) unit_square 0 in
  @KeyFrame.move_point_2d example_geometry (heap state_one_cell) kf 2
     (mkRowVector2d (-1) 0.5) true false = Ok (false, kf) /\
  @KeyFrame.move_point_2d example_geometry (heap state_one_cell) kf 2
     (mkRowVector2d (-1) 0.5) false false =
    Ok (true, KeyFrame.candidate kf 2 (mkRowVector2d (-1) 0.5)).
Proof.
  intros kf.
  destruct (@move_point_2d_transactional example_geometry (heap state_one_cell)
              kf 2 (mkRowVector2d (-1) 0.5)) as [Hon Hoff].
  { cbn. lia. }
  split; [|exact Hoff].
  destruct (Hon false) as (ok & kf' & Hcall & _ & Hfail).
  destruct (Hfail eq_refl) as [-> ->]. exact Hcall.
Defined.

(** ** Cells: [split] *)

(** Step 1 of the split: a key frame whose index is not strictly between
    the indices of the two key frames of the cell is rejected and nothing
    changes. *)
Lemma split_not_inside_rejected `{!Geometry} (fuel : nat) (h : Heap)
    (mesh : MeshBuffer) (this : cell_ptr) (c : Cell)
    (key_frame : option keyframe_ptr) (kf lk rk : KeyFrame) :
  cell_arena h !! this = Some c ->
  deref_keyframe h key_frame = Ok kf ->
  deref_keyframe h (left_keyframe c) = Ok lk ->
  deref_keyframe h (right_keyframe c) = Ok rk ->
  (KeyFrame.index lk <? KeyFrame.index kf)%dbl
    && (KeyFrame.index kf <? KeyFrame.index rk)%dbl = false ->
  Cell.split (S fuel) h mesh this key_frame = Ok (None, h, mesh).
Proof.
  intros Hc Hkf Hlk Hrk Hout. cbn [Cell.split].
  unfold deref_cell, Cell.min_index, Cell.max_index.
  rewrite Hc. cbn. rewrite Hkf. cbn. rewrite Hlk. cbn. rewrite Hrk. cbn.
  rewrite Hout. reflexivity.
Qed.

(** C6. Splitting a cell with a key frame whose index equals the index
    of its left or of its right key frame fails: the result is null and
    the heap and the mesh are the ones before the call, so the cell is
    unchanged and no key frame has been installed or added. *)
Theorem split_at_boundary_rejected `{!Geometry} (fuel : nat) (h : Heap)
    (mesh : MeshBuffer) (this : cell_ptr) (c : Cell)
    (key_frame : option keyframe_ptr) (kf lk rk : KeyFrame) :
  cell_arena h !! this = Some c ->
  deref_keyframe h key_frame = Ok kf ->
  deref_keyframe h (left_keyframe c) = Ok lk ->
  deref_keyframe h (right_keyframe c) = Ok rk ->
  (KeyFrame.index kf =? KeyFrame.index lk)%dbl = true \/
  (KeyFrame.index kf =? KeyFrame.index rk)%dbl = true ->
  Cell.split (S fuel) h mesh this key_frame = Ok (None, h, mesh).
Proof.
  intros Hc Hkf Hlk Hrk Heq.
  apply (split_not_inside_rejected fuel h mesh this c key_frame kf lk rk);
    try assumption.
  destruct Heq as [Heq|Heq]; apply eqb_not_ltb in Heq as [H1 H2].
  - rewrite H2. reflexivity.
  - rewrite H1. apply andb_false_r.
Qed.

(** In the two-cell cage, the left leaf (cell 1) spans 0 to 2; the key
    frame at 2 (key frame 2) is its right boundary. *)
Lemma split_at_boundary_rejected_witness :
  @Cell.split example_geometry 1 (heap state_two_cells)
     (BoundingCage.mesh_buffer (cage state_two_cells)) 1 (Some 2) =
    Ok (None, heap state_two_cells, BoundingCage.mesh_buffer (cage state_two_cells)).
Proof.
  eapply (@split_at_boundary_rejected example_geometry 0 (heap state_two_cells));
    [reflexivity | reflexivity | reflexivity | reflexivity | right; reflexivity].
Defined.

(** ** The cage: [split] outside the index range *)

(** C1. For a cage with a root and an index below [min_index()] or above
    [max_index()], [split(index)] returns the end iterator and the state
    after the call is the state before it; in particular the number of
    leaf cells and the reported mesh vertices and faces are unchanged. *)
Theorem split_out_of_range `{!Geometry} (s : State) (index lo hi : double) :
  is_Some (root (cage s)) ->
  BoundingCage.min_index (heap s) (cage s) = Ok lo ->
  BoundingCage.max_index (heap s) (cage s) = Ok hi ->
  (index <? lo)%dbl = true \/ (hi <? index)%dbl = true ->
  exists s',
    BoundingCage.split s index = Ok (BoundingCage.keyframes_end, s') /\
    s' = s /\
    BoundingCage.leaf_count s' = BoundingCage.leaf_count s /\
    num_mesh_vertices (cage s') = num_mesh_vertices (cage s) /\
    num_mesh_faces (cage s') = num_mesh_faces (cage s) /\
    BoundingCage.vertices (cage s') = BoundingCage.vertices (cage s) /\
    BoundingCage.faces (cage s') = BoundingCage.faces (cage s).
Proof.
  intros _ Hlo Hhi Hout. exists s.
  split; [|repeat split; reflexivity].
  unfold BoundingCage.split, BoundingCage.keyframe_for_index.
  rewrite Hlo, Hhi. cbn.
  assert ((index <? lo)%dbl || (hi <? index)%dbl = true) as ->.
  { destruct Hout as [-> | ->]; [reflexivity | apply orb_true_r]. }
  reflexivity.
Qed.

(** The one-cell cage spans 0 to 4: [split(5.0)] fails and changes
    nothing. *)
Lemma split_out_of_range_witness :
  @BoundingCage.split example_geometry state_one_cell 5%float =
    Ok (BoundingCage.keyframes_end, state_one_cell).
Proof.
  destruct (@split_out_of_range example_geometry state_one_cell 5%float 0%float 4%float)
    as (s' & Hsplit & -> & _).
  - eexists. reflexivity.
  - reflexivity.
  - reflexivity.
  - right. reflexivity.
  - exact Hsplit.
Defined.

(** The same holds without the range check of [split(double)]: handed
    a key frame whose index is below the left or above the right index
    of the root, the root rejects it, and [split(KeyFrameIterator&)]
    returns the end iterator and changes nothing. *)
Lemma with_mesh_id (c : BoundingCage) :
  BoundingCage.with_mesh (BoundingCage.mesh_buffer c) (cells c) c = c.
Proof. destruct c. reflexivity. Qed.

Lemma split_iterator_out_of_range `{!Geometry} (s : State) (it : KeyFrameIterator)
    (kf : KeyFrame) (r : cell_ptr) (rc : Cell) (lk rk : KeyFrame) :
  root (cage s) = Some r ->
  cell_arena (heap s) !! r = Some rc ->
  deref_keyframe (heap s) (keyframe it) = Ok kf ->
  deref_keyframe (heap s) (left_keyframe rc) = Ok lk ->
  deref_keyframe (heap s) (right_keyframe rc) = Ok rk ->
  (KeyFrame.index kf <? KeyFrame.index lk)%dbl = true \/
  (KeyFrame.index rk <? KeyFrame.index kf)%dbl = true ->
  BoundingCage.split_iterator s it = Ok (BoundingCage.keyframes_end, s).
Proof.
  intros Hroot Hrc Hkf Hlk Hrk Hout.
  unfold BoundingCage.split_iterator, BoundingCage.split_internal.
  destruct (keyframe it) as [k|] eqn:Hit; [|discriminate]. rewrite Hroot.
  rewrite (split_not_inside_rejected _ _ _ _ rc (Some k) kf lk rk); try assumption.
  - cbn. rewrite with_mesh_id. destruct s. reflexivity.
  - destruct Hout as [Hlt|Hlt]; apply ltb_asym in Hlt; rewrite Hlt;
      [reflexivity|apply andb_false_r].
Qed.

(* ================================================================= *)
(** * The leaf list of a reachable cage *)

(** ** Lookups in an updated heap *)

Lemma bind_Ok {A B} (r : result A) (k : A -> result B) (b : B) :
  r ≫= k = Ok b -> exists a, r = Ok a /\ k a = Ok b.
Proof. destruct r as [a|]; [eauto | discriminate]. Qed.

Lemma deref_cell_Ok h p c :
  deref_cell h p = Ok c <-> exists i, p = Some i /\ cell_arena h !! i = Some c.
Proof.
  unfold deref_cell. split.
  - destruct p as [i|]; [|discriminate].
    destruct (cell_arena h !! i) eqn:E; [|discriminate]. intros [= ->]. eauto.
  - intros (i & -> & ->). reflexivity.
Qed.

Lemma deref_keyframe_Ok h p kf :
  deref_keyframe h p = Ok kf <-> exists i, p = Some i /\ keyframe_arena h !! i = Some kf.
Proof.
  unfold deref_keyframe. split.
  - destruct p as [i|]; [|discriminate].
    destruct (keyframe_arena h !! i) eqn:E; [|discriminate]. intros [= ->]. eauto.
  - intros (i & -> & ->). reflexivity.
Qed.

Lemma index_at_indices h k :
  index_at h k = match k with Some i => indices h !! i | None => None end.
Proof.
  destruct k as [i|]; [|reflexivity]. unfold index_at, indices.
  symmetry. apply list_lookup_fmap.
Qed.

Lemma index_at_ext h h' k : indices h' = indices h -> index_at h' k = index_at h k.
Proof. intros E. rewrite !index_at_indices, E. reflexivity. Qed.

Lemma lookup_alter_opt {A} (f : A -> A) o (l : list A) q :
  alter_opt f o l !! q = if decide (o = Some q) then f <$> l !! q else l !! q.
Proof.
  destruct o as [i|]; cbn.
  - rewrite list_lookup_alter. destruct (decide (i = q)), (decide (Some i = Some q));
      congruence.
  - destruct (decide (None = Some q)); [discriminate | reflexivity].
Qed.

Lemma cell_arena_update_cell_opt o f h :
  cell_arena (update_cell_opt o f h) = alter_opt f o (cell_arena h).
Proof. destruct o; reflexivity. Qed.

Lemma cell_arena_update_keyframe_opt o f h :
  cell_arena (update_keyframe_opt o f h) = cell_arena h.
Proof. destruct o; reflexivity. Qed.

Lemma indices_update_cell_opt o f h : indices (update_cell_opt o f h) = indices h.
Proof. destruct o; reflexivity. Qed.

Lemma indices_update_cell p f h : indices (update_cell p f h) = indices h.
Proof. reflexivity. Qed.

Lemma indices_update_keyframe_opt o f h :
  (forall kf, _index (f kf) = _index kf) ->
  indices (update_keyframe_opt o f h) = indices h.
Proof.
  intros Hf. destruct o as [i|]; [|reflexivity]. unfold indices. cbn.
  change (map _index) with (fmap (M:=list) _index). rewrite (list_fmap_alter _index f id).
  - apply list_alter_id. reflexivity.
  - apply Forall_forall. intros kf _. apply Hf.
Qed.

Lemma make_cell_Ok h lk rk prv nxt p h1 :
  Cell.make_cell h lk rk prv nxt = Ok (p, h1) ->
  p = length (cell_arena h) /\
  cell_arena h1 = cell_arena h ++ [Cell.ctor lk rk prv nxt] /\
  indices h1 = indices h.
Proof.
  unfold Cell.make_cell. intros Hs.
  apply bind_Ok in Hs as (? & _ & Hs). apply bind_Ok in Hs as (? & _ & Hs).
  cbn in Hs. injection Hs as <- <-.
  rewrite !cell_arena_update_keyframe_opt.
  rewrite !indices_update_keyframe_opt by reflexivity. auto.
Qed.

Lemma split_leaf_Ok `{!Geometry} h mesh p c key_frame h' mesh' :
  Cell.split_leaf h mesh p c key_frame = Ok (h', mesh') ->
  forall a, a = length (cell_arena h) ->
  exists ma mb,
    cell_arena h' =
      alter (set_cell_mesh mb) (S a)
        (alter (set_cell_mesh ma) a
          (alter (fun c => set_prev_cell None (set_next_cell None
                             (set_children (Some a) (Some (S a)) c))) p
            (alter_opt (set_prev_cell (Some (S a))) (next_cell c)
              (alter_opt (set_next_cell (Some a)) (prev_cell c)
                (alter (set_next_cell (Some (S a))) a
                  ((cell_arena h
                     ++ [Cell.ctor (left_keyframe c) key_frame (prev_cell c) None])
                     ++ [Cell.ctor key_frame (right_keyframe c) (Some a) (next_cell c)]))))))
    /\ indices h' = indices h.
Proof.
  unfold Cell.split_leaf. intros Hs a Hlena.
  apply bind_Ok in Hs as ([a' h1] & Ha & Hs).
  apply make_cell_Ok in Ha as (-> & Ha & Hia).
  apply bind_Ok in Hs as ([b' h2] & Hb & Hs).
  apply make_cell_Ok in Hb as (-> & Hb & Hib).
  apply bind_Ok in Hs as (kf & _ & Hs).
  destruct (if KeyFrame.in_bounding_cage kf then _ else _) as [mesh1 idx].
  apply bind_Ok in Hs as (kf0 & _ & Hs).
  apply bind_Ok in Hs as (lk & _ & Hs).
  apply bind_Ok in Hs as (rk & _ & Hs).
  destruct (cell_init_mesh lk kf0 (Some c) mesh1) as [mesh2 ma].
  destruct (cell_init_mesh kf0 rk None mesh2) as [mesh3 mb].
  injection Hs as <- <-. exists ma, mb.
  assert (length (cell_arena h1) = S a) as Hlen.
  { rewrite Ha, length_app. cbn. lia. }
  split.
  - cbn [cell_arena update_cell]. rewrite cell_arena_update_keyframe_opt.
    cbn [cell_arena update_cell]. rewrite !cell_arena_update_cell_opt.
    cbn [cell_arena update_cell]. rewrite Hb, !Hlen, Ha, <- !Hlena. reflexivity.
  - rewrite !indices_update_cell, indices_update_keyframe_opt by reflexivity.
    rewrite indices_update_cell, !indices_update_cell_opt, indices_update_cell.
    congruence.
Qed.

Lemma lookup_snoc2 {A} (l : list A) x y q :
  ((l ++ [x]) ++ [y]) !! q =
    if decide (q = length l) then Some x
    else if decide (q = S (length l)) then Some y
    else l !! q.
Proof.
  destruct (decide (q = length l)) as [->|Hq].
  - rewrite lookup_app_l by (rewrite length_app; cbn; lia).
    apply list_lookup_middle. reflexivity.
  - destruct (decide (q = S (length l))) as [->|Hq'].
    + rewrite lookup_app_r by (rewrite length_app; cbn; lia).
      rewrite length_app. cbn. replace (S (length l) - (length l + 1)) with 0 by lia.
      reflexivity.
    + destruct (decide (q < length l)).
      * rewrite <- app_assoc. apply lookup_app_l. assumption.
      * rewrite (lookup_ge_None_2 l) by lia. apply lookup_ge_None_2.
        rewrite !length_app. cbn. lia.
Qed.

Lemma split_leaf_effect `{!Geometry} h mesh p c key_frame h' mesh' :
  Cell.split_leaf h mesh p c key_frame = Ok (h', mesh') ->
  cell_arena h !! p = Some c ->
  (forall q, prev_cell c = Some q -> q < length (cell_arena h)) ->
  (forall q, next_cell c = Some q -> q < length (cell_arena h)) ->
  split_effect h h' p c key_frame (length (cell_arena h)) (S (length (cell_arena h))).
Proof.
  intros Hs Hp Hprev Hnext.
  destruct (split_leaf_Ok _ _ _ _ _ _ _ Hs _ eq_refl) as (ma & mb & Hcells & Hidx).
  set (a := length (cell_arena h)) in *.
  assert (p < a) as Hpa by (eapply lookup_lt_Some; eassumption).
  assert (prev_cell c <> Some a /\ prev_cell c <> Some (S a)) as [Hpa1 Hpa2].
  { split; intros E; apply Hprev in E; lia. }
  assert (next_cell c <> Some a /\ next_cell c <> Some (S a)) as [Hna1 Hna2].
  { split; intros E; apply Hnext in E; lia. }
  split; [| | | |exact Hidx]; rewrite Hcells;
    repeat (rewrite list_lookup_alter || rewrite lookup_alter_opt || rewrite lookup_snoc2); fold a.
  - repeat case_decide; try lia; try congruence.
    eexists. split; [reflexivity|]. cbn. auto.
  - repeat case_decide; try lia; try congruence.
    eexists. split; [reflexivity|]. cbn. auto.
  - repeat case_decide; try lia; try congruence; rewrite Hp; cbn;
      eexists; (split; [reflexivity|]); cbn; auto.
  - intros q c0 Hq Hc0.
    assert (q < a) by (eapply lookup_lt_Some; eassumption).
    repeat (rewrite list_lookup_alter || rewrite lookup_alter_opt || rewrite lookup_snoc2); fold a.
    repeat case_decide; try lia; try congruence; rewrite Hc0; cbn;
      eexists; (split; [reflexivity|]); cbn; auto 10.
Qed.

(** ** Trees under a split *)

Lemma ordered_ext h h' c c' :
  indices h' = indices h ->
  left_keyframe c' = left_keyframe c ->
  right_keyframe c' = right_keyframe c ->
  ordered h c -> ordered h' c'.
Proof.
  intros Hi Hl Hr (lo & hi & Hlo & Hhi & Hlt). exists lo, hi.
  rewrite Hl, Hr, !(index_at_ext h h') by assumption. auto.
Qed.

Lemma min_index_index_at h c lo :
  Cell.min_index h c = Ok lo <-> index_at h (left_keyframe c) = Some lo.
Proof.
  unfold Cell.min_index, index_at, deref_keyframe, KeyFrame.index.
  destruct (left_keyframe c) as [i|]; cbn; [|split; discriminate].
  destruct (keyframe_arena h !! i); cbn; split; congruence.
Qed.

Lemma max_index_index_at h c hi :
  Cell.max_index h c = Ok hi <-> index_at h (right_keyframe c) = Some hi.
Proof.
  unfold Cell.max_index, index_at, deref_keyframe, KeyFrame.index.
  destruct (right_keyframe c) as [i|]; cbn; [|split; discriminate].
  destruct (keyframe_arena h !! i); cbn; split; congruence.
Qed.

Lemma deref_keyframe_index_at h k kf :
  deref_keyframe h k = Ok kf -> index_at h k = Some (KeyFrame.index kf).
Proof.
  intros (i & -> & Hi)%deref_keyframe_Ok. cbn. rewrite Hi. reflexivity.
Qed.

(** A leaf that is not [p] stays a leaf; an inner cell keeps its
    children. *)
Lemma tree_replace_leaf h h' p c key_frame a b q lk rk ls :
  split_effect h h' p c key_frame a b ->
  cell_arena h !! p = Some c ->
  Cell.is_leaf c = true ->
  (exists lo x hi, index_at h (left_keyframe c) = Some lo /\
                   index_at h key_frame = Some x /\
                   index_at h (right_keyframe c) = Some hi /\
                   (lo <? x)%dbl = true /\ (x <? hi)%dbl = true) ->
  tree h q lk rk ls ->
  tree h' q lk rk (replace_leaf p a b ls).
Proof.
  intros He Hp Hleaf (lo & x & hi & Hlo & Hx & Hhi & Hlox & Hxhi) Ht.
  pose proof (se_indices _ _ _ _ _ _ _ He) as Hidx.
  induction Ht as [q c0 Hq Hleaf0 Hord|q c0 qa qb m la lb Hq Hqa Hqb Hord Hta IHa Htb IHb].
  - cbn. destruct (decide (q = p)) as [->|Hne].
    + assert (c0 = c) as -> by congruence.
      destruct (se_p _ _ _ _ _ _ _ He) as (cp & Hcp & Hcpa & Hcpb & Hcpl & Hcpr).
      destruct (se_a _ _ _ _ _ _ _ He) as (ca & Hca & Hcal & _ & _ & Hcalk & Hcark).
      destruct (se_b _ _ _ _ _ _ _ He) as (cb & Hcb & Hcbl & _ & _ & Hcblk & Hcbrk).
      rewrite <- Hcpl, <- Hcpr. change [a; b] with ([a] ++ [b]).
      apply (tree_node h' p cp a b key_frame [a] [b]); try assumption.
      * eapply ordered_ext; eassumption.
      * rewrite Hcpl, <- Hcalk, <- Hcark. apply tree_leaf; try assumption.
        exists lo, x. rewrite Hcalk, Hcark, !(index_at_ext h h') by assumption. auto.
      * rewrite Hcpr, <- Hcblk, <- Hcbrk. apply tree_leaf; try assumption.
        exists x, hi. rewrite Hcblk, Hcbrk, !(index_at_ext h h') by assumption. auto.
    + destruct (se_other _ _ _ _ _ _ _ He q c0 Hne Hq)
        as (c' & Hc' & Hl & Hr & Hlk & Hrk & _).
      rewrite <- Hlk, <- Hrk. apply tree_leaf; try assumption.
      * unfold Cell.is_leaf in *. rewrite Hl, Hr. assumption.
      * eapply ordered_ext; eassumption.
  - assert (q <> p) as Hne.
    { intros ->. assert (c0 = c) as -> by congruence.
      unfold Cell.is_leaf in Hleaf. rewrite Hqa in Hleaf. discriminate. }
    destruct (se_other _ _ _ _ _ _ _ He q c0 Hne Hq)
      as (c' & Hc' & Hl & Hr & Hlk & Hrk & _).
    unfold replace_leaf. rewrite flat_map_app. fold (replace_leaf p a b la).
    fold (replace_leaf p a b lb).
    rewrite <- Hlk, <- Hrk.
    apply (tree_node h' q c' qa qb m); try congruence.
    eapply ordered_ext; eassumption.
Qed.

(** ** What a split does *)

(** Below a tree, a split either changes nothing and returns null, or
    splits one leaf of the tree. *)
Lemma split_in_tree `{!Geometry} fuel h mesh q key_frame ret h' mesh' lk rk ls :
  tree h q lk rk ls ->
  Cell.split fuel h mesh q key_frame = Ok (ret, h', mesh') ->
  (ret = None /\ h' = h /\ mesh' = mesh) \/
  (ret = key_frame /\
   exists p c, p ∈ ls /\ cell_arena h !! p = Some c /\ Cell.is_leaf c = true /\
     (exists lo x hi, index_at h (left_keyframe c) = Some lo /\
                      index_at h key_frame = Some x /\
                      index_at h (right_keyframe c) = Some hi /\
                      (lo <? x)%dbl = true /\ (x <? hi)%dbl = true) /\
     Cell.split_leaf h mesh p c key_frame = Ok (h', mesh')).
Proof.
  revert q lk rk ls. induction fuel as [|fuel IH]; intros q lk rk ls Ht Hs;
    [discriminate|].
  cbn [Cell.split] in Hs.
  apply bind_Ok in Hs as (c & Hc & Hs).
  apply deref_cell_Ok in Hc as (i & [= <-] & Hc).
  apply bind_Ok in Hs as (kf & Hkf & Hs).
  apply bind_Ok in Hs as (lo & Hlo & Hs).
  apply bind_Ok in Hs as (hi & Hhi & Hs).
  destruct ((lo <? KeyFrame.index kf)%dbl && (KeyFrame.index kf <? hi)%dbl) eqn:Hin;
    cbn [negb] in Hs.
  2:{ injection Hs as <- <- <-. left. auto. }
  apply andb_prop in Hin as [Hlox Hxhi].
  destruct (Cell.is_leaf c) eqn:Hleaf.
  - apply bind_Ok in Hs as ([h1 mesh1] & Hsl & Hs). injection Hs as <- <- <-.
    right. split; [reflexivity|]. exists q, c.
    inversion Ht; subst.
    + split; [apply list_elem_of_singleton; reflexivity|].
      repeat (split; [assumption|]). split; [|assumption].
      exists lo, (KeyFrame.index kf), hi.
      apply min_index_index_at in Hlo. apply max_index_index_at in Hhi.
      apply deref_keyframe_index_at in Hkf. auto 10.
    + exfalso. unfold Cell.is_leaf in Hleaf.
      match goal with
      | Hq : cell_arena h !! q = Some ?c0, Hl : left_child ?c0 = Some _ |- _ =>
          assert (c0 = c) as -> by congruence; rewrite Hl in Hleaf
      end. discriminate.
  - inversion Ht as [? c0 Hq Hleaf0 Hord|? c0 qa qb m la lb Hq Hqa Hqb Hord Hta Htb];
      subst; assert (c0 = c) as -> by congruence; [congruence|].
    rewrite Hqa, Hqb in Hs.
    apply bind_Ok in Hs as (ina & _ & Hs). destruct ina.
    + apply (IH _ _ _ _ Hta) in Hs as [?|(-> & p & cp & Hp & ?)]; [left; assumption|].
      right. split; [reflexivity|]. exists p, cp. split; [|assumption].
      apply elem_of_app. auto.
    + apply bind_Ok in Hs as (inb & _ & Hs). destruct inb.
      * apply (IH _ _ _ _ Htb) in Hs as [?|(-> & p & cp & Hp & ?)]; [left; assumption|].
        right. split; [reflexivity|]. exists p, cp. split; [|assumption].
        apply elem_of_app. auto.
      * injection Hs as <- <- <-. left. auto.
Qed.

(** ** The leaf list under a split *)

Lemma prev_of_snoc l q prv : prev_of (l ++ [q]) prv = Some q.
Proof. unfold prev_of. rewrite last_snoc. reflexivity. Qed.

Lemma next_of_app l1 l2 nxt : next_of (l1 ++ l2) nxt = next_of l1 (next_of l2 nxt).
Proof. destruct l1; reflexivity. Qed.

Lemma prev_of_cons q l prv : prev_of (q :: l) prv = prev_of l (Some q).
Proof.
  unfold prev_of. rewrite last_cons. destruct (last l); reflexivity.
Qed.

Lemma dll_app h prv l1 l2 nxt :
  dll h prv (l1 ++ l2) nxt <->
  dll h prv l1 (next_of l2 nxt) /\ dll h (prev_of l1 prv) l2 nxt.
Proof.
  revert prv. induction l1 as [|q l1 IH]; intros prv; cbn [app dll].
  - unfold prev_of. cbn. tauto.
  - rewrite IH, next_of_app, prev_of_cons. tauto.
Qed.

Lemma prev_of_elem l prv q : prev_of l prv = Some q -> q ∈ l \/ prv = Some q.
Proof.
  unfold prev_of. destruct (last l) as [x|] eqn:E; [|auto].
  intros [= <-]. left. apply last_Some in E as [l' ->].
  apply elem_of_app. right. apply list_elem_of_singleton. reflexivity.
Qed.

Lemma next_of_elem l nxt q : next_of l nxt = Some q -> q ∈ l \/ nxt = Some q.
Proof.
  destruct l as [|x l]; cbn; [auto|]. intros [= <-]. left. apply list_elem_of_here.
Qed.

(** Cells away from the split keep their links. *)
Lemma dll_away h h' p c key_frame a b l prv nxt :
  split_effect h h' p c key_frame a b ->
  (forall q, q ∈ l -> q <> p /\ next_cell c <> Some q /\ prev_cell c <> Some q) ->
  dll h prv l nxt -> dll h' prv l nxt.
Proof.
  intros He. revert prv. induction l as [|q l IH]; intros prv Hl; cbn [dll]; [auto|].
  intros [(c0 & Hq & Hprv & Hnxt) Hrest].
  destruct (Hl q) as (Hne & Hn & Hp); [apply list_elem_of_here|].
  split.
  - destruct (se_other _ _ _ _ _ _ _ He q c0 Hne Hq)
      as (c' & Hc' & _ & _ & _ & _ & Hprv' & Hnxt').
    exists c'. rewrite Hprv', Hnxt'.
    rewrite !decide_False by assumption. auto.
  - apply IH; [|assumption]. intros q' Hq'. apply Hl. apply list_elem_of_further, Hq'.
Qed.

Lemma replace_leaf_notin p a b l : p ∉ l -> replace_leaf p a b l = l.
Proof.
  induction l as [|q l IH]; intros Hp; [reflexivity|].
  apply not_elem_of_cons in Hp as [Hne Hp]. unfold replace_leaf in *.
  cbn [flat_map]. rewrite decide_False by congruence.
  rewrite IH by assumption. reflexivity.
Qed.

Lemma replace_leaf_split p a b l1 l2 :
  p ∉ l1 -> p ∉ l2 -> replace_leaf p a b (l1 ++ p :: l2) = l1 ++ a :: b :: l2.
Proof.
  intros H1 H2. unfold replace_leaf. rewrite flat_map_app. cbn [flat_map].
  rewrite decide_True by reflexivity.
  fold (replace_leaf p a b l1). fold (replace_leaf p a b l2).
  rewrite !replace_leaf_notin by assumption. reflexivity.
Qed.

Lemma dll_replace_leaf h h' p c key_frame a b l1 l2 :
  split_effect h h' p c key_frame a b ->
  cell_arena h !! p = Some c ->
  NoDup (l1 ++ p :: l2) ->
  dll h None (l1 ++ p :: l2) None ->
  dll h' None (l1 ++ a :: b :: l2) None.
Proof.
  intros He Hp Hnd Hdll.
  apply NoDup_app in Hnd as (Hnd1 & Hdisj & Hnd2).
  apply NoDup_cons in Hnd2 as [Hp2 Hnd2].
  assert (p ∉ l1) as Hp1.
  { intros Hin. apply (Hdisj p Hin). apply list_elem_of_here. }
  apply dll_app in Hdll as [Hl1 Hpl2]. cbn [dll next_of] in Hl1, Hpl2.
  destruct Hpl2 as [(c0 & Hc0 & Hprv & Hnxt) Hl2].
  assert (c0 = c) as -> by congruence.
  destruct (se_a _ _ _ _ _ _ _ He) as (ca & Hca & _ & Hcap & Hcan & _).
  destruct (se_b _ _ _ _ _ _ _ He) as (cb & Hcb & _ & Hcbp & Hcbn & _).
  apply dll_app. cbn [dll next_of]. split; [|split; [|split]].
  - (* the cells on the left *)
    destruct l1 as [|x l1' _] using rev_ind; [exact I|].
    apply dll_app in Hl1 as [Hl1' Hx]. cbn [dll next_of] in Hl1', Hx.
    destruct Hx as [(cx & Hcx & Hxp & Hxn) _].
    apply NoDup_app in Hnd1 as (Hnd1' & Hdisj1 & _).
    rewrite prev_of_snoc in Hprv.
    assert (x <> p) as Hxne.
    { intros ->. apply Hp1, elem_of_app. right. apply list_elem_of_here. }
    assert (forall q, q ∈ l2 -> q ∉ l1' ++ [x]) as Hdisj'.
    { intros q Hq2 Hq1. apply (Hdisj q Hq1). apply list_elem_of_further, Hq2. }
    assert (forall q, q ∈ l1' ++ [x] -> next_cell c <> Some q) as Hnn.
    { intros q Hq1 E. rewrite Hnxt in E.
      apply next_of_elem in E as [Hq2|?]; [|discriminate].
      exact (Hdisj' q Hq2 Hq1). }
    apply dll_app. cbn [dll next_of]. split; [|split; [|exact I]].
    + eapply dll_away; [exact He| |exact Hl1'].
      intros q Hq. split; [|split].
      * intros ->. apply Hp1, elem_of_app. auto.
      * apply Hnn, elem_of_app. auto.
      * rewrite Hprv. intros [= <-]. apply (Hdisj1 x Hq), list_elem_of_here.
    + destruct (se_other _ _ _ _ _ _ _ He x cx Hxne Hcx)
        as (c' & Hc' & _ & _ & _ & _ & Hprv' & Hnxt').
      exists c'. rewrite Hprv', Hnxt'.
      rewrite decide_False by (apply Hnn, elem_of_app; right; apply list_elem_of_here).
      rewrite decide_True by assumption. auto.
  - exists ca. rewrite Hcap, Hcan. auto.
  - exists cb. rewrite Hcbp, Hcbn. auto.
  - (* the cells on the right *)
    destruct l2 as [|y l2']; [exact I|]. cbn [dll next_of] in Hl2 |- *.
    destruct Hl2 as [(cy & Hcy & Hyp & Hyn) Hl2'].
    apply NoDup_cons in Hnd2 as [Hy2 Hnd2'].
    assert (y <> p) as Hyne.
    { intros ->. apply Hp2, list_elem_of_here. }
    assert (forall q, q ∈ y :: l2' -> prev_cell c <> Some q) as Hpp.
    { intros q Hq2 E. rewrite Hprv in E.
      apply prev_of_elem in E as [Hq1|?]; [|discriminate].
      exact (Hdisj q Hq1 (list_elem_of_further _ _ _ Hq2)). }
    cbn [next_of] in Hnxt. split.
    + destruct (se_other _ _ _ _ _ _ _ He y cy Hyne Hcy)
        as (c' & Hc' & _ & _ & _ & _ & Hprv' & Hnxt').
      exists c'. rewrite Hprv', Hnxt'.
      rewrite decide_True by assumption.
      rewrite decide_False by (apply Hpp, list_elem_of_here). auto.
    + eapply dll_away; [exact He| |exact Hl2'].
      intros q Hq. split; [|split].
      * intros ->. apply Hp2, list_elem_of_further, Hq.
      * rewrite Hnxt. intros [= <-]. exact (Hy2 Hq).
      * apply Hpp, list_elem_of_further, Hq.
Qed.

(** ** Heaps that differ in what the shape does not read *)

Lemma ordered_mono h h' c :
  (forall k x, index_at h k = Some x -> index_at h' k = Some x) ->
  ordered h c -> ordered h' c.
Proof. intros Hi (lo & hi & Hlo & Hhi & Hlt). exists lo, hi. auto. Qed.

Lemma tree_mono h h' q lk rk ls :
  cell_arena h' = cell_arena h ->
  (forall k x, index_at h k = Some x -> index_at h' k = Some x) ->
  tree h q lk rk ls -> tree h' q lk rk ls.
Proof.
  intros Hc Hi Ht.
  induction Ht as [q c Hq Hleaf Hord|q c a b m la lb Hq Ha Hb Hord _ IHa _ IHb].
  - apply tree_leaf; [congruence|assumption|eapply ordered_mono; eassumption].
  - eapply tree_node; try eassumption; [congruence|eapply ordered_mono; eassumption].
Qed.

Lemma dll_mono h h' prv ls nxt :
  cell_arena h' = cell_arena h -> dll h prv ls nxt -> dll h' prv ls nxt.
Proof.
  intros Hc. revert prv. induction ls as [|q ls IH]; intros prv; cbn [dll]; [auto|].
  rewrite Hc. intros [? ?]. auto.
Qed.

Lemma well_formed_mono h' s c' :
  cell_arena h' = cell_arena (heap s) ->
  (forall k x, index_at (heap s) k = Some x -> index_at h' k = Some x) ->
  root c' = root (cage s) ->
  cells c' = cells (cage s) ->
  well_formed s -> well_formed (mkState h' c').
Proof.
  intros Hc Hi Hroot Hcells. unfold well_formed. cbn [heap cage].
  rewrite Hroot, Hcells. destruct (root (cage s)); [|auto].
  intros (lk & rk & ls & Ht & Hd & Hnd & Hhd & Htl).
  exists lk, rk, ls. repeat split; try assumption.
  - eapply tree_mono; eassumption.
  - eapply dll_mono; eassumption.
Qed.

Lemma index_at_new_keyframe h kf k x :
  index_at h k = Some x -> index_at (new_keyframe kf h).2 k = Some x.
Proof.
  rewrite !index_at_indices. destruct k as [i|]; [|discriminate].
  unfold indices. cbn. rewrite map_app. intros Hi.
  rewrite lookup_app_l; [assumption|]. eapply lookup_lt_Some. eassumption.
Qed.

Lemma indices_alter_const h i kf kf' :
  keyframe_arena h !! i = Some kf -> _index kf' = _index kf ->
  indices (update_keyframe i (fun _ => kf') h) = indices h.
Proof.
  intros Hi Hidx. unfold indices. cbn. apply list_eq. intros j.
  change (map _index) with (fmap (M:=list) _index).
  rewrite !list_lookup_fmap, list_lookup_alter.
  destruct (decide (i = j)) as [->|]; [|reflexivity].
  rewrite Hi. cbn. congruence.
Qed.

(** ** The leaves of a well-formed cage *)

Lemma dll_lookup h prv ls nxt q :
  dll h prv ls nxt -> q ∈ ls -> q < length (cell_arena h).
Proof.
  revert prv. induction ls as [|x ls IH]; intros prv Hd Hq.
  - apply elem_of_nil in Hq. contradiction.
  - destruct Hd as [(c & Hc & _) Hd]. apply elem_of_cons in Hq as [->|Hq].
    + eapply lookup_lt_Some. eassumption.
    + eapply IH; eassumption.
Qed.

Lemma tree_leaves h q lk rk ls x :
  tree h q lk rk ls -> x ∈ ls ->
  exists c, cell_arena h !! x = Some c /\ Cell.is_leaf c = true.
Proof.
  intros Ht. induction Ht as [q c Hq Hleaf Hord|q c a b m la lb _ _ _ _ _ IHa _ IHb];
    intros Hx.
  - apply list_elem_of_singleton in Hx as ->. eauto.
  - apply elem_of_app in Hx as [Hx|Hx]; auto.
Qed.

Lemma NoDup_bounded_length (l : list nat) n :
  NoDup l -> (forall x, x ∈ l -> x < n) -> length l <= n.
Proof.
  intros Hnd Hb. rewrite <- (length_seq n 0).
  apply submseteq_length, NoDup_submseteq; [assumption|].
  intros x Hx. apply elem_of_seq. specialize (Hb x Hx). lia.
Qed.

(** ** A split keeps the cage well formed *)

Lemma is_leaf_children c :
  Cell.is_leaf c = true -> left_child c = None /\ right_child c = None.
Proof.
  unfold Cell.is_leaf. destruct (left_child c), (right_child c); auto; discriminate.
Qed.

Lemma follow_split_ends h h' p c key_frame a b lk rk r l1 l2 :
  split_effect h h' p c key_frame a b ->
  tree h r lk rk (l1 ++ p :: l2) ->
  NoDup (l1 ++ p :: l2) ->
  BoundingCage.follow_split h'
    (mkCells (hd_error (l1 ++ p :: l2)) (last (l1 ++ p :: l2))) =
    Ok (mkCells (hd_error (l1 ++ a :: b :: l2)) (last (l1 ++ a :: b :: l2))).
Proof.
  intros He Ht Hnd. unfold BoundingCage.follow_split. cbn [head tail].
  destruct (se_p _ _ _ _ _ _ _ He) as (cp & Hcp & Hcpa & Hcpb & _).
  assert (forall x, x ∈ l1 ++ p :: l2 -> x <> p ->
            exists c', cell_arena h' !! x = Some c' /\
                       left_child c' = None /\ right_child c' = None) as Hleaf.
  { intros x Hx Hne. destruct (tree_leaves _ _ _ _ _ x Ht Hx) as (c0 & Hc0 & Hl0).
    apply is_leaf_children in Hl0 as [Hl Hr].
    destruct (se_other _ _ _ _ _ _ _ He x c0 Hne Hc0) as (c' & Hc' & Hl' & Hr' & _).
    exists c'. rewrite Hl', Hr'. auto. }
  apply NoDup_app in Hnd as (_ & Hdisj & Hnd2). apply NoDup_cons in Hnd2 as [Hp2 _].
  assert (deref_cell h' (hd_error (l1 ++ p :: l2)) ≫=
            (fun hd => Ok (if left_child hd is Some x then Some x
                           else hd_error (l1 ++ p :: l2))) =
          Ok (hd_error (l1 ++ a :: b :: l2))) as Hhd.
  { destruct l1 as [|x l1]; cbn.
    - rewrite Hcp. cbn. rewrite Hcpa. reflexivity.
    - destruct (Hleaf x) as (c' & Hc' & Hl & _); [apply list_elem_of_here| |].
      + intros ->. apply (Hdisj p); apply list_elem_of_here.
      + rewrite Hc'. cbn. rewrite Hl. reflexivity. }
  assert (deref_cell h' (last (l1 ++ p :: l2)) ≫=
            (fun tl => Ok (if right_child tl is Some x then Some x
                           else last (l1 ++ p :: l2))) =
          Ok (last (l1 ++ a :: b :: l2))) as Htl.
  { rewrite !last_app_cons. destruct l2 as [|y l2' _] using rev_ind.
    - cbn. rewrite Hcp. cbn. rewrite Hcpb. reflexivity.
    - rewrite !app_comm_cons, !last_snoc.
      destruct (Hleaf y) as (c' & Hc' & _ & Hr).
      + apply elem_of_app. right. apply list_elem_of_further, elem_of_app. right.
        apply list_elem_of_here.
      + intros ->. apply Hp2, elem_of_app. right. apply list_elem_of_here.
      + cbn. rewrite Hc'. cbn. rewrite Hr. reflexivity. }
  apply bind_Ok in Hhd as (hd & -> & [= Hhd]).
  apply bind_Ok in Htl as (tl & -> & [= Htl]).
  cbn. rewrite Hhd, Htl. reflexivity.
Qed.

Lemma split_internal_well_formed `{!Geometry} s kf ret s' :
  well_formed s ->
  BoundingCage.split_internal s kf = Ok (ret, s') ->
  well_formed s'.
Proof.
  intros Hwf Hs. unfold BoundingCage.split_internal in Hs. unfold well_formed in Hwf.
  destruct (root (cage s)) as [r|] eqn:Hroot.
  2:{ injection Hs as <- <-. unfold well_formed. rewrite Hroot. exact Hwf. }
  destruct Hwf as (lk & rk & ls & Ht & Hd & Hnd & Hhd & Htl).
  apply bind_Ok in Hs as ([[ret0 h'] mesh'] & Hsplit & Hs).
  destruct (split_in_tree _ _ _ _ _ _ _ _ _ _ _ Ht Hsplit)
    as [(-> & -> & ->)|(-> & p & c & Hp & Hc & Hleaf & Hin & Hsl)].
  - injection Hs as <- <-. unfold well_formed. cbn. rewrite Hroot.
    exists lk, rk, ls. auto.
  - destruct Hin as (lo & x & hi & Hlo & Hx & Hhi & Hlox & Hxhi).
    destruct kf as [k|]; [|discriminate].
    apply bind_Ok in Hs as (cs & Hcs & Hs). injection Hs as <- <-.
    apply list_elem_of_split in Hp as (l1 & l2 & ->).
    set (a := length (cell_arena (heap s))) in *.
    assert (split_effect (heap s) h' p c (Some k) a (S a)) as He.
    { pose proof Hd as Hd'. apply dll_app in Hd' as [_ Hpl2]. cbn [dll] in Hpl2.
      destruct Hpl2 as [(c0 & Hc0 & Hprv & Hnxt) _].
      assert (c0 = c) as -> by congruence.
      eapply split_leaf_effect; [eassumption|assumption| |].
      - intros q Hq. rewrite Hprv in Hq. apply prev_of_elem in Hq as [Hq|?]; [|discriminate].
        eapply dll_lookup; [exact Hd|]. apply elem_of_app. auto.
      - intros q Hq. rewrite Hnxt in Hq. apply next_of_elem in Hq as [Hq|?]; [|discriminate].
        eapply dll_lookup; [exact Hd|]. apply elem_of_app. right.
        apply list_elem_of_further, Hq. }
    assert (forall q, q ∈ l1 ++ p :: l2 -> q < a) as Hbound.
    { intros q Hq. eapply dll_lookup; eassumption. }
    pose proof Hnd as Hnd'.
    apply NoDup_app in Hnd' as (Hnd1 & Hdisj & Hnd2).
    apply NoDup_cons in Hnd2 as [Hp2 Hnd2].
    assert (p ∉ l1) as Hp1.
    { intros Hq. apply (Hdisj p Hq), list_elem_of_here. }
    destruct (cells (cage s)) as [hd0 tl0] eqn:Hcells.
    cbn [head tail] in Hhd, Htl. subst hd0 tl0.
    rewrite (follow_split_ends _ _ _ _ _ _ _ _ _ _ _ _ He Ht Hnd) in Hcs.
    injection Hcs as <-.
    unfold well_formed. cbn. rewrite Hroot.
    exists lk, rk, (l1 ++ a :: S a :: l2). split; [|split; [|split; [|auto]]].
    + rewrite <- (replace_leaf_split p) by assumption.
      eapply tree_replace_leaf; try eassumption. exists lo, x, hi. auto.
    + eapply dll_replace_leaf; eassumption.
    + apply NoDup_app. split; [assumption|]. split.
      * intros q Hq1 Hq. apply elem_of_cons in Hq as [->|Hq].
        { specialize (Hbound a). rewrite elem_of_app in Hbound.
          specialize (Hbound (or_introl Hq1)). lia. }
        apply elem_of_cons in Hq as [->|Hq].
        { specialize (Hbound (S a)). rewrite elem_of_app in Hbound.
          specialize (Hbound (or_introl Hq1)). lia. }
        apply (Hdisj q Hq1), list_elem_of_further, Hq.
      * assert (forall q, q ∈ l2 -> q < a) as Hb2.
        { intros q Hq. apply Hbound, elem_of_app. right. apply list_elem_of_further, Hq. }
        apply NoDup_cons. split.
        { intros Hq. apply elem_of_cons in Hq as [?|Hq]; [lia|].
          specialize (Hb2 a Hq). lia. }
        apply NoDup_cons. split; [|assumption].
        intros Hq. specialize (Hb2 (S a) Hq). lia.
Qed.

(** ** Every operation keeps the cage well formed *)

Lemma clear_well_formed h c : well_formed (mkState h (BoundingCage.clear c)).
Proof. unfold well_formed. cbn. auto. Qed.

Lemma set_skeleton_vertices_well_formed `{!Geometry} s new_SV iters template ok s' :
  well_formed s ->
  BoundingCage.set_skeleton_vertices s new_SV iters template = Ok (ok, s') ->
  (Z.of_nat (rows new_SV) < 2 ^ 63)%Z ->
  well_formed s'.
Proof.
  intros Hwf Hs Hmax. unfold BoundingCage.set_skeleton_vertices in Hs.
  case_bool_decide as Hrows; [injection Hs as <- <-; exact Hwf|].
  assert ((0 <? BoundingCage.last_index new_SV)%dbl = true) as Hpos
    by (apply last_index_pos; [lia|exact Hmax]).
  destruct (end_frame _ false) as [c0 f0]. destruct (end_frame _ true) as [c1 f1].
  destruct (keyframe_init_mesh true _ _) as [mesh0 i0].
  destruct (keyframe_init_mesh true _ mesh0) as [mesh1 i1].
  cbn [new_keyframe] in Hs.
  apply bind_Ok in Hs as ([r h1] & Hmk & Hs).
  apply make_cell_Ok in Hmk as (-> & Hcells & Hidx). cbn [cell_arena] in Hcells.
  destruct (cell_init_mesh _ _ None mesh1) as [mesh2 mr].
  injection Hs as <- <-.
  set (r := length (cell_arena (heap s))) in *.
  set (k0 := length (keyframe_arena (heap s))) in *.
  unfold well_formed. cbn [heap cage root cells head tail].
  exists (Some k0), (Some (S k0)), [r].
  assert (exists c, cell_arena (update_cell r (set_cell_mesh mr) h1) !! r = Some c /\
                    Cell.is_leaf c = true /\
                    left_keyframe c = Some k0 /\ right_keyframe c = Some (S k0) /\
                    prev_cell c = None /\ next_cell c = None) as (c & Hc & Hleaf & Hl & Hr & Hp & Hn).
  { cbn [cell_arena update_cell]. rewrite Hcells, list_lookup_alter_eq.
    rewrite list_lookup_middle by reflexivity. cbn. eexists. split; [reflexivity|].
    cbn. rewrite length_app. cbn. fold k0. replace (k0 + 1) with (S k0) by lia.
    auto 10. }
  split; [|split; [|split; [|auto]]].
  - rewrite <- Hl, <- Hr. apply tree_leaf; [assumption..|].
    exists 0%float, (BoundingCage.last_index new_SV).
    rewrite Hl, Hr, !index_at_indices, indices_update_cell, Hidx.
    unfold indices. cbn [keyframe_arena]. rewrite !map_app. cbn [map].
    fold (indices (heap s)).
    assert (length (indices (heap s)) = k0) as Hlen by apply length_map.
    split; [|split; [|exact Hpos]].
    + rewrite <- app_assoc. apply list_lookup_middle. auto.
    + rewrite lookup_app_r by (rewrite length_app; cbn; lia).
      rewrite length_app. cbn. rewrite Hlen.
      replace (S k0 - (k0 + 1)) with 0 by lia. reflexivity.
  - cbn [dll next_of]. split; [|exact I]. exists c. auto.
  - apply NoDup_singleton.
Qed.

Lemma keyframe_for_index_well_formed `{!Geometry} s index it s' :
  well_formed s ->
  BoundingCage.keyframe_for_index s index = Ok (it, s') ->
  well_formed s'.
Proof.
  intros Hwf Hs. unfold BoundingCage.keyframe_for_index in Hs.
  apply bind_Ok in Hs as (lo & _ & Hs). apply bind_Ok in Hs as (hi & _ & Hs).
  destruct ((index <? lo)%dbl || (hi <? index)%dbl);
    [injection Hs as <- <-; exact Hwf|].
  apply bind_Ok in Hs as (ls & _ & Hs). apply bind_Ok in Hs as ([c|] & _ & Hs);
    [|injection Hs as <- <-; exact Hwf].
  apply bind_Ok in Hs as (lk & _ & Hs). apply bind_Ok in Hs as (rk & _ & Hs).
  destruct (interpolate _ lk rk index) as [[ctr frame] pts].
  injection Hs as <- <-.
  apply (well_formed_mono _ s); auto.
  intros k x. apply index_at_new_keyframe.
Qed.

Lemma split_iterator_well_formed `{!Geometry} s it it' s' :
  well_formed s ->
  BoundingCage.split_iterator s it = Ok (it', s') ->
  well_formed s'.
Proof.
  intros Hwf Hs. unfold BoundingCage.split_iterator in Hs.
  destruct (keyframe it); [|injection Hs as <- <-; exact Hwf].
  apply bind_Ok in Hs as ([ret s1] & Hsplit & Hs). injection Hs as <- <-.
  eapply split_internal_well_formed; eassumption.
Qed.

Lemma split_well_formed `{!Geometry} s index it s' :
  well_formed s ->
  BoundingCage.split s index = Ok (it, s') ->
  well_formed s'.
Proof.
  intros Hwf Hs. unfold BoundingCage.split in Hs.
  apply bind_Ok in Hs as ([it1 s1] & Hk & Hs).
  eapply split_iterator_well_formed; [|exact Hs].
  eapply keyframe_for_index_well_formed; eassumption.
Qed.

Lemma move_point_2d_index `{!Geometry} h kf i newpos v2 v3 ok kf' :
  KeyFrame.move_point_2d h kf i newpos v2 v3 = Ok (ok, kf') -> _index kf' = _index kf.
Proof.
  unfold KeyFrame.move_point_2d. case_bool_decide; [|discriminate].
  repeat match goal with
         | |- context [if ?b then _ else _] => destruct b
         end; intros [= <- <-]; reflexivity.
Qed.

Lemma move_point_2d_well_formed `{!Geometry} s it i newpos v2 v3 ok s' :
  well_formed s ->
  BoundingCage.move_point_2d s it i newpos v2 v3 = Ok (ok, s') ->
  well_formed s'.
Proof.
  intros Hwf Hs. unfold BoundingCage.move_point_2d in Hs.
  apply bind_Ok in Hs as (kf & Hkf & Hs).
  apply bind_Ok in Hs as ([ok' kf'] & Hmv & Hs). injection Hs as <- <-.
  apply deref_keyframe_Ok in Hkf as (k & Hit & Hk). rewrite Hit. cbn.
  apply (well_formed_mono _ s); auto.
  intros j x Hj. apply move_point_2d_index in Hmv.
  rewrite <- Hj. apply index_at_ext.
  eapply indices_alter_const; eassumption.
Qed.

(** Every reachable cage is well formed. *)
Lemma reachable_well_formed `{!Geometry} s : reachable s -> well_formed s.
Proof.
  induction 1.
  - unfold well_formed. cbn. auto.
  - eapply set_skeleton_vertices_well_formed; eassumption.
  - apply clear_well_formed.
  - eapply split_well_formed; eassumption.
  - eapply split_iterator_well_formed; eassumption.
  - eapply keyframe_for_index_well_formed; eassumption.
  - eapply move_point_2d_well_formed; eassumption.
Qed.

(** ** Walking the leaf list *)

Lemma next_of_None ls : next_of ls None = hd_error ls.
Proof. destruct ls; reflexivity. Qed.

Lemma prev_of_None ls : prev_of ls None = last ls.
Proof. unfold prev_of. destruct (last ls); reflexivity. Qed.

Lemma walk_forward h prv ls fuel :
  dll h prv ls None -> length ls < fuel ->
  CellIterator.walk CellIterator.incr fuel h (mkCellIterator (hd_error ls)) = Ok ls.
Proof.
  revert prv fuel. induction ls as [|q ls IH]; intros prv fuel Hd Hf;
    (destruct fuel as [|fuel]; [cbn in Hf; lia|]); [reflexivity|].
  destruct Hd as [(c & Hc & _ & Hn) Hd]. cbn in Hf.
  cbn [CellIterator.walk hd_error cell]. unfold CellIterator.incr, deref_cell.
  cbn [cell]. rewrite Hc. cbn. rewrite Hn, next_of_None.
  rewrite (IH (Some q)) by (assumption || lia). reflexivity.
Qed.

Lemma walk_backward h ls nxt fuel :
  dll h None ls nxt -> length ls < fuel ->
  CellIterator.walk CellIterator.decr fuel h (mkCellIterator (last ls)) =
    Ok (reverse ls).
Proof.
  revert nxt fuel. induction ls as [|q ls IH] using rev_ind; intros nxt fuel Hd Hf;
    (destruct fuel as [|fuel]; [cbn in Hf; lia|]); [reflexivity|].
  apply dll_app in Hd as [Hd [(c & Hc & Hp & _) _]].
  rewrite length_app in Hf. cbn in Hf.
  rewrite last_snoc, reverse_snoc.
  cbn [CellIterator.walk cell]. unfold CellIterator.decr, deref_cell.
  cbn [cell]. rewrite Hc. cbn. rewrite Hp, prev_of_None.
  rewrite (IH (Some q)) by (assumption || lia). reflexivity.
Qed.

(** ** The indices along the leaf list *)

Lemma chain_app h lk l1 m l2 rk :
  chain h lk l1 m -> chain h m l2 rk -> chain h lk (l1 ++ l2) rk.
Proof.
  revert lk. induction l1 as [|q l1 IH]; intros lk; cbn [chain app].
  - intros ->. auto.
  - intros (c & Hc & Hl & Hord & Hrest) H2. exists c. auto.
Qed.

Lemma tree_chain h q lk rk ls : tree h q lk rk ls -> chain h lk ls rk.
Proof.
  induction 1 as [q c Hq Hleaf Hord|q c a b m la lb _ _ _ _ _ IHa _ IHb].
  - exists c. cbn. auto.
  - eapply chain_app; eassumption.
Qed.

Lemma chain_left_indices h lk ls rk :
  chain h lk ls rk ->
  exists los, left_indices h ls = Ok los /\ increasing los = true /\
              forall x, hd_error los = Some x -> index_at h lk = Some x.
Proof.
  revert lk. induction ls as [|q ls IH]; intros lk Hch.
  - exists []. cbn. split; [reflexivity|]. split; [reflexivity|]. discriminate.
  - destruct Hch as (c & Hc & Hl & (lo & hi & Hlo & Hhi & Hlt) & Hrest).
    destruct (IH _ Hrest) as (los & Hlos & Hinc & Hhd).
    exists (lo :: los). cbn [left_indices]. unfold deref_cell. rewrite Hc. cbn.
    apply min_index_index_at in Hlo as Hmin. rewrite Hmin. cbn. rewrite Hlos. cbn.
    split; [reflexivity|]. split.
    + destruct los as [|lo' los]; [reflexivity|].
      change (increasing (lo :: lo' :: los))
        with ((lo <? lo')%dbl && increasing (lo' :: los)).
      rewrite Hinc, andb_true_r.
      specialize (Hhd lo' eq_refl). rewrite Hhi in Hhd. injection Hhd as <-.
      exact Hlt.
    + intros x [= <-]. rewrite <- Hl. exact Hlo.
Qed.

Lemma chain_strict h lk ls rk :
  chain h lk ls rk -> Forall (fun p => strict_cell h p = Ok true) ls.
Proof.
  revert lk. induction ls as [|q ls IH]; intros lk Hch; [constructor|].
  destruct Hch as (c & Hc & _ & (lo & hi & Hlo & Hhi & Hlt) & Hrest).
  constructor; [|eapply IH; eassumption].
  unfold strict_cell, deref_cell. rewrite Hc. cbn.
  apply min_index_index_at in Hlo. apply max_index_index_at in Hhi.
  rewrite Hlo. cbn. rewrite Hhi. cbn. rewrite Hlt. reflexivity.
Qed.

(** In a well-formed cage the forward walk ends and yields the leaves
    with strictly increasing left indices, and the backward walk yields
    the same cells in the opposite order. *)
Lemma well_formed_leaves s :
  well_formed s ->
  exists ls los,
    BoundingCage.leaves s = Ok ls /\
    left_indices (heap s) ls = Ok los /\
    increasing los = true /\
    Forall (fun p => strict_cell (heap s) p = Ok true) ls /\
    BoundingCage.leaves_backward s = Ok (reverse ls).
Proof.
  unfold well_formed, BoundingCage.leaves, BoundingCage.leaves_backward,
    Cells.begin, Cells.rbegin.
  destruct (root (cage s)) as [r|].
  - intros (lk & rk & ls & Ht & Hd & Hnd & Hhd & Htl).
    assert (length ls < S (length (cell_arena (heap s)))) as Hlen.
    { apply Nat.lt_succ_r, NoDup_bounded_length; [assumption|].
      intros q Hq. eapply dll_lookup; eassumption. }
    apply tree_chain in Ht.
    destruct (chain_left_indices _ _ _ _ Ht) as (los & Hlos & Hinc & _).
    exists ls, los. rewrite Hhd, Htl.
    rewrite (walk_forward _ None) by assumption.
    rewrite (walk_backward _ _ None) by assumption.
    repeat split; try assumption. eapply chain_strict; eassumption.
  - intros [-> ->]. exists [], []. cbn. repeat split. constructor.
Qed.

(** C5. In every reachable state, the loop from [cells.begin()] to
    [cells.end()] ends and meets the leaf cells with strictly increasing
    left key frame indices, each cell having its left index strictly
    below its right index, and the loop from [cells.rbegin()] with [--]
    meets the same cells in the opposite order. *)
Theorem leaf_list_ordered `{!Geometry} (s : State) :
  reachable s ->
  exists ls los,
    BoundingCage.leaves s = Ok ls /\
    left_indices (heap s) ls = Ok los /\
    increasing los = true /\
    (forall i j x y, i < j -> los !! i = Some x -> los !! j = Some y ->
       (x <? y)%dbl = true) /\
    Forall (fun p => strict_cell (heap s) p = Ok true) ls /\
    BoundingCage.leaves_backward s = Ok (reverse ls).
Proof.
  intros Hr.
  destruct (well_formed_leaves s (reachable_well_formed s Hr))
    as (ls & los & Hls & Hlos & Hinc & Hstrict & Hback).
  exists ls, los. repeat (split; [assumption|]).
  split; [|split; assumption]. apply increasing_pairwise, Hinc.
Qed.

(** The cage on five skeleton points, split at 2, is reachable. *)
Lemma state_two_cells_reachable : @reachable example_geometry state_two_cells.
Proof.
  apply (@reach_split example_geometry state_one_cell 2%float
           (mkKeyFrameIterator (Some 2))); [|vm_compute; reflexivity].
  apply (@reach_set_skeleton_vertices example_geometry state_new skeleton5 0
           unit_square true); [apply reach_new|vm_compute; reflexivity..].
Defined.

Lemma leaf_list_ordered_witness :
  exists ls los,
    BoundingCage.leaves state_two_cells = Ok ls /\
    left_indices (heap state_two_cells) ls = Ok los /\
    increasing los = true /\
    (forall i j x y, i < j -> los !! i = Some x -> los !! j = Some y ->
       (x <? y)%dbl = true) /\
    Forall (fun p => strict_cell (heap state_two_cells) p = Ok true) ls /\
    BoundingCage.leaves_backward state_two_cells = Ok (reverse ls).
Proof.
  exact (@leaf_list_ordered example_geometry state_two_cells state_two_cells_reachable).
Defined.

(** ** The index range of a reachable cage *)

Lemma tree_root h q lk rk ls :
  tree h q lk rk ls ->
  exists c, cell_arena h !! q = Some c /\ left_keyframe c = lk /\
            right_keyframe c = rk /\ ordered h c.
Proof. destruct 1; eauto 10. Qed.

Lemma tree_nonempty h q lk rk ls : tree h q lk rk ls -> ls <> [].
Proof.
  induction 1 as [|q c a b m la lb _ _ _ _ _ IHa _ _]; [discriminate|].
  destruct la; [congruence|discriminate].
Qed.

Lemma chain_last h lk ls y rk :
  chain h lk (ls ++ [y]) rk ->
  exists c, cell_arena h !! y = Some c /\ right_keyframe c = rk /\ ordered h c.
Proof.
  revert lk. induction ls as [|q ls IH]; intros lk; cbn [chain app].
  - intros (c & Hc & _ & Hord & <-). eauto.
  - intros (c & _ & _ & _ & Hrest). eapply IH, Hrest.
Qed.

Lemma index_at_deref h k x :
  index_at h k = Some x -> exists kf, deref_keyframe h k = Ok kf /\ KeyFrame.index kf = x.
Proof.
  destruct k as [i|]; [|discriminate]. cbn. unfold deref_keyframe.
  destruct (keyframe_arena h !! i) as [kf|]; [|discriminate].
  intros [= <-]. eauto.
Qed.

(** In a well-formed cage with a root the two [assert]s hold: the head of
    the leaf list starts, and the tail ends, at the key frames of the
    root. *)
Lemma well_formed_min_max_index s r :
  well_formed s -> root (cage s) = Some r ->
  exists rc lk rk,
    cell_arena (heap s) !! r = Some rc /\
    deref_keyframe (heap s) (left_keyframe rc) = Ok lk /\
    deref_keyframe (heap s) (right_keyframe rc) = Ok rk /\
    (KeyFrame.index lk <? KeyFrame.index rk)%dbl = true /\
    BoundingCage.min_index (heap s) (cage s) = Ok (KeyFrame.index lk) /\
    BoundingCage.max_index (heap s) (cage s) = Ok (KeyFrame.index rk).
Proof.
  unfold well_formed. intros Hwf Hroot. rewrite Hroot in Hwf.
  destruct Hwf as (lk & rk & ls & Ht & _ & _ & Hhd & Htl).
  destruct (tree_root _ _ _ _ _ Ht) as (rc & Hrc & Hl & Hr & lo & hi & Hlo & Hhi & Hlt).
  pose proof (tree_nonempty _ _ _ _ _ Ht) as Hne.
  apply tree_chain in Ht.
  destruct (index_at_deref _ _ _ Hlo) as (kl & Hkl & <-).
  destruct (index_at_deref _ _ _ Hhi) as (kr & Hkr & <-).
  exists rc, kl, kr. repeat (split; [assumption|]).
  apply ltb_eqb_refl in Hlt as [Hll Hrr].
  assert (exists x cx, hd_error ls = Some x /\ cell_arena (heap s) !! x = Some cx /\
                       left_keyframe cx = left_keyframe rc) as (x & cx & Hx & Hcx & Hxl).
  { destruct ls as [|x ls]; [congruence|]. destruct Ht as (cx & Hcx & Hxl & _).
    exists x, cx. rewrite Hxl, Hl. auto. }
  assert (exists y cy, last ls = Some y /\ cell_arena (heap s) !! y = Some cy /\
                       right_keyframe cy = right_keyframe rc) as (y & cy & Hy & Hcy & Hyr).
  { destruct ls as [|y ls _] using rev_ind; [congruence|].
    destruct (chain_last _ _ _ _ _ Ht) as (cy & Hcy & Hyr & _).
    exists y, cy. rewrite last_snoc, Hyr, Hr. auto. }
  unfold BoundingCage.min_index, BoundingCage.max_index.
  rewrite Hroot, Hhd, Htl, Hx, Hy. unfold deref_cell. rewrite Hrc, Hcx, Hcy. cbn.
  unfold Cell.min_index, Cell.max_index. rewrite Hxl, Hyr, Hkl, Hkr. cbn.
  rewrite Hll, Hrr. auto.
Qed.

(** In every reachable state with a root, [min_index()] and
    [max_index()] return the indices of the two key frames of the root,
    the first below the second. *)
Lemma reachable_min_max_index `{!Geometry} s r :
  reachable s -> root (cage s) = Some r ->
  exists rc lk rk,
    cell_arena (heap s) !! r = Some rc /\
    deref_keyframe (heap s) (left_keyframe rc) = Ok lk /\
    deref_keyframe (heap s) (right_keyframe rc) = Ok rk /\
    (KeyFrame.index lk <? KeyFrame.index rk)%dbl = true /\
    BoundingCage.min_index (heap s) (cage s) = Ok (KeyFrame.index lk) /\
    BoundingCage.max_index (heap s) (cage s) = Ok (KeyFrame.index rk).
Proof. intros Hr. apply well_formed_min_max_index, reachable_well_formed, Hr. Qed.

(** ** A split returns *)

Lemma deref_keyframe_live h h' k kf :
  indices h' = indices h -> deref_keyframe h k = Ok kf ->
  exists kf', deref_keyframe h' k = Ok kf'.
Proof.
  intros Hi Hk. apply deref_keyframe_index_at in Hk.
  rewrite <- (index_at_ext h h') in Hk by assumption.
  apply index_at_deref in Hk as (kf' & Hk' & _). eauto.
Qed.

Lemma make_cell_live h lk rk prv nxt kl kr :
  deref_keyframe h lk = Ok kl -> deref_keyframe h rk = Ok kr ->
  exists h1, Cell.make_cell h lk rk prv nxt = Ok (length (cell_arena h), h1).
Proof.
  intros Hl Hr. unfold Cell.make_cell. rewrite Hl, Hr. cbn. eauto.
Qed.

(** A leaf whose key frames exist can be split with any key frame that
    exists. *)
Lemma split_leaf_live `{!Geometry} h mesh p c key_frame kf kl kr :
  deref_keyframe h key_frame = Ok kf ->
  deref_keyframe h (left_keyframe c) = Ok kl ->
  deref_keyframe h (right_keyframe c) = Ok kr ->
  is_Ok (Cell.split_leaf h mesh p c key_frame).
Proof.
  intros Hk Hl Hr. unfold Cell.split_leaf.
  destruct (make_cell_live h (left_keyframe c) key_frame (prev_cell c) None _ _ Hl Hk)
    as (h1 & Ha).
  rewrite Ha. cbn. apply make_cell_Ok in Ha as (_ & _ & Hi1).
  destruct (deref_keyframe_live h h1 _ _ Hi1 Hk) as (kf1 & Hk1).
  destruct (deref_keyframe_live h h1 _ _ Hi1 Hr) as (kr1 & Hr1).
  destruct (make_cell_live h1 key_frame (right_keyframe c)
              (Some (length (cell_arena h))) (next_cell c) _ _ Hk1 Hr1) as (h2 & Hb).
  rewrite Hb. cbn. apply make_cell_Ok in Hb as (_ & _ & Hi2).
  set (a := length (cell_arena h)). set (b := length (cell_arena h1)).
  set (h3 := update_cell p _ _).
  assert (indices h3 = indices h) as Hi3.
  { unfold h3. rewrite indices_update_cell, !indices_update_cell_opt,
      indices_update_cell. congruence. }
  destruct (deref_keyframe_live h h3 _ _ Hi3 Hk) as (kf3 & Hk3).
  rewrite Hk3. cbn.
  destruct (if KeyFrame.in_bounding_cage kf3 then _ else _) as [mesh1 idx].
  set (h4 := update_keyframe_opt key_frame _ h3).
  assert (indices h4 = indices h) as Hi4.
  { unfold h4. rewrite indices_update_keyframe_opt by reflexivity. exact Hi3. }
  destruct (deref_keyframe_live h h4 _ _ Hi4 Hk) as (kf4 & Hk4).
  destruct (deref_keyframe_live h h4 _ _ Hi4 Hl) as (kl4 & Hl4).
  destruct (deref_keyframe_live h h4 _ _ Hi4 Hr) as (kr4 & Hr4).
  rewrite Hk4. cbn. rewrite Hl4. cbn. rewrite Hr4. cbn.
  destruct (cell_init_mesh kl4 kf4 (Some c) mesh1) as [mesh2 ma].
  destruct (cell_init_mesh kf4 kr4 None mesh2) as [mesh3 mb].
  eexists. reflexivity.
Qed.

Lemma ordered_live h c :
  ordered h c ->
  exists kl kr lo hi, deref_keyframe h (left_keyframe c) = Ok kl /\
                deref_keyframe h (right_keyframe c) = Ok kr /\
                Cell.min_index h c = Ok lo /\ Cell.max_index h c = Ok hi.
Proof.
  intros (lo & hi & Hlo & Hhi & _).
  destruct (index_at_deref _ _ _ Hlo) as (kl & Hkl & _).
  destruct (index_at_deref _ _ _ Hhi) as (kr & Hkr & _).
  exists kl, kr, lo, hi. rewrite min_index_index_at, max_index_index_at. auto.
Qed.

(** On a tree, with fuel for as many turns as there are leaves and a key
    frame that exists, [Cell::split] returns. *)
Lemma split_returns `{!Geometry} h mesh q key_frame kf lk rk ls fuel :
  tree h q lk rk ls ->
  deref_keyframe h key_frame = Ok kf ->
  length ls <= fuel ->
  is_Ok (Cell.split fuel h mesh q key_frame).
Proof.
  intros Ht Hk. revert fuel.
  induction Ht as [q c Hq Hleaf Hord|q c a b m la lb Hq Ha Hb Hord Hta IHa Htb IHb];
    intros fuel Hf.
  - destruct fuel as [|fuel]; [cbn in Hf; lia|].
    cbn [Cell.split]. unfold deref_cell. rewrite Hq. cbn. rewrite Hk. cbn.
    destruct (ordered_live _ _ Hord) as (kl & kr & lo & hi & Hkl & Hkr & Hlo & Hhi).
    rewrite Hlo, Hhi. cbn.
    destruct (negb _); [eexists; reflexivity|].
    rewrite Hleaf.
    destruct (split_leaf_live h mesh q c key_frame _ _ _ Hk Hkl Hkr) as ([h' mesh'] & Hs).
    rewrite Hs. eexists. reflexivity.
  - pose proof (tree_nonempty _ _ _ _ _ Hta) as Hla.
    pose proof (tree_nonempty _ _ _ _ _ Htb) as Hlb.
    rewrite length_app in Hf.
    assert (0 < length la /\ 0 < length lb) as [? ?].
    { destruct la, lb; try congruence; cbn; lia. }
    destruct fuel as [|fuel]; [lia|].
    cbn [Cell.split].
    assert (deref_cell h (Some q) = Ok c) as -> by (cbn; rewrite Hq; reflexivity).
    cbn [mbind result_bind]. rewrite Hk. cbn [mbind result_bind].
    destruct (ordered_live _ _ Hord) as (kl & kr & lo & hi & Hkl & Hkr & Hlo & Hhi).
    rewrite Hlo, Hhi. cbn [mbind result_bind].
    destruct (negb _); [eexists; reflexivity|].
    assert (Cell.is_leaf c = false) as ->.
    { unfold Cell.is_leaf. rewrite Ha. reflexivity. }
    rewrite Ha, Hb.
    assert (forall x la' lk' rk', tree h x lk' rk' la' ->
              is_Ok (Cell.contains h x (KeyFrame.index kf))) as Hcont.
    { intros x la' lk' rk' Hx.
      destruct (tree_root _ _ _ _ _ Hx) as (cx & Hcx & _ & _ & Hox).
      destruct (ordered_live _ _ Hox) as (? & ? & lox & hix & _ & _ & Hlox & Hhix).
      unfold Cell.contains, deref_cell. rewrite Hcx. cbn. rewrite Hlox, Hhix. cbn.
      eexists. reflexivity. }
    destruct (Hcont _ _ _ _ Hta) as (ina & ->). cbn [mbind result_bind].
    destruct ina; [apply IHa; lia|].
    destruct (Hcont _ _ _ _ Htb) as (inb & ->). cbn [mbind result_bind].
    destruct inb; [apply IHb; lia|]. eexists. reflexivity.
Qed.

(** In a well-formed cage, installing a key frame that exists returns:
    the recursion bound is never hit and no pointer is missing. *)
Lemma split_internal_returns `{!Geometry} s key_frame kf :
  well_formed s ->
  deref_keyframe (heap s) key_frame = Ok kf ->
  is_Ok (BoundingCage.split_internal s key_frame).
Proof.
  intros Hwf Hk. pose proof Hwf as Hwf'.
  unfold BoundingCage.split_internal. unfold well_formed in Hwf.
  destruct (root (cage s)) as [r|] eqn:Hroot; [|eexists; reflexivity].
  destruct Hwf as (lk & rk & ls & Ht & Hd & Hnd & Hhd & Htl).
  assert (length ls <= S (length (cell_arena (heap s)))) as Hlen.
  { apply Nat.le_le_succ_r, NoDup_bounded_length; [assumption|].
    intros q Hq. eapply dll_lookup; eassumption. }
  destruct (split_returns (heap s) (BoundingCage.mesh_buffer (cage s)) r key_frame
              kf lk rk ls _ Ht Hk Hlen) as ([[ret h'] mesh'] & Hs).
  rewrite Hs. cbn. destruct ret as [k|]; [|eexists; reflexivity].
  destruct (split_in_tree _ _ _ _ _ _ _ _ _ _ _ Ht Hs)
    as [([=] & _)|(_ & p & c & Hp & Hc & Hleaf & Hin & Hsl)].
  apply list_elem_of_split in Hp as (l1 & l2 & ->).
  assert (split_effect (heap s) h' p c key_frame (length (cell_arena (heap s)))
            (S (length (cell_arena (heap s))))) as He.
  { pose proof Hd as Hd'. apply dll_app in Hd' as [_ Hpl2]. cbn [dll] in Hpl2.
    destruct Hpl2 as [(c0 & Hc0 & Hprv & Hnxt) _].
    assert (c0 = c) as -> by congruence.
    eapply split_leaf_effect; [eassumption|assumption| |].
    - intros q Hq. rewrite Hprv in Hq. apply prev_of_elem in Hq as [Hq|?]; [|discriminate].
      eapply dll_lookup; [exact Hd|]. apply elem_of_app. auto.
    - intros q Hq. rewrite Hnxt in Hq. apply next_of_elem in Hq as [Hq|?]; [|discriminate].
      eapply dll_lookup; [exact Hd|]. apply elem_of_app. right.
      apply list_elem_of_further, Hq. }
  destruct (cells (cage s)) as [hd0 tl0] eqn:Hcells.
  cbn [head tail] in Hhd, Htl. subst hd0 tl0.
  rewrite (follow_split_ends _ _ _ _ _ _ _ _ _ _ _ _ He Ht Hnd). cbn.
  eexists. reflexivity.
Qed.

Lemma chain_cells h lk ls rk :
  chain h lk ls rk ->
  Forall (fun p => exists c, cell_arena h !! p = Some c /\ ordered h c) ls.
Proof.
  revert lk. induction ls as [|q ls IH]; intros lk Hch; [constructor|].
  destruct Hch as (c & Hc & _ & Hord & Hrest).
  constructor; [eauto|eapply IH; eassumption].
Qed.

Lemma find_containing_returns h ls index :
  Forall (fun p => exists c, cell_arena h !! p = Some c /\ ordered h c) ls ->
  exists found, BoundingCage.find_containing h ls index = Ok found /\
                forall c, found = Some c -> ordered h c.
Proof.
  induction 1 as [|p ls (c & Hc & Hord) _ (found & Hfound & Hfc)]; cbn.
  - exists None. split; [reflexivity|discriminate].
  - destruct (ordered_live _ _ Hord) as (? & ? & lo & hi & _ & _ & Hlo & Hhi).
    unfold Cell.contains, deref_cell. rewrite Hc. cbn. rewrite Hlo, Hhi. cbn.
    destruct (_ && _).
    + exists (Some c). split; [reflexivity|]. intros ? [= <-]. exact Hord.
    + exists found. auto.
Qed.

Lemma well_formed_leaf_cells s :
  well_formed s ->
  exists ls, BoundingCage.leaves s = Ok ls /\
    Forall (fun p => exists c, cell_arena (heap s) !! p = Some c /\
                               ordered (heap s) c) ls.
Proof.
  unfold well_formed, BoundingCage.leaves, Cells.begin.
  destruct (root (cage s)) as [r|].
  - intros (lk & rk & ls & Ht & Hd & Hnd & Hhd & Htl).
    exists ls. rewrite Hhd. split.
    + apply (walk_forward _ None); [assumption|].
      apply Nat.lt_succ_r, NoDup_bounded_length; [assumption|].
      intros q Hq. eapply dll_lookup; eassumption.
    + eapply chain_cells, tree_chain. eassumption.
  - intros [-> _]. exists []. split; [reflexivity|constructor].
Qed.

(** In a well-formed cage [keyframe_for_index] returns, with the end
    iterator or an iterator at a key frame that exists. *)
Lemma keyframe_for_index_returns `{!Geometry} s index :
  well_formed s ->
  exists it s', BoundingCage.keyframe_for_index s index = Ok (it, s') /\
    (keyframe it = None \/ is_Ok (deref_keyframe (heap s') (keyframe it))).
Proof.
  intros Hwf. unfold BoundingCage.keyframe_for_index.
  assert (exists lo hi, BoundingCage.min_index (heap s) (cage s) = Ok lo /\
                        BoundingCage.max_index (heap s) (cage s) = Ok hi)
    as (lo & hi & -> & ->).
  { destruct (root (cage s)) as [r|] eqn:Hroot.
    - destruct (well_formed_min_max_index s r Hwf Hroot)
        as (? & ? & ? & _ & _ & _ & _ & -> & ->). eauto.
    - unfold BoundingCage.min_index, BoundingCage.max_index. rewrite Hroot. eauto. }
  cbn [mbind result_bind].
  destruct (_ || _); [eexists _, _; split; [reflexivity|left; reflexivity]|].
  destruct (well_formed_leaf_cells s Hwf) as (ls & -> & Hcells).
  cbn [mbind result_bind].
  destruct (find_containing_returns (heap s) ls index Hcells) as (found & -> & Hfound).
  cbn [mbind result_bind].
  destruct found as [c|]; [|eexists _, _; split; [reflexivity|left; reflexivity]].
  destruct (ordered_live _ _ (Hfound c eq_refl)) as (kl & kr & _ & _ & -> & -> & _).
  cbn [mbind result_bind].
  destruct (interpolate _ kl kr index) as [[ctr frame] pts].
  eexists _, _. split; [reflexivity|]. right. cbn.
  rewrite list_lookup_middle by reflexivity. eexists. reflexivity.
Qed.

(** In a well-formed cage both overloads of [split] return. *)
Lemma split_iterator_returns `{!Geometry} s it :
  well_formed s ->
  keyframe it = None \/ is_Ok (deref_keyframe (heap s) (keyframe it)) ->
  is_Ok (BoundingCage.split_iterator s it).
Proof.
  intros Hwf Hit. unfold BoundingCage.split_iterator.
  destruct (keyframe it) as [k|] eqn:Hk; [|eexists; reflexivity].
  destruct Hit as [?|(kf & Hkf)]; [discriminate|].
  destruct (split_internal_returns s (Some k) kf Hwf Hkf) as ([ret s'] & ->).
  eexists. reflexivity.
Qed.

Lemma split_index_returns `{!Geometry} s index :
  well_formed s -> is_Ok (BoundingCage.split s index).
Proof.
  intros Hwf. unfold BoundingCage.split.
  destruct (keyframe_for_index_returns s index Hwf) as (it & s1 & Hk & Hit).
  rewrite Hk. cbn [mbind result_bind].
  apply split_iterator_returns; [|assumption].
  eapply keyframe_for_index_well_formed; eassumption.
Qed.

(** In every reachable state [split(index)] returns: it neither runs out
    of turns nor meets a missing object. *)
Lemma reachable_split_returns `{!Geometry} s index :
  reachable s -> is_Ok (BoundingCage.split s index).
Proof. intros Hr. apply split_index_returns, reachable_well_formed, Hr. Qed.

(* ================================================================= *)
(** * The scenario of section 8, with the concrete geometry *)

(** Five collinear skeleton points and a unit square: one leaf cell from
    0 to 4, 8 mesh vertices and 12 faces. *)
Example scenario_set_skeleton_vertices :
  @BoundingCage.set_skeleton_vertices example_geometry state_new skeleton5 0
     unit_square = Ok (true, state_one_cell) /\
  BoundingCage.min_index (heap state_one_cell) (cage state_one_cell) = Ok 0%float /\
  BoundingCage.max_index (heap state_one_cell) (cage state_one_cell) = Ok 4%float /\
  BoundingCage.leaf_count state_one_cell = Ok 1 /\
  rows <$> BoundingCage.vertices (cage state_one_cell) = Ok 8 /\
  rows <$> BoundingCage.faces (cage state_one_cell) = Ok 12.
Proof. repeat split; vm_compute; reflexivity. Qed.

(** [split(2.0)] installs a key frame: two leaf cells, one more polygon
    of vertices and one more band of faces, the index range as before. *)
Example scenario_split :
  @BoundingCage.split example_geometry state_one_cell 2%float =
    Ok (mkKeyFrameIterator (Some 2), state_two_cells) /\
  BoundingCage.min_index (heap state_two_cells) (cage state_two_cells) = Ok 0%float /\
  BoundingCage.max_index (heap state_two_cells) (cage state_two_cells) = Ok 4%float /\
  BoundingCage.leaves state_two_cells = Ok [1; 2] /\
  BoundingCage.leaves_backward state_two_cells = Ok [2; 1] /\
  left_indices (heap state_two_cells) [1; 2] = Ok [0; 2]%float /\
  rows <$> BoundingCage.vertices (cage state_two_cells) = Ok 12 /\
  rows <$> BoundingCage.faces (cage state_two_cells) = Ok 20.
Proof. repeat split; vm_compute; reflexivity. Qed.

(** [clear()] on the cage of one cell: the mesh of 8 vertices and 12
    faces is gone with both buffers, and [vertices()] and [faces()] are
    out of range, as they are on a cage that was just constructed. *)
Example scenario_clear :
  rows <$> BoundingCage.vertices (cage state_one_cell) = Ok 8 /\
  rows <$> BoundingCage.faces (cage state_one_cell) = Ok 12 /\
  BoundingCage.clear (cage state_one_cell) = BoundingCage.ctor /\
  BoundingCage.vertices (BoundingCage.clear (cage state_one_cell)) = Fault EigenRange /\
  BoundingCage.faces (BoundingCage.clear (cage state_one_cell)) = Fault EigenRange /\
  BoundingCage.vertices BoundingCage.ctor = Fault EigenRange /\
  BoundingCage.faces BoundingCage.ctor = Fault EigenRange.
Proof. repeat split; vm_compute; reflexivity. Qed.

(** Splitting again at 2.0 fails: the index is a boundary of both leaves.
    The leaf list is as before; the only trace is the detached key frame
    that [keyframe_for_index] made. *)
Example scenario_split_again :
  exists s,
    @BoundingCage.split example_geometry state_two_cells 2%float =
      Ok (BoundingCage.keyframes_end, s) /\
    cage s = cage state_two_cells /\
    cell_arena (heap s) = cell_arena (heap state_two_cells) /\
    BoundingCage.leaves s = Ok [1; 2].
Proof. eexists. repeat split; vm_compute; reflexivity. Qed.

(* ================================================================= *)
(** * Further properties of the cage *)

(** ** More on the order of [double] *)

(** Numbers that compare equal compare alike with every third one. *)
Lemma SFcompare_Eq_l (x y z : spec_float) :
  SFcompare x y = Some Eq -> SFcompare x z = SFcompare y z.
Proof.
  destruct x as [sx|sx| |sx mx ex], y as [sy|sy| |sy my ey]; cbn;
    try discriminate; try reflexivity;
    try (destruct sx; discriminate); try (destruct sy; discriminate).
  - destruct sx, sy; try discriminate; reflexivity.
  - destruct sx, sy; try discriminate;
      destruct (Z.compare_spec ex ey); try discriminate;
      change (Pos.compare_cont Eq) with Pos.compare;
      destruct (Pos.compare_spec mx my); try discriminate; subst; reflexivity.
Qed.

Lemma SFcompare_Eq_r (x y z : spec_float) :
  SFcompare y z = Some Eq -> SFcompare x y = SFcompare x z.
Proof.
  intros E. rewrite (SFcompare_antisym y x), (SFcompare_antisym z x).
  rewrite (SFcompare_Eq_l _ _ x E). reflexivity.
Qed.

Lemma eqb_ltb_l (a b c : double) :
  (a =? b)%dbl = true -> (a <? c)%dbl = (b <? c)%dbl.
Proof.
  rewrite FloatAxioms.eqb_spec, !FloatAxioms.ltb_spec. unfold SFeqb, SFltb.
  intros E. rewrite (SFcompare_Eq_l _ (Prim2SF b)); [reflexivity|].
  destruct (SFcompare (Prim2SF a) (Prim2SF b)) as [[]|]; congruence.
Qed.

Lemma eqb_ltb_r (a b c : double) :
  (b =? c)%dbl = true -> (a <? b)%dbl = (a <? c)%dbl.
Proof.
  rewrite FloatAxioms.eqb_spec, !FloatAxioms.ltb_spec. unfold SFeqb, SFltb.
  intros E. rewrite (SFcompare_Eq_r _ (Prim2SF b) (Prim2SF c)); [reflexivity|].
  destruct (SFcompare (Prim2SF b) (Prim2SF c)) as [[]|]; congruence.
Qed.

Lemma eqb_eqb_l (a b c : double) :
  (a =? b)%dbl = true -> (a =? c)%dbl = (b =? c)%dbl.
Proof.
  rewrite !FloatAxioms.eqb_spec. unfold SFeqb.
  intros E. rewrite (SFcompare_Eq_l _ (Prim2SF b)); [reflexivity|].
  destruct (SFcompare (Prim2SF a) (Prim2SF b)) as [[]|]; congruence.
Qed.

Lemma eqb_sym (a b : double) : (a =? b)%dbl = (b =? a)%dbl.
Proof.
  rewrite !FloatAxioms.eqb_spec. unfold SFeqb.
  rewrite (SFcompare_antisym (Prim2SF a) (Prim2SF b)).
  destruct (SFcompare (Prim2SF a) (Prim2SF b)) as [[]|]; reflexivity.
Qed.

(** Two numbers neither of which is below the other are equal. *)
Lemma not_ltb_eqb (a b : double) :
  (a =? a)%dbl = true -> (b =? b)%dbl = true ->
  (a <? b)%dbl = false -> (b <? a)%dbl = false -> (a =? b)%dbl = true.
Proof.
  rewrite !FloatAxioms.eqb_spec, !FloatAxioms.ltb_spec. unfold SFeqb, SFltb.
  rewrite (SFcompare_antisym (Prim2SF a) (Prim2SF b)).
  intros Ha Hb.
  assert (Prim2SF a <> S754_nan /\ Prim2SF b <> S754_nan) as [Hna Hnb].
  { split; intros E; rewrite E in *; discriminate. }
  assert (SFcompare (Prim2SF a) (Prim2SF b) <> None) as Hc.
  { destruct (Prim2SF a) as [| | |[] ? ?], (Prim2SF b) as [| | |[] ? ?]; cbn; congruence. }
  destruct (SFcompare (Prim2SF a) (Prim2SF b)) as [[]|]; cbn; congruence.
Qed.

Lemma leb_ltb_eqb (a b : double) :
  (a <=? b)%dbl = (a <? b)%dbl || (a =? b)%dbl.
Proof.
  rewrite FloatAxioms.leb_spec, FloatAxioms.ltb_spec, FloatAxioms.eqb_spec.
  unfold SFleb, SFltb, SFeqb.
  destruct (SFcompare (Prim2SF a) (Prim2SF b)) as [[]|]; reflexivity.
Qed.

Lemma leb_trans (a b c : double) :
  (a <=? b)%dbl = true -> (b <=? c)%dbl = true -> (a <=? c)%dbl = true.
Proof.
  rewrite !leb_ltb_eqb. intros Hab Hbc.
  apply orb_true_iff in Hab as [Hab|Hab], Hbc as [Hbc|Hbc].
  - rewrite (ltb_trans _ _ _ Hab Hbc). reflexivity.
  - rewrite <- (eqb_ltb_r a b c Hbc), Hab. reflexivity.
  - rewrite (eqb_ltb_l a b c Hab), Hbc. reflexivity.
  - rewrite (eqb_eqb_l a b c Hab), Hbc. apply orb_true_r.
Qed.

Lemma leb_antisym (a b : double) :
  (a <=? b)%dbl = true -> (b <=? a)%dbl = true -> (a =? b)%dbl = true.
Proof.
  rewrite !leb_ltb_eqb, (eqb_sym b a). intros Hab Hba.
  destruct (a =? b)%dbl; [reflexivity|]. rewrite orb_false_r in Hab, Hba.
  apply ltb_asym in Hab. congruence.
Qed.

(** ** Moving a cell iterator along the leaf list *)

Lemma dll_moves h prv ls nxt i p :
  dll h prv ls nxt -> ls !! i = Some p ->
  exists c, cell_arena h !! p = Some c /\
    next_cell c = (if ls !! S i is Some q then Some q else nxt) /\
    prev_cell c = match i with 0 => prv | S j => ls !! j end.
Proof.
  revert prv i. induction ls as [|q ls IH]; intros prv i Hd Hi; [discriminate|].
  destruct Hd as [(c & Hc & Hp & Hn) Hd]. destruct i as [|i].
  - injection Hi as ->. exists c. split; [assumption|]. split; [|assumption].
    rewrite Hn. destruct ls; reflexivity.
  - cbn in Hi. destruct (IH _ _ Hd Hi) as (c' & Hc' & Hn' & Hp').
    exists c'. split; [assumption|]. split; [assumption|].
    rewrite Hp'. destruct i; reflexivity.
Qed.

Lemma well_formed_dll s ls :
  well_formed s -> BoundingCage.leaves s = Ok ls -> dll (heap s) None ls None.
Proof.
  unfold well_formed, BoundingCage.leaves, Cells.begin. intros Hwf Hls.
  destruct (root (cage s)) as [r|].
  - destruct Hwf as (lk & rk & ls0 & Ht & Hd & Hnd & Hhd & _).
    rewrite Hhd in Hls. rewrite (walk_forward _ None ls0) in Hls.
    + congruence.
    + assumption.
    + apply Nat.lt_succ_r, NoDup_bounded_length; [assumption|].
      intros x Hx. eapply dll_lookup; eassumption.
  - destruct Hwf as [Hhd _]. rewrite Hhd in Hls. cbn in Hls.
    injection Hls as <-. exact I.
Qed.

(** X1. In a reachable cage [++] moves a cell iterator from the leaf at
    position [i] of the leaf list to the leaf at position [i + 1], and to
    the end iterator from the last leaf; [--] moves it to the leaf at
    position [i - 1], and to the end iterator from the first leaf.  So
    between two leaves each of the two operators undoes the other. *)
Theorem cell_iterator_moves `{!Geometry} (s : State) (ls : list cell_ptr)
    (i : nat) (p : cell_ptr) :
  reachable s ->
  BoundingCage.leaves s = Ok ls ->
  ls !! i = Some p ->
  CellIterator.incr (heap s) (mkCellIterator (Some p)) = Ok (mkCellIterator (ls !! S i)) /\
  CellIterator.decr (heap s) (mkCellIterator (Some p)) =
    Ok (mkCellIterator (match i with 0 => None | S j => ls !! j end)).
Proof.
  intros Hr Hls Hi. apply reachable_well_formed in Hr.
  destruct (dll_moves _ _ _ _ _ _ (well_formed_dll _ _ Hr Hls) Hi) as (c & Hc & Hn & Hp).
  unfold CellIterator.incr, CellIterator.decr, deref_cell. cbn [cell].
  rewrite Hc. cbn. rewrite Hn, Hp. split; [|reflexivity].
  destruct (ls !! S i); reflexivity.
Qed.

Lemma cell_iterator_moves_witness :
  CellIterator.incr (heap state_two_cells) (mkCellIterator (Some 1)) =
    Ok (mkCellIterator (Some 2)) /\
  CellIterator.decr (heap state_two_cells) (mkCellIterator (Some 1)) =
    Ok (mkCellIterator None).
Proof.
  exact (@cell_iterator_moves example_geometry state_two_cells [1; 2] 0 1
           state_two_cells_reachable eq_refl eq_refl).
Defined.

(** ** The key frames under a split *)

Lemma keyframe_arena_update_cell_opt o f h :
  keyframe_arena (update_cell_opt o f h) = keyframe_arena h.
Proof. destruct o; reflexivity. Qed.

Lemma keyframe_arena_update_keyframe_opt o f h :
  keyframe_arena (update_keyframe_opt o f h) = alter_opt f o (keyframe_arena h).
Proof. destruct o; reflexivity. Qed.

Lemma make_cell_keyframes h lk rk prv nxt p h1 :
  Cell.make_cell h lk rk prv nxt = Ok (p, h1) ->
  keyframe_arena h1 =
    alter_opt (set_left_cell (Some p)) rk
      (alter_opt (set_right_cell (Some p)) lk (keyframe_arena h)).
Proof.
  unfold Cell.make_cell. intros Hs.
  apply bind_Ok in Hs as (? & _ & Hs). apply bind_Ok in Hs as (? & _ & Hs).
  cbn in Hs. injection Hs as <- <-.
  rewrite !keyframe_arena_update_keyframe_opt. reflexivity.
Qed.

Lemma split_leaf_keyframes `{!Geometry} h mesh p c key_frame h' mesh' :
  Cell.split_leaf h mesh p c key_frame = Ok (h', mesh') ->
  forall a, a = length (cell_arena h) ->
  exists idx,
    keyframe_arena h' =
      alter_opt (set_mesh_vertex_indices idx) key_frame
        (alter_opt (set_left_cell (Some (S a))) (right_keyframe c)
          (alter_opt (set_right_cell (Some (S a))) key_frame
            (alter_opt (set_left_cell (Some a)) key_frame
              (alter_opt (set_right_cell (Some a)) (left_keyframe c)
                (keyframe_arena h))))).
Proof.
  unfold Cell.split_leaf. intros Hs a Hlena.
  apply bind_Ok in Hs as ([a' h1] & Ha & Hs).
  pose proof (make_cell_keyframes _ _ _ _ _ _ _ Ha) as Hka.
  apply make_cell_Ok in Ha as (-> & Ha & _).
  apply bind_Ok in Hs as ([b' h2] & Hb & Hs).
  pose proof (make_cell_keyframes _ _ _ _ _ _ _ Hb) as Hkb.
  apply make_cell_Ok in Hb as (-> & Hb & _).
  apply bind_Ok in Hs as (kf & _ & Hs).
  destruct (if KeyFrame.in_bounding_cage kf then _ else _) as [mesh1 idx].
  apply bind_Ok in Hs as (kf0 & _ & Hs).
  apply bind_Ok in Hs as (lk & _ & Hs).
  apply bind_Ok in Hs as (rk & _ & Hs).
  destruct (cell_init_mesh lk kf0 (Some c) mesh1) as [mesh2 ma].
  destruct (cell_init_mesh kf0 rk None mesh2) as [mesh3 mb].
  injection Hs as <- <-. exists idx.
  assert (length (cell_arena h1) = S a) as Hlen.
  { rewrite Ha, length_app. cbn. lia. }
  cbn [keyframe_arena update_cell]. rewrite keyframe_arena_update_keyframe_opt.
  cbn [keyframe_arena update_cell]. rewrite !keyframe_arena_update_cell_opt.
  cbn [keyframe_arena update_cell]. rewrite Hkb, Hka, Hlen, <- Hlena. reflexivity.
Qed.

(** What a split of a leaf between the key frames [kl] and [kr] at the key
    frame [k] does to the back references of the key frames. *)
Lemma split_leaf_cells `{!Geometry} h mesh p c k kl kr h' mesh' :
  Cell.split_leaf h mesh p c (Some k) = Ok (h', mesh') ->
  left_keyframe c = Some kl -> right_keyframe c = Some kr ->
  kl <> k -> k <> kr -> kl <> kr ->
  forall a, a = length (cell_arena h) ->
  forall j kf, keyframe_arena h !! j = Some kf ->
    exists kf', keyframe_arena h' !! j = Some kf' /\
      _index kf' = _index kf /\
      _cells kf' =
        if decide (j = k) then (Some a, Some (S a))
        else if decide (j = kl) then ((_cells kf).1, Some a)
        else if decide (j = kr) then (Some (S a), (_cells kf).2)
        else _cells kf.
Proof.
  intros Hs Hl Hr H1 H2 H3 a Ha j kf Hj.
  destruct (split_leaf_keyframes _ _ _ _ _ _ _ Hs a Ha) as (idx & ->).
  rewrite Hl, Hr.
  repeat (rewrite lookup_alter_opt); rewrite Hj.
  repeat case_decide; simplify_eq; cbn; eexists; (split; [reflexivity|]); cbn;
    split; try reflexivity; destruct (_cells kf); reflexivity.
Qed.

(** ** Walking the key frames *)

Lemma lock_live h p c : cell_arena h !! p = Some c -> lock h (Some p) = Some p.
Proof. unfold lock. intros ->. reflexivity. Qed.

Lemma linked_walk_forward h prv k ls ks fuel :
  linked h prv k ls ks -> S (length ls) < fuel ->
  keyframes_walk KeyFrameIterator.incr fuel h (mkKeyFrameIterator (Some k)) =
    Ok (k :: ks).
Proof.
  revert prv k ks fuel. induction ls as [|p ls IH]; intros prv k [|k' ks] fuel Hl Hf;
    try contradiction; (destruct fuel as [|fuel]; [lia|]); cbn in Hf.
  - destruct Hl as (kf & Hkf & Hc).
    cbn [keyframes_walk keyframe]. unfold KeyFrameIterator.incr, deref_keyframe.
    cbn [keyframe]. rewrite Hkf. cbn [mbind result_bind]. rewrite Hc. cbn.
    destruct fuel; [lia|]. reflexivity.
  - destruct Hl as [(kf & c & Hkf & Hc & Hp & Hlk & Hrk) Hl].
    cbn [keyframes_walk keyframe]. unfold KeyFrameIterator.incr, deref_keyframe.
    cbn [keyframe]. rewrite Hkf. cbn [mbind result_bind]. rewrite Hc. cbn [snd].
    rewrite (lock_live _ _ _ Hp). unfold deref_cell. rewrite Hp. cbn [mbind result_bind].
    rewrite Hrk, (IH _ _ _ _ Hl) by lia. reflexivity.
Qed.

Lemma linked_walk_backward h prv k ls ks fuel :
  linked h prv k ls ks ->
  keyframes_walk KeyFrameIterator.decr (length ls + fuel) h
    (mkKeyFrameIterator (last (k :: ks))) =
  (rest ← keyframes_walk KeyFrameIterator.decr fuel h (mkKeyFrameIterator (Some k));
   Ok (reverse ks ++ rest)).
Proof.
  revert prv k ks fuel. induction ls as [|p ls IH]; intros prv k [|k' ks] fuel Hl;
    try contradiction.
  - cbn. destruct (keyframes_walk _ _ _ _); reflexivity.
  - destruct Hl as [(kf & c & Hkf & Hc & Hp & Hlk & Hrk) Hl].
    change (last (k :: k' :: ks)) with (last (k' :: ks)).
    replace (length (p :: ls) + fuel) with (length ls + S fuel) by (cbn; lia).
    rewrite (IH _ _ _ _ Hl).
    assert (KeyFrameIterator.decr h (mkKeyFrameIterator (Some k')) =
            Ok (mkKeyFrameIterator (Some k))) as Hdecr.
    { destruct ls, ks; try contradiction.
      - destruct Hl as (kf' & Hkf' & Hc').
        unfold KeyFrameIterator.decr, deref_keyframe. cbn [keyframe].
        rewrite Hkf'. cbn [mbind result_bind]. rewrite Hc'. cbn [fst].
        rewrite (lock_live _ _ _ Hp). unfold deref_cell. rewrite Hp. cbn. congruence.
      - destruct Hl as [(kf' & c' & Hkf' & Hc' & _) _].
        unfold KeyFrameIterator.decr, deref_keyframe. cbn [keyframe].
        rewrite Hkf'. cbn [mbind result_bind]. rewrite Hc'. cbn [fst].
        rewrite (lock_live _ _ _ Hp). unfold deref_cell. rewrite Hp. cbn. congruence. }
    cbn [keyframes_walk keyframe]. rewrite Hdecr. cbn [mbind result_bind].
    destruct (keyframes_walk _ fuel _ _); cbn [mbind result_bind]; [|reflexivity].
    rewrite reverse_cons, <- app_assoc. reflexivity.
Qed.

Lemma linked_first_end h k ls ks fuel :
  linked h None k ls ks -> 1 < fuel ->
  keyframes_walk KeyFrameIterator.decr fuel h (mkKeyFrameIterator (Some k)) = Ok [k].
Proof.
  intros Hl Hf. destruct fuel as [|[|fuel]]; try lia.
  assert (exists kf, keyframe_arena h !! k = Some kf /\ (_cells kf).1 = None)
    as (kf & Hkf & Hc).
  { destruct ls, ks; try contradiction.
    - destruct Hl as (kf & Hkf & Hc). exists kf. rewrite Hc. auto.
    - destruct Hl as [(kf & c & Hkf & Hc & _) _]. exists kf. rewrite Hc. auto. }
  cbn [keyframes_walk keyframe]. unfold KeyFrameIterator.decr, deref_keyframe.
  cbn [keyframe]. rewrite Hkf. cbn [mbind result_bind]. rewrite Hc. reflexivity.
Qed.

(** The cells of a linked list and the key frames on their two sides. *)
Lemma linked_cell h prv k ls ks i p :
  linked h prv k ls ks -> ls !! i = Some p ->
  exists c kl kr, cell_arena h !! p = Some c /\
    left_keyframe c = Some kl /\ right_keyframe c = Some kr /\
    (k :: ks) !! i = Some kl /\ ks !! i = Some kr.
Proof.
  revert prv k ks i. induction ls as [|q ls IH]; intros prv k [|k' ks] i Hl Hi;
    try contradiction; try discriminate.
  destruct Hl as [(kf & c & Hkf & Hc & Hp & Hlk & Hrk) Hl]. destruct i as [|i].
  - injection Hi as <-. exists c, k, k'. auto.
  - cbn in Hi. destruct (IH _ _ _ _ Hl Hi) as (c' & kl & kr & ?). exists c', kl, kr. auto.
Qed.

Lemma linked_length h prv k ls ks : linked h prv k ls ks -> length ks = length ls.
Proof.
  revert prv k ks. induction ls as [|q ls IH]; intros prv k [|k' ks] Hl;
    try contradiction; [reflexivity|].
  destruct Hl as [_ Hl]. cbn. f_equal. eauto.
Qed.

(** The key frames of a linked list and the cells on their two sides. *)
Lemma linked_keyframe h prv k ls ks i kx :
  linked h prv k ls ks -> (k :: ks) !! i = Some kx ->
  exists kf, keyframe_arena h !! kx = Some kf /\
    _cells kf = (match i with 0 => prv | S j => ls !! j end, ls !! i).
Proof.
  revert prv k ks i. induction ls as [|q ls IH]; intros prv k [|k' ks] i Hl Hi;
    try contradiction.
  - destruct i; [|discriminate]. injection Hi as <-. exact Hl.
  - destruct Hl as [(kf & c & Hkf & Hc & _) Hl]. destruct i as [|i].
    + injection Hi as <-. exists kf. auto.
    + cbn in Hi. destruct (IH _ _ _ _ Hl Hi) as (kf' & Hkf' & Hc').
      exists kf'. split; [assumption|]. rewrite Hc'. destruct i; reflexivity.
Qed.

(** ** The indices of the key frames *)

Lemma chain_linked_indices h lk ls rk prv k ks :
  chain h lk ls rk -> linked h prv k ls ks ->
  exists x xs,
    keyframe_indices h (k :: ks) = Ok (x :: xs) /\
    index_at h (Some k) = Some x /\
    increasing (x :: xs) = true /\
    (ls <> [] -> lk = Some k /\ rk = last (k :: ks)).
Proof.
  revert lk prv k ks. induction ls as [|p ls IH]; intros lk prv k [|k' ks] Hc Hl;
    try contradiction.
  - destruct Hl as (kf & Hkf & _). exists (_index kf), [].
    cbn. rewrite Hkf. cbn. split_and!; try reflexivity. intros E. contradiction.
  - destruct Hc as (c & Hp & Hlk & Ho & Hc).
    destruct Hl as [(kf & c' & Hkf & _ & Hp' & Hlk' & Hrk') Hl].
    assert (c' = c) as -> by congruence.
    rewrite Hrk' in Hc. destruct (IH _ _ _ _ Hc Hl) as (x' & xs' & Hxs & Hx' & Hinc & Hends).
    destruct Ho as (lo & hi & Hlo & Hhi & Hlt).
    rewrite Hlk' in Hlo. rewrite Hrk' in Hhi. rewrite Hhi in Hx'. injection Hx' as <-.
    exists lo, (hi :: xs'). split; [|split; [assumption|split]].
    + change (keyframe_indices h (k :: k' :: ks)) with
        (kf0 ← deref_keyframe h (Some k);
         rest ← keyframe_indices h (k' :: ks); Ok (KeyFrame.index kf0 :: rest)).
      rewrite Hxs. cbn in Hlo |- *. rewrite Hkf in Hlo |- *. cbn in Hlo |- *.
      unfold KeyFrame.index. congruence.
    + change (increasing (lo :: hi :: xs')) with
        ((lo <? hi)%dbl && increasing (hi :: xs')).
      rewrite Hlt, Hinc. reflexivity.
    + intros _. split; [congruence|].
      change (last (k :: k' :: ks)) with (last (k' :: ks)).
      destruct ls as [|q ls].
      * destruct ks; [|contradiction]. cbn in Hc |- *. congruence.
      * apply Hends. discriminate.
Qed.

Lemma keyframe_indices_lookup h ks xs i k :
  keyframe_indices h ks = Ok xs -> ks !! i = Some k ->
  exists kf, keyframe_arena h !! k = Some kf /\ xs !! i = Some (_index kf).
Proof.
  revert xs i. induction ks as [|k0 ks IH]; intros xs i Hxs Hi; [discriminate|].
  cbn [keyframe_indices] in Hxs. apply bind_Ok in Hxs as (kf & Hkf & Hxs).
  apply bind_Ok in Hxs as (rest & Hrest & Hxs). injection Hxs as <-.
  destruct i as [|i].
  - injection Hi as <-. exists kf. split; [|reflexivity].
    apply deref_keyframe_Ok in Hkf as (j & [= <-] & Hj). exact Hj.
  - cbn in Hi |- *. eauto.
Qed.

Lemma ltb_irrefl (x : double) : (x <? x)%dbl = false.
Proof.
  destruct (x <? x)%dbl eqn:E; [|reflexivity]. apply ltb_asym in E as E'. congruence.
Qed.

Lemma increasing_keys_NoDup h ks xs :
  keyframe_indices h ks = Ok xs -> increasing xs = true -> NoDup ks.
Proof.
  intros Hxs Hinc. apply NoDup_alt. intros i j k Hi Hj.
  destruct (keyframe_indices_lookup _ _ _ _ _ Hxs Hi) as (kf & Hkf & Hxi).
  destruct (keyframe_indices_lookup _ _ _ _ _ Hxs Hj) as (kf' & Hkf' & Hxj).
  assert (kf' = kf) as -> by congruence.
  destruct (Nat.lt_trichotomy i j) as [Hlt|[->|Hlt]]; [|reflexivity|].
  - pose proof (increasing_pairwise _ Hinc _ _ _ _ Hlt Hxi Hxj) as E.
    rewrite ltb_irrefl in E. discriminate.
  - pose proof (increasing_pairwise _ Hinc _ _ _ _ Hlt Hxj Hxi) as E.
    rewrite ltb_irrefl in E. discriminate.
Qed.

(** A key frame whose index lies strictly between two neighbouring
    indices of an increasing list is none of its key frames. *)
Lemma between_not_key h ks xs n kx x lo hi :
  keyframe_indices h ks = Ok xs -> increasing xs = true ->
  xs !! n = Some lo -> xs !! S n = Some hi ->
  index_at h (Some kx) = Some x ->
  (lo <? x)%dbl = true -> (x <? hi)%dbl = true ->
  kx ∉ ks.
Proof.
  intros Hxs Hinc Hlo Hhi Hx Hlox Hxhi Hin.
  apply list_elem_of_lookup in Hin as (j & Hj).
  destruct (keyframe_indices_lookup _ _ _ _ _ Hxs Hj) as (kf & Hkf & Hxj).
  cbn in Hx. rewrite Hkf in Hx. injection Hx as Hx. rewrite Hx in Hxj.
  destruct (Nat.lt_trichotomy j n) as [Hlt|[->|Hlt]].
  - pose proof (increasing_pairwise _ Hinc _ _ _ _ Hlt Hxj Hlo) as E.
    apply ltb_asym in E. congruence.
  - assert (x = lo) as -> by congruence. rewrite ltb_irrefl in Hlox. discriminate.
  - destruct (decide (j = S n)) as [->|Hne].
    + assert (x = hi) as -> by congruence. rewrite ltb_irrefl in Hxhi. discriminate.
    + assert (S n < j) as Hlt' by lia.
      pose proof (increasing_pairwise _ Hinc _ _ _ _ Hlt' Hhi Hxj) as E.
      apply ltb_asym in E. congruence.
Qed.

(** ** The links under a split *)

Lemma linked_away h h' p c k kl kr a b prv k0 l ks :
  split_effect h h' p c (Some k) a b ->
  split_links h h' k kl kr a b ->
  (forall q, q ∈ l -> q <> p) ->
  (forall j, j ∈ k0 :: ks -> j <> k /\ j <> kl /\ j <> kr) ->
  linked h prv k0 l ks -> linked h' prv k0 l ks.
Proof.
  intros He HK. revert prv k0 ks.
  induction l as [|q l IH]; intros prv k0 [|k' ks] Hq Hj Hl; try contradiction.
  - destruct Hl as (kf & Hkf & Hc).
    destruct (HK _ _ Hkf) as (kf' & Hkf' & Hc').
    destruct (Hj k0) as (? & ? & ?); [apply list_elem_of_here|].
    rewrite !decide_False in Hc' by assumption.
    exists kf'. split; congruence.
  - destruct Hl as [(kf & c0 & Hkf & Hc & Hc0 & Hlk & Hrk) Hl].
    destruct (HK _ _ Hkf) as (kf' & Hkf' & Hc').
    destruct (Hj k0) as (? & ? & ?); [apply list_elem_of_here|].
    rewrite !decide_False in Hc' by assumption.
    destruct (se_other _ _ _ _ _ _ _ He q c0) as (c' & Hc0' & _ & _ & Hlk' & Hrk' & _);
      [apply Hq, list_elem_of_here|assumption|].
    split.
    + exists kf', c'. split_and!; congruence.
    + apply IH; [| |assumption].
      * intros x Hx. apply Hq, list_elem_of_further, Hx.
      * intros x Hx. apply Hj, list_elem_of_further, Hx.
Qed.

Lemma linked_split h h' p c k kl kr a b l1 l2 prv k0 ks :
  split_effect h h' p c (Some k) a b ->
  split_links h h' k kl kr a b ->
  cell_arena h !! p = Some c ->
  left_keyframe c = Some kl -> right_keyframe c = Some kr ->
  is_Some (keyframe_arena h !! k) ->
  NoDup (l1 ++ p :: l2) -> NoDup (k0 :: ks) -> k ∉ k0 :: ks ->
  linked h prv k0 (l1 ++ p :: l2) ks ->
  linked h' prv k0 (l1 ++ a :: b :: l2)
    (take (length l1) ks ++ k :: drop (length l1) ks).
Proof.
  intros He HK Hp Hkl Hkr [kfk Hk]. revert prv k0 ks.
  induction l1 as [|q l1 IH]; intros prv k0 ks Hnd Hndk Hnk Hl.
  - destruct ks as [|k' ks]; [contradiction|].
    destruct Hl as [(kf & c0 & Hkf & Hc & Hc0 & Hlk & Hrk) Hl].
    assert (c0 = c) as -> by congruence.
    assert (k0 = kl) as -> by congruence. assert (k' = kr) as -> by congruence.
    apply NoDup_cons in Hnd as [Hp2 Hnd2].
    apply NoDup_cons in Hndk as [Hkl2 Hndk]. apply NoDup_cons in Hndk as [Hkr2 Hndk].
    assert (kl <> k /\ kr <> k /\ kl <> kr) as (Hn1 & Hn2 & Hn3).
    { split_and!; intros ->.
      - apply Hnk, list_elem_of_here.
      - apply Hnk, list_elem_of_further, list_elem_of_here.
      - apply Hkl2, list_elem_of_here. }
    destruct (se_a _ _ _ _ _ _ _ He) as (ca & Hca & _ & _ & _ & Hcal & Hcar).
    destruct (se_b _ _ _ _ _ _ _ He) as (cb & Hcb & _ & _ & _ & Hcbl & Hcbr).
    destruct (HK _ _ Hkf) as (kf1 & Hkf1 & Hc1).
    rewrite decide_False, decide_True in Hc1 by congruence.
    destruct (HK _ _ Hk) as (kf2 & Hkf2 & Hc2). rewrite decide_True in Hc2 by reflexivity.
    cbn [app linked length take drop]. split; [|split].
    + exists kf1, ca. rewrite Hc1, Hc. cbn [fst snd]. split_and!; congruence.
    + exists kf2, cb. split_and!; congruence.
    + destruct l2 as [|q l2], ks as [|k'' ks]; try contradiction.
      * destruct Hl as (kf3 & Hkf3 & Hc3).
        destruct (HK _ _ Hkf3) as (kf3' & Hkf3' & Hc3').
        rewrite !decide_False, decide_True in Hc3' by congruence.
        exists kf3'. rewrite Hc3', Hc3. cbn [fst snd]. auto.
      * destruct Hl as [(kf3 & cq & Hkf3 & Hc3 & Hcq & Hlq & Hrq) Hl].
        destruct (HK _ _ Hkf3) as (kf3' & Hkf3' & Hc3').
        rewrite !decide_False, decide_True in Hc3' by congruence.
        assert (q <> p) as Hqp.
        { intros ->. apply Hp2, list_elem_of_here. }
        destruct (se_other _ _ _ _ _ _ _ He q cq Hqp Hcq)
          as (c' & Hcq' & _ & _ & Hlk' & Hrk' & _).
        split.
        { exists kf3', c'. rewrite Hc3', Hc3. cbn [fst snd]. split_and!; congruence. }
        eapply linked_away; try eassumption.
        { intros x Hx ->. apply Hp2, list_elem_of_further, Hx. }
        intros x Hx. split_and!; intros ->.
        -- apply Hnk. do 2 apply list_elem_of_further. exact Hx.
        -- apply Hkl2, list_elem_of_further, Hx.
        -- apply Hkr2, Hx.
  - destruct ks as [|k' ks]; [contradiction|].
    pose proof Hl as Hl0.
    destruct Hl as [(kf & c0 & Hkf & Hc & Hc0 & Hlk & Hrk) Hl].
    cbn [app] in Hnd. apply NoDup_cons in Hnd as [Hq Hnd].
    apply NoDup_cons in Hndk as [Hk0 Hndk].
    destruct (linked_cell _ _ _ _ _ (length l1) p Hl)
      as (c1 & kl1 & kr1 & Hc1 & Hkl1 & Hkr1 & Hil & Hir).
    { rewrite lookup_app_r, Nat.sub_diag by lia. reflexivity. }
    assert (c1 = c) as -> by congruence.
    assert (kl1 = kl) as -> by congruence. assert (kr1 = kr) as -> by congruence.
    apply list_elem_of_lookup_2 in Hil, Hir.
    assert (q <> p) as Hqp.
    { intros ->. apply Hq, elem_of_app. right. apply list_elem_of_here. }
    destruct (se_other _ _ _ _ _ _ _ He q c0 Hqp Hc0)
      as (c' & Hcq' & _ & _ & Hlk' & Hrk' & _).
    destruct (HK _ _ Hkf) as (kf' & Hkf' & Hc').
    rewrite !decide_False in Hc'.
    2:{ intros ->. apply Hk0, list_elem_of_further, Hir. }
    2:{ intros ->. apply Hk0, Hil. }
    2:{ intros ->. apply Hnk, list_elem_of_here. }
    cbn [app linked length take drop]. split.
    + exists kf', c'. split_and!; congruence.
    + apply IH; try assumption.
      intros Hx. apply Hnk, list_elem_of_further, Hx.
Qed.

(** ** The links under the other operations *)

Lemma linked_mono h h' prv k ls ks :
  cell_arena h' = cell_arena h ->
  (forall j kf, keyframe_arena h !! j = Some kf ->
     exists kf', keyframe_arena h' !! j = Some kf' /\ _cells kf' = _cells kf) ->
  linked h prv k ls ks -> linked h' prv k ls ks.
Proof.
  intros Hcells HK. revert prv k ks.
  induction ls as [|q ls IH]; intros prv k [|k' ks] Hl; try contradiction.
  - destruct Hl as (kf & Hkf & Hc). destruct (HK _ _ Hkf) as (kf' & Hkf' & Hc').
    exists kf'. split; congruence.
  - destruct Hl as [(kf & c & Hkf & Hc & Hq & Hlk & Hrk) Hl].
    destruct (HK _ _ Hkf) as (kf' & Hkf' & Hc').
    split; [|auto]. exists kf', c. rewrite Hcells. split_and!; congruence.
Qed.

Lemma dll_unique h prv l1 l2 :
  dll h prv l1 None -> dll h prv l2 None -> hd_error l1 = hd_error l2 -> l1 = l2.
Proof.
  revert prv l2. induction l1 as [|q l1 IH]; intros prv [|q2 l2] H1 H2 Hhd;
    try discriminate; [reflexivity|].
  injection Hhd as <-.
  destruct H1 as [(c1 & Hc1 & _ & Hn1) H1]. destruct H2 as [(c2 & Hc2 & _ & Hn2) H2].
  f_equal. apply (IH (Some q)); [assumption..|].
  rewrite <- !next_of_None. congruence.
Qed.

Lemma well_formed_leaves_eq s ls :
  well_formed s -> dll (heap s) None ls None ->
  head (cells (cage s)) = hd_error ls ->
  BoundingCage.leaves s = Ok ls.
Proof.
  unfold well_formed, BoundingCage.leaves, Cells.begin. intros Hwf Hd Hhd.
  destruct (root (cage s)) as [r|].
  - destruct Hwf as (lk & rk & ls1 & _ & Hd1 & Hnd & Hhd1 & _).
    assert (ls1 = ls) as ->.
    { apply (dll_unique (heap s) None); [assumption..|congruence]. }
    rewrite Hhd. apply (walk_forward _ None); [assumption|].
    apply Nat.lt_succ_r, NoDup_bounded_length; [assumption|].
    intros x Hx. eapply dll_lookup; eassumption.
  - destruct Hwf as [Hnone _]. rewrite Hnone in Hhd |- *.
    destruct ls; [reflexivity|discriminate].
Qed.

Lemma split_internal_lists `{!Geometry} s kf ret s' r ls k0 ks :
  well_formed s ->
  root (cage s) = Some r ->
  BoundingCage.leaves s = Ok ls ->
  linked (heap s) None k0 ls ks ->
  BoundingCage.split_internal s kf = Ok (ret, s') ->
  root (cage s') = Some r /\
  indices (heap s') = indices (heap s) /\
  ((ret = None /\ BoundingCage.leaves s' = Ok ls /\ linked (heap s') None k0 ls ks) \/
   (exists k l1 p l2,
      kf = Some k /\ ret = Some k /\ (k ∉ k0 :: ks) /\
      ls = l1 ++ p :: l2 /\
      BoundingCage.leaves s' =
        Ok (l1 ++ length (cell_arena (heap s)) :: S (length (cell_arena (heap s))) :: l2) /\
      linked (heap s') None k0
        (l1 ++ length (cell_arena (heap s)) :: S (length (cell_arena (heap s))) :: l2)
        (take (length l1) ks ++ k :: drop (length l1) ks) /\
      (exists ca cb,
         cell_arena (heap s') !! length (cell_arena (heap s)) = Some ca /\
         cell_arena (heap s') !! S (length (cell_arena (heap s))) = Some cb /\
         Cell.is_leaf ca = true /\ Cell.is_leaf cb = true /\
         left_keyframe ca = (k0 :: ks) !! length l1 /\
         right_keyframe ca = Some k /\
         left_keyframe cb = Some k /\
         right_keyframe cb = (k0 :: ks) !! S (length l1)) /\
      exists xs lo x hi,
        keyframe_indices (heap s) (k0 :: ks) = Ok xs /\
        increasing xs = true /\
        xs !! length l1 = Some lo /\ xs !! S (length l1) = Some hi /\
        index_at (heap s) (Some k) = Some x /\
        (lo <? x)%dbl = true /\ (x <? hi)%dbl = true)).
Proof.
  intros Hwf Hroot Hls Hl Hs.
  pose proof (split_internal_well_formed _ _ _ _ Hwf Hs) as Hwf'.
  unfold BoundingCage.split_internal in Hs.
  pose proof Hwf as Hwf0. unfold well_formed in Hwf.
  rewrite Hroot in Hs, Hwf.
  destruct Hwf as (lk & rk & ls1 & Ht & Hd & Hnd & Hhd & Htl).
  assert (ls1 = ls) as ->.
  { pose proof (well_formed_leaves_eq _ _ Hwf0 Hd Hhd). congruence. }
  apply bind_Ok in Hs as ([[ret0 h'] mesh'] & Hsplit & Hs).
  destruct (split_in_tree _ _ _ _ _ _ _ _ _ _ _ Ht Hsplit)
    as [(-> & -> & ->)|(-> & p & c & Hp & Hc & Hleaf & Hin & Hsl)].
  - injection Hs as <- <-. cbn. auto 10.
  - destruct Hin as (lo & x & hi & Hlo & Hx & Hhi & Hlox & Hxhi).
    destruct kf as [k|]; [|discriminate].
    apply bind_Ok in Hs as (cs & Hcs & Hs). injection Hs as <- <-.
    apply list_elem_of_split in Hp as (l1 & l2 & ->).
    set (a := length (cell_arena (heap s))) in *.
    assert (split_effect (heap s) h' p c (Some k) a (S a)) as He.
    { pose proof Hd as Hd'. apply dll_app in Hd' as [_ Hpl2]. cbn [dll] in Hpl2.
      destruct Hpl2 as [(c0 & Hc0 & Hprv & Hnxt) _].
      assert (c0 = c) as -> by congruence.
      eapply split_leaf_effect; [eassumption|assumption| |].
      - intros q Hq. rewrite Hprv in Hq. apply prev_of_elem in Hq as [Hq|?]; [|discriminate].
        eapply dll_lookup; [exact Hd|]. apply elem_of_app. auto.
      - intros q Hq. rewrite Hnxt in Hq. apply next_of_elem in Hq as [Hq|?]; [|discriminate].
        eapply dll_lookup; [exact Hd|]. apply elem_of_app. right.
        apply list_elem_of_further, Hq. }
    destruct (cells (cage s)) as [hd0 tl0] eqn:Hcells.
    cbn [head tail] in Hhd, Htl. subst hd0 tl0.
    rewrite (follow_split_ends _ _ _ _ _ _ _ _ _ _ _ _ He Ht Hnd) in Hcs.
    injection Hcs as <-.
    cbn [cage heap root BoundingCage.with_mesh].
    split; [assumption|]. split; [exact (se_indices _ _ _ _ _ _ _ He)|]. right.
    destruct (linked_cell _ _ _ _ _ (length l1) p Hl)
      as (c1 & kl & kr & Hc1 & Hkl & Hkr & Hil & Hir).
    { rewrite lookup_app_r, Nat.sub_diag by lia. reflexivity. }
    assert (c1 = c) as -> by congruence.
    destruct (chain_linked_indices _ _ _ _ _ _ _ (tree_chain _ _ _ _ _ Ht) Hl)
      as (x0 & xs & Hxs & _ & Hinc & _).
    pose proof (increasing_keys_NoDup _ _ _ Hxs Hinc) as Hndk.
    destruct (keyframe_indices_lookup _ _ _ _ _ Hxs Hil) as (kfl & Hkfl & Hxl).
    assert ((k0 :: ks) !! S (length l1) = Some kr) as Hir' by exact Hir.
    destruct (keyframe_indices_lookup _ _ _ _ _ Hxs Hir') as (kfr & Hkfr & Hxr).
    rewrite Hkl in Hlo. rewrite Hkr in Hhi. cbn in Hlo, Hhi.
    rewrite Hkfl in Hlo. rewrite Hkfr in Hhi. cbn in Hlo, Hhi.
    injection Hlo as Hlo. injection Hhi as Hhi. rewrite Hlo in Hxl. rewrite Hhi in Hxr.
    pose proof (between_not_key _ _ _ _ _ _ _ _ Hxs Hinc Hxl Hxr Hx Hlox Hxhi) as Hnk.
    pose proof Hil as Hil0.
    apply list_elem_of_lookup_2 in Hil, Hir'.
    assert (kl <> k /\ k <> kr /\ kl <> kr) as (Hn1 & Hn2 & Hn3).
    { split_and!; try (intros ->; contradiction).
      intros ->. assert (kfr = kfl) as -> by congruence.
      rewrite Hlo in Hhi. rewrite <- Hhi in Hxhi.
      apply ltb_asym in Hlox. congruence. }
    assert (split_links (heap s) h' k kl kr a (S a)) as HK.
    { intros j kfj Hj.
      destruct (split_leaf_cells _ _ _ _ _ _ _ _ _ Hsl Hkl Hkr Hn1 Hn2 Hn3 a eq_refl j kfj Hj)
        as (kf' & Hkf' & _ & Hc'). eauto. }
    assert (is_Some (keyframe_arena (heap s) !! k)) as Hk.
    { cbn in Hx. destruct (keyframe_arena (heap s) !! k); [eauto|discriminate]. }
    pose proof (linked_split _ _ _ _ _ _ _ _ _ _ _ _ _ _ He HK Hc Hkl Hkr Hk Hnd Hndk Hnk Hl)
      as Hl'.
    exists k, l1, p, l2.
    split_and!; try reflexivity; try assumption.
    + apply well_formed_leaves_eq; [exact Hwf'| |reflexivity].
      eapply dll_replace_leaf; eassumption.
    + destruct (se_a _ _ _ _ _ _ _ He) as (ca & Hca & Hlfa & _ & _ & Hcal & Hcar).
      destruct (se_b _ _ _ _ _ _ _ He) as (cb & Hcb & Hlfb & _ & _ & Hcbl & Hcbr).
      exists ca, cb. split_and!; try assumption.
      * rewrite Hcal, Hkl. symmetry. exact Hil0.
      * rewrite Hcbr, Hkr. symmetry. exact Hir.
    + exists (x0 :: xs), lo, x, hi. auto 10.
Qed.

Lemma split_internal_well_linked `{!Geometry} s kf ret s' :
  well_formed s -> well_linked s ->
  BoundingCage.split_internal s kf = Ok (ret, s') ->
  well_linked s'.
Proof.
  intros Hwf Hwl Hs. unfold well_linked in *.
  destruct (root (cage s)) as [r|] eqn:Hroot.
  - destruct Hwl as (ls & k0 & ks & Hls & Hl).
    destruct (split_internal_lists _ _ _ _ _ _ _ _ Hwf Hroot Hls Hl Hs)
      as (-> & _ & [(_ & Hls' & Hl')|(k & l1 & p & l2 & _ & _ & _ & _ & Hls' & Hl' & _)]);
      eauto.
  - unfold BoundingCage.split_internal in Hs. rewrite Hroot in Hs.
    injection Hs as <- <-. rewrite Hroot. exact I.
Qed.

Lemma well_formed_ends s ls :
  well_formed s -> BoundingCage.leaves s = Ok ls ->
  head (cells (cage s)) = hd_error ls /\ tail (cells (cage s)) = last ls.
Proof.
  intros Hwf Hls. pose proof Hwf as Hwf0. unfold well_formed in Hwf.
  destruct (root (cage s)) as [r|] eqn:Hroot.
  - destruct Hwf as (lk & rk & ls1 & _ & Hd & _ & Hhd & Htl).
    pose proof (well_formed_leaves_eq _ _ Hwf0 Hd Hhd).
    assert (ls1 = ls) as -> by congruence. auto.
  - destruct Hwf as [Hhd Htl]. revert Hls.
    unfold BoundingCage.leaves, Cells.begin. rewrite Hhd, Htl. cbn.
    intros [= <-]. auto.
Qed.

Lemma well_linked_mono h' s c' :
  well_formed (mkState h' c') ->
  cell_arena h' = cell_arena (heap s) ->
  (forall j kf, keyframe_arena (heap s) !! j = Some kf ->
     exists kf', keyframe_arena h' !! j = Some kf' /\ _cells kf' = _cells kf) ->
  root c' = root (cage s) ->
  cells c' = cells (cage s) ->
  well_formed s -> well_linked s -> well_linked (mkState h' c').
Proof.
  intros Hwf' Hcells HK Hroot Hcs Hwf. unfold well_linked. cbn [cage heap].
  rewrite Hroot. destruct (root (cage s)); [|auto].
  intros (ls & k0 & ks & Hls & Hl). exists ls, k0, ks. split.
  - apply well_formed_leaves_eq; [assumption| |].
    + apply (dll_mono (heap s)); [assumption|]. apply well_formed_dll; assumption.
    + cbn [cage]. rewrite Hcs. apply well_formed_ends; assumption.
  - eapply linked_mono; eassumption.
Qed.

Lemma keyframe_for_index_well_linked `{!Geometry} s index it s' :
  well_formed s -> well_linked s ->
  BoundingCage.keyframe_for_index s index = Ok (it, s') ->
  well_linked s'.
Proof.
  intros Hwf Hwl Hs.
  pose proof (keyframe_for_index_well_formed _ _ _ _ Hwf Hs) as Hwf'.
  unfold BoundingCage.keyframe_for_index in Hs.
  apply bind_Ok in Hs as (lo & _ & Hs). apply bind_Ok in Hs as (hi & _ & Hs).
  destruct ((index <? lo)%dbl || (hi <? index)%dbl);
    [injection Hs as <- <-; exact Hwl|].
  apply bind_Ok in Hs as (ls & _ & Hs). apply bind_Ok in Hs as ([c|] & _ & Hs);
    [|injection Hs as <- <-; exact Hwl].
  apply bind_Ok in Hs as (lk & _ & Hs). apply bind_Ok in Hs as (rk & _ & Hs).
  destruct (interpolate _ lk rk index) as [[ctr frame] pts].
  injection Hs as <- <-.
  apply (well_linked_mono _ s); auto.
  intros j kf Hj. exists kf. split; [|reflexivity].
  cbn. apply lookup_app_l_Some. exact Hj.
Qed.

Lemma move_point_2d_cells `{!Geometry} h kf i newpos v2 v3 ok kf' :
  KeyFrame.move_point_2d h kf i newpos v2 v3 = Ok (ok, kf') -> _cells kf' = _cells kf.
Proof.
  unfold KeyFrame.move_point_2d. case_bool_decide; [|discriminate].
  repeat match goal with
         | |- context [if ?b then _ else _] => destruct b
         end; intros [= <- <-]; reflexivity.
Qed.

Lemma move_point_2d_well_linked `{!Geometry} s it i newpos v2 v3 ok s' :
  well_formed s -> well_linked s ->
  BoundingCage.move_point_2d s it i newpos v2 v3 = Ok (ok, s') ->
  well_linked s'.
Proof.
  intros Hwf Hwl Hs.
  pose proof (move_point_2d_well_formed _ _ _ _ _ _ _ _ Hwf Hs) as Hwf'.
  unfold BoundingCage.move_point_2d in Hs.
  apply bind_Ok in Hs as (kf & Hkf & Hs).
  apply bind_Ok in Hs as ([ok' kf'] & Hmv & Hs). injection Hs as <- <-.
  apply deref_keyframe_Ok in Hkf as (k & Hit & Hk). rewrite Hit in Hwf' |- *.
  apply (well_linked_mono _ s); auto.
  intros j kfj Hj. cbn. rewrite list_lookup_alter.
  destruct (decide (k = j)) as [<-|Hjk]; rewrite Hj; cbn; eexists;
    (split; [reflexivity|]); [|reflexivity].
  apply move_point_2d_cells in Hmv. congruence.
Qed.

Lemma split_iterator_well_linked `{!Geometry} s it it' s' :
  well_formed s -> well_linked s ->
  BoundingCage.split_iterator s it = Ok (it', s') ->
  well_linked s'.
Proof.
  intros Hwf Hwl Hs. unfold BoundingCage.split_iterator in Hs.
  destruct (keyframe it); [|injection Hs as <- <-; exact Hwl].
  apply bind_Ok in Hs as ([ret s1] & Hsplit & Hs). injection Hs as <- <-.
  eapply split_internal_well_linked; eassumption.
Qed.

Lemma split_well_linked `{!Geometry} s index it s' :
  well_formed s -> well_linked s ->
  BoundingCage.split s index = Ok (it, s') ->
  well_linked s'.
Proof.
  intros Hwf Hwl Hs. unfold BoundingCage.split in Hs.
  apply bind_Ok in Hs as ([it1 s1] & Hk & Hs).
  eapply split_iterator_well_linked; [| |exact Hs].
  - eapply keyframe_for_index_well_formed; eassumption.
  - eapply keyframe_for_index_well_linked; eassumption.
Qed.

Lemma set_skeleton_vertices_well_linked `{!Geometry} s new_SV iters template ok s' :
  well_formed s -> well_linked s ->
  BoundingCage.set_skeleton_vertices s new_SV iters template = Ok (ok, s') ->
  (Z.of_nat (rows new_SV) < 2 ^ 63)%Z ->
  well_linked s'.
Proof.
  intros Hwf Hwl Hs Hmax.
  pose proof (set_skeleton_vertices_well_formed _ _ _ _ _ _ Hwf Hs Hmax) as Hwf'.
  unfold BoundingCage.set_skeleton_vertices in Hs.
  case_bool_decide as Hrows; [injection Hs as <- <-; exact Hwl|].
  destruct (end_frame _ false) as [c0 f0]. destruct (end_frame _ true) as [c1 f1].
  destruct (keyframe_init_mesh true _ _) as [mesh0 i0].
  destruct (keyframe_init_mesh true _ mesh0) as [mesh1 i1].
  cbn [new_keyframe] in Hs.
  apply bind_Ok in Hs as ([r h1] & Hmk & Hs).
  pose proof (make_cell_keyframes _ _ _ _ _ _ _ Hmk) as Hkeys.
  apply make_cell_Ok in Hmk as (-> & Hcells & Hidx).
  cbn [cell_arena keyframe_arena] in Hcells, Hkeys.
  destruct (cell_init_mesh _ _ None mesh1) as [mesh2 mr].
  injection Hs as <- <-.
  set (r := length (cell_arena (heap s))) in *.
  set (k0 := length (keyframe_arena (heap s))) in *.
  assert (exists c, cell_arena (update_cell r (set_cell_mesh mr) h1) !! r = Some c /\
                    left_keyframe c = Some k0 /\ right_keyframe c = Some (S k0) /\
                    prev_cell c = None /\ next_cell c = None) as (c & Hc & Hl & Hr & Hp & Hn).
  { cbn [cell_arena update_cell]. rewrite Hcells, list_lookup_alter_eq.
    rewrite list_lookup_middle by reflexivity. cbn. eexists. split; [reflexivity|].
    cbn. rewrite length_app. cbn. fold k0. replace (k0 + 1) with (S k0) by lia.
    auto 10. }
  unfold well_linked. cbn [heap cage root].
  exists [r], k0, [S k0]. split.
  - apply well_formed_leaves_eq; [exact Hwf'| |reflexivity].
    cbn [dll heap next_of]. split; [|exact I]. exists c. auto.
  - cbn [linked heap]. cbn [update_cell keyframe_arena].
    rewrite length_app in Hkeys. cbn [length] in Hkeys. fold k0 in Hkeys.
    replace (k0 + 1) with (S k0) in Hkeys by lia.
    rewrite Hkeys.
    repeat (rewrite lookup_alter_opt || rewrite lookup_snoc2). fold k0.
    split.
    + repeat case_decide; simplify_eq; try lia.
      eexists _, c. split; [reflexivity|]. cbn. auto.
    + repeat case_decide; simplify_eq; try lia.
      eexists. split; [reflexivity|]. cbn. auto.
Qed.

(** The key frames of every reachable cage refer back to its leaf cells. *)
Lemma reachable_well_linked `{!Geometry} s : reachable s -> well_linked s.
Proof.
  induction 1 as [|s ? ? ? ? ? Hr|s Hr|s ? ? ? Hr|s ? ? ? Hr|s ? ? ? Hr|s ? ? ? ? ? ? ? Hr];
    try apply reachable_well_formed in Hr.
  - exact I.
  - eapply set_skeleton_vertices_well_linked; eassumption.
  - exact I.
  - eapply split_well_linked; eassumption.
  - eapply split_iterator_well_linked; eassumption.
  - eapply keyframe_for_index_well_linked; eassumption.
  - eapply move_point_2d_well_linked; eassumption.
Qed.

(** ** The key frames of a reachable cage *)

Lemma linked_last_cell h prv k ls q ks :
  linked h prv k (ls ++ [q]) ks ->
  exists c, cell_arena h !! q = Some c /\ right_keyframe c = last (k :: ks).
Proof.
  intros Hl.
  destruct (linked_cell _ _ _ _ _ (length ls) q Hl) as (c & kl & kr & Hc & _ & Hr & _ & Hi).
  { rewrite lookup_app_r, Nat.sub_diag by lia. reflexivity. }
  exists c. split; [assumption|]. rewrite Hr.
  apply linked_length in Hl. rewrite length_app in Hl. cbn in Hl.
  destruct ks as [|k' ks _] using rev_ind; [discriminate|].
  rewrite length_app in Hl. cbn in Hl.
  rewrite lookup_app_r in Hi by lia.
  replace (length ls - length ks) with 0 in Hi by lia. cbn in Hi.
  rewrite app_comm_cons, last_snoc. congruence.
Qed.

Lemma linked_keyframes s r ls k ks :
  well_formed s ->
  root (cage s) = Some r ->
  BoundingCage.leaves s = Ok ls ->
  linked (heap s) None k ls ks ->
  exists rc,
    ls <> [] /\
    chain (heap s) (Some k) ls (last (k :: ks)) /\
    cell_arena (heap s) !! r = Some rc /\
    left_keyframe rc = Some k /\ right_keyframe rc = last (k :: ks) /\
    keyframes_forward s = Ok (k :: ks) /\
    keyframes_backward s = Ok (reverse (k :: ks)).
Proof.
  intros Hwf Hroot Hls Hl. pose proof Hwf as Hwf0. unfold well_formed in Hwf.
  unfold keyframes_forward, keyframes_backward, BoundingCage.keyframes_begin,
    BoundingCage.keyframes_rbegin.
  rewrite Hroot in Hwf.
  destruct Hwf as (lk & rk & ls1 & Ht & Hd & Hnd & Hhd & Htl).
  assert (ls1 = ls) as ->.
  { pose proof (well_formed_leaves_eq _ _ Hwf0 Hd Hhd). congruence. }
  assert (length ls <= length (cell_arena (heap s))) as Hlen.
  { apply NoDup_bounded_length; [assumption|].
    intros q Hq. eapply dll_lookup; eassumption. }
  pose proof (tree_nonempty _ _ _ _ _ Ht) as Hne.
  pose proof (tree_chain _ _ _ _ _ Ht) as Hch.
  destruct (chain_linked_indices _ _ _ _ _ _ _ Hch Hl) as (_ & _ & _ & _ & _ & Hends).
  destruct (tree_root _ _ _ _ _ Ht) as (rc & Hrc & Hrl & Hrr & _).
  destruct (Hends Hne) as [-> ->].
  exists rc. split_and!; try assumption.
  - rewrite Hhd. destruct ls as [|p ls]; [contradiction|].
    destruct ks as [|k' ks]; [contradiction|].
    pose proof Hl as [(kf & c & _ & _ & Hp & Hlk & _) _].
    cbn [hd_error]. unfold deref_cell. rewrite Hp. cbn [mbind result_bind].
    rewrite Hlk. apply (linked_walk_forward _ None _ (p :: ls)); [assumption|].
    cbn [length] in *. lia.
  - rewrite Htl. destruct ls as [|q ls _] using rev_ind; [contradiction|].
    rewrite last_snoc.
    destruct (linked_last_cell _ _ _ _ _ _ Hl) as (c & Hq & Hrk).
    unfold deref_cell. rewrite Hq. cbn [mbind result_bind]. rewrite Hrk.
    rewrite length_app in Hlen. cbn [length] in Hlen.
    replace (2 + length (cell_arena (heap s))) with
      (length (ls ++ [q]) + (2 + length (cell_arena (heap s)) - length (ls ++ [q])))
      by (rewrite length_app; cbn [length]; lia).
    rewrite (linked_walk_backward _ _ _ _ _ _ Hl).
    rewrite (linked_first_end _ _ _ _ _ Hl) by (rewrite length_app; cbn [length]; lia).
    cbn [mbind result_bind]. rewrite reverse_cons. reflexivity.
Qed.

Lemma well_linked_keyframes s :
  well_formed s -> well_linked s ->
  match root (cage s) with
  | None =>
      BoundingCage.leaves s = Ok [] /\
      keyframes_forward s = Ok [] /\ keyframes_backward s = Ok []
  | Some r =>
      exists ls k ks rc,
        ls <> [] /\
        BoundingCage.leaves s = Ok ls /\
        linked (heap s) None k ls ks /\
        chain (heap s) (Some k) ls (last (k :: ks)) /\
        cell_arena (heap s) !! r = Some rc /\
        left_keyframe rc = Some k /\ right_keyframe rc = last (k :: ks) /\
        keyframes_forward s = Ok (k :: ks) /\
        keyframes_backward s = Ok (reverse (k :: ks))
  end.
Proof.
  intros Hwf Hwl. unfold well_linked in Hwl.
  destruct (root (cage s)) as [r|] eqn:Hroot.
  - destruct Hwl as (ls & k & ks & Hls & Hl).
    destruct (linked_keyframes _ _ _ _ _ Hwf Hroot Hls Hl) as (rc & ? & ? & ? & ? & ? & ? & ?).
    exists ls, k, ks, rc. auto 10.
  - unfold well_formed in Hwf. rewrite Hroot in Hwf. destruct Hwf as [Hhd Htl].
    unfold keyframes_forward, keyframes_backward, BoundingCage.keyframes_begin,
      BoundingCage.keyframes_rbegin, BoundingCage.leaves, Cells.begin.
    rewrite Hhd, Htl. auto.
Qed.

Lemma keyframe_indices_length h ks xs :
  keyframe_indices h ks = Ok xs -> length xs = length ks.
Proof.
  revert xs. induction ks as [|k ks IH]; intros xs Hxs.
  - injection Hxs as <-. reflexivity.
  - cbn [keyframe_indices] in Hxs. apply bind_Ok in Hxs as (kf & _ & Hxs).
    apply bind_Ok in Hxs as (rest & Hrest & Hxs). injection Hxs as <-.
    cbn. f_equal. auto.
Qed.

(** X2. In every reachable state the loop from [keyframes.begin()] to
    [keyframes.end()] with [++] ends and meets key frames with strictly
    increasing indices; the loop from [keyframes.rbegin()] with [--] meets
    the same key frames in the opposite order; and a cage with a root has
    one key frame more than it has leaf cells, an empty cage none. *)
Theorem keyframe_list_ordered `{!Geometry} (s : State) :
  reachable s ->
  exists ks xs n,
    keyframes_forward s = Ok ks /\
    keyframes_backward s = Ok (reverse ks) /\
    keyframe_indices (heap s) ks = Ok xs /\
    increasing xs = true /\
    (forall i j x y, i < j -> xs !! i = Some x -> xs !! j = Some y ->
       (x <? y)%dbl = true) /\
    BoundingCage.leaf_count s = Ok n /\
    length ks = (if root (cage s) is Some _ then S n else 0).
Proof.
  intros Hr.
  pose proof (well_linked_keyframes s (reachable_well_formed _ Hr)
                (reachable_well_linked _ Hr)) as Hk.
  unfold BoundingCage.leaf_count. destruct (root (cage s)) as [r|].
  - destruct Hk as (ls & k & ks & rc & _ & Hls & Hl & Hch & _ & _ & _ & Hf & Hb).
    destruct (chain_linked_indices _ _ _ _ _ _ _ Hch Hl) as (x & xs & Hxs & _ & Hinc & _).
    exists (k :: ks), (x :: xs), (length ls). rewrite Hls.
    split_and!; try assumption; try reflexivity.
    + apply increasing_pairwise, Hinc.
    + cbn. f_equal. eapply linked_length; eassumption.
  - destruct Hk as (Hls & Hf & Hb). exists [], [], 0. rewrite Hls.
    split_and!; try assumption; try reflexivity. intros i j x y _ Hx. discriminate.
Qed.

Lemma keyframe_list_ordered_witness :
  exists ks xs n,
    keyframes_forward state_two_cells = Ok ks /\
    keyframes_backward state_two_cells = Ok (reverse ks) /\
    keyframe_indices (heap state_two_cells) ks = Ok xs /\
    increasing xs = true /\
    (forall i j x y, i < j -> xs !! i = Some x -> xs !! j = Some y ->
       (x <? y)%dbl = true) /\
    BoundingCage.leaf_count state_two_cells = Ok n /\
    length ks = (if root (cage state_two_cells) is Some _ then S n else 0).
Proof.
  exact (@keyframe_list_ordered example_geometry state_two_cells
           state_two_cells_reachable).
Defined.

(** X3. In a reachable cage [++] moves a key frame iterator from the key
    frame at position [i] of the key frame list to the one at position
    [i + 1], and to the end iterator from the last key frame; [--] moves
    it to the key frame at position [i - 1], and to the end iterator from
    the first one.  Neither call faults at a key frame of the cage, and
    between two key frames each operator undoes the other. *)
Theorem keyframe_iterator_steps `{!Geometry} (s : State) (ks : list keyframe_ptr)
    (i : nat) (k : keyframe_ptr) :
  reachable s ->
  keyframes_forward s = Ok ks ->
  ks !! i = Some k ->
  KeyFrameIterator.incr (heap s) (mkKeyFrameIterator (Some k)) =
    Ok (mkKeyFrameIterator (ks !! S i)) /\
  KeyFrameIterator.decr (heap s) (mkKeyFrameIterator (Some k)) =
    Ok (mkKeyFrameIterator (match i with 0 => None | S j => ks !! j end)).
Proof.
  intros Hr Hks Hi.
  pose proof (well_linked_keyframes s (reachable_well_formed _ Hr)
                (reachable_well_linked _ Hr)) as Hk.
  destruct (root (cage s)) as [r|].
  2:{ destruct Hk as (_ & Hf & _). rewrite Hf in Hks. injection Hks as <-. discriminate. }
  destruct Hk as (ls & k0 & ks0 & rc & _ & _ & Hl & _ & _ & _ & _ & Hf & _).
  rewrite Hf in Hks. injection Hks as <-.
  destruct (linked_keyframe _ _ _ _ _ _ _ Hl Hi) as (kf & Hkf & Hc).
  pose proof (linked_length _ _ _ _ _ Hl) as Hlen.
  unfold KeyFrameIterator.incr, KeyFrameIterator.decr, deref_keyframe.
  cbn [keyframe]. rewrite Hkf. cbn [mbind result_bind]. rewrite Hc. cbn [fst snd].
  change ((k0 :: ks0) !! S i) with (ks0 !! i).
  split.
  - destruct (ls !! i) as [p|] eqn:Hp.
    + destruct (linked_cell _ _ _ _ _ _ _ Hl Hp) as (c & kl & kr & Hcp & _ & Hrk & _ & Hkr).
      rewrite (lock_live _ _ _ Hcp). unfold deref_cell. rewrite Hcp.
      cbn. rewrite Hrk, Hkr. reflexivity.
    + cbn. apply lookup_ge_None in Hp.
      rewrite (lookup_ge_None_2 ks0) by lia. reflexivity.
  - destruct i as [|j]; [reflexivity|].
    destruct (ls !! j) as [p|] eqn:Hp.
    + destruct (linked_cell _ _ _ _ _ _ _ Hl Hp) as (c & kl & kr & Hcp & Hlk & _ & Hkl & _).
      rewrite (lock_live _ _ _ Hcp). unfold deref_cell. rewrite Hcp.
      cbn. rewrite Hlk, Hkl. reflexivity.
    + apply lookup_ge_None in Hp. apply lookup_lt_Some in Hi. cbn in Hi. lia.
Qed.

Lemma keyframe_iterator_steps_witness :
  KeyFrameIterator.incr (heap state_two_cells) (mkKeyFrameIterator (Some 2)) =
    Ok (mkKeyFrameIterator (Some 1)) /\
  KeyFrameIterator.decr (heap state_two_cells) (mkKeyFrameIterator (Some 2)) =
    Ok (mkKeyFrameIterator (Some 0)).
Proof.
  exact (@keyframe_iterator_steps example_geometry state_two_cells [0; 2; 1] 1 2
           state_two_cells_reachable eq_refl eq_refl).
Defined.

(** X4. In a reachable cage the leaf cells tile the index range: the leaf
    at position [i] of the leaf list lies between the key frames at the
    positions [i] and [i + 1] of the key frame list, so that neighbouring
    leaves share a key frame, and the first and the last key frame are at
    [min_index()] and [max_index()]. *)
Theorem leaves_tile_index_range `{!Geometry} (s : State) (ls : list cell_ptr)
    (ks : list keyframe_ptr) (xs : list double) :
  reachable s ->
  BoundingCage.leaves s = Ok ls ->
  keyframes_forward s = Ok ks ->
  keyframe_indices (heap s) ks = Ok xs ->
  (forall i p, ls !! i = Some p ->
     exists c lo hi,
       cell_arena (heap s) !! p = Some c /\
       left_keyframe c = ks !! i /\ right_keyframe c = ks !! S i /\
       xs !! i = Some lo /\ xs !! S i = Some hi /\
       Cell.min_index (heap s) c = Ok lo /\ Cell.max_index (heap s) c = Ok hi) /\
  (is_Some (root (cage s)) ->
     exists lo hi,
       hd_error xs = Some lo /\ last xs = Some hi /\
       BoundingCage.min_index (heap s) (cage s) = Ok lo /\
       BoundingCage.max_index (heap s) (cage s) = Ok hi).
Proof.
  intros Hr Hls Hks Hxs.
  pose proof (reachable_well_formed _ Hr) as Hwf.
  pose proof (well_linked_keyframes s Hwf (reachable_well_linked _ Hr)) as Hk.
  destruct (root (cage s)) as [r|] eqn:Hroot.
  2:{ destruct Hk as (Hls' & _). rewrite Hls' in Hls. injection Hls as <-.
      split; [intros i p Hi; discriminate|]. intros [? ?]. discriminate. }
  destruct Hk as (ls0 & k0 & ks0 & rc & _ & Hls0 & Hl & _ & Hrc & Hrl & Hrr & Hf & _).
  rewrite Hls0 in Hls. injection Hls as <-. rewrite Hf in Hks. injection Hks as <-.
  split.
  - intros i p Hi.
    destruct (linked_cell _ _ _ _ _ _ _ Hl Hi) as (c & kl & kr & Hc & Hlk & Hrk & Hkl & Hkr).
    assert ((k0 :: ks0) !! S i = Some kr) as Hkr' by exact Hkr.
    destruct (keyframe_indices_lookup _ _ _ _ _ Hxs Hkl) as (kfl & Hkfl & Hxl).
    destruct (keyframe_indices_lookup _ _ _ _ _ Hxs Hkr') as (kfr & Hkfr & Hxr).
    exists c, (_index kfl), (_index kfr). split_and!; try assumption; try congruence.
    + unfold Cell.min_index, deref_keyframe. rewrite Hlk, Hkfl. reflexivity.
    + unfold Cell.max_index, deref_keyframe. rewrite Hrk, Hkfr. reflexivity.
  - intros _.
    destruct (well_formed_min_max_index _ _ Hwf Hroot)
      as (rc' & lk & rk & Hrc' & Hlk & Hrk & _ & Hmin & Hmax).
    assert (rc' = rc) as -> by congruence.
    exists (KeyFrame.index lk), (KeyFrame.index rk). split_and!; try assumption.
    + destruct (keyframe_indices_lookup _ _ _ 0 k0 Hxs eq_refl) as (kf & Hkf & Hx).
      rewrite Hrl in Hlk. cbn in Hlk. rewrite Hkf in Hlk. injection Hlk as <-.
      destruct xs; [discriminate|]. exact Hx.
    + destruct (last (k0 :: ks0)) as [kz|] eqn:Hlast; [|rewrite Hrr in Hrk; discriminate].
      rewrite last_lookup in Hlast. rewrite last_lookup.
      destruct (keyframe_indices_lookup _ _ _ _ _ Hxs Hlast) as (kf & Hkf & Hx).
      rewrite Hrr in Hrk. cbn in Hrk. rewrite Hkf in Hrk. injection Hrk as <-.
      rewrite (keyframe_indices_length _ _ _ Hxs). exact Hx.
Qed.

Lemma leaves_tile_index_range_witness :
  (forall i p, [1; 2] !! i = Some p ->
     exists c lo hi,
       cell_arena (heap state_two_cells) !! p = Some c /\
       left_keyframe c = [0; 2; 1] !! i /\ right_keyframe c = [0; 2; 1] !! S i /\
       [0; 2; 4]%float !! i = Some lo /\ [0; 2; 4]%float !! S i = Some hi /\
       Cell.min_index (heap state_two_cells) c = Ok lo /\
       Cell.max_index (heap state_two_cells) c = Ok hi) /\
  (is_Some (root (cage state_two_cells)) ->
     exists lo hi,
       hd_error [0; 2; 4]%float = Some lo /\ last [0; 2; 4]%float = Some hi /\
       BoundingCage.min_index (heap state_two_cells) (cage state_two_cells) = Ok lo /\
       BoundingCage.max_index (heap state_two_cells) (cage state_two_cells) = Ok hi).
Proof.
  exact (@leaves_tile_index_range example_geometry state_two_cells [1; 2] [0; 2; 1]
           [0; 2; 4]%float state_two_cells_reachable eq_refl eq_refl eq_refl).
Defined.

(** ** What a split installs *)

Lemma keyframe_for_index_effect `{!Geometry} s index it s1 :
  BoundingCage.keyframe_for_index s index = Ok (it, s1) ->
  (it = BoundingCage.keyframes_end /\ s1 = s) \/
  (exists kf,
     it = mkKeyFrameIterator (Some (length (keyframe_arena (heap s)))) /\
     s1 = mkState (new_keyframe kf (heap s)).2 (cage s) /\ _index kf = index).
Proof.
  intros Hs. unfold BoundingCage.keyframe_for_index in Hs.
  apply bind_Ok in Hs as (lo & _ & Hs). apply bind_Ok in Hs as (hi & _ & Hs).
  destruct ((index <? lo)%dbl || (hi <? index)%dbl);
    [injection Hs as <- <-; auto|].
  apply bind_Ok in Hs as (ls & _ & Hs). apply bind_Ok in Hs as ([c|] & _ & Hs);
    [|injection Hs as <- <-; auto].
  apply bind_Ok in Hs as (lk & _ & Hs). apply bind_Ok in Hs as (rk & _ & Hs).
  destruct (interpolate _ lk rk index) as [[ctr frame] pts].
  injection Hs as <- <-. right. eexists. split_and!; reflexivity.
Qed.

Lemma keyframe_indices_mono h h' ks xs :
  (forall j kf, keyframe_arena h !! j = Some kf -> keyframe_arena h' !! j = Some kf) ->
  keyframe_indices h ks = Ok xs -> keyframe_indices h' ks = Ok xs.
Proof.
  intros Hm. revert xs. induction ks as [|k ks IH]; intros xs Hxs; [exact Hxs|].
  cbn [keyframe_indices] in Hxs |- *. apply bind_Ok in Hxs as (kf & Hkf & Hxs).
  apply bind_Ok in Hxs as (rest & Hrest & Hxs). injection Hxs as <-.
  apply deref_keyframe_Ok in Hkf as (j & [= <-] & Hj).
  unfold deref_keyframe. rewrite (Hm _ _ Hj). cbn [mbind result_bind].
  rewrite (IH _ Hrest). reflexivity.
Qed.

(** What [split(index)] does to the two lists of a reachable cage. *)
Lemma split_lists `{!Geometry} (s : State) (index : double)
    (it : KeyFrameIterator) (s' : State) (ls : list cell_ptr) (ks : list keyframe_ptr) :
  reachable s ->
  BoundingCage.leaves s = Ok ls ->
  keyframes_forward s = Ok ks ->
  BoundingCage.split s index = Ok (it, s') ->
  match keyframe it with
  | None =>
      BoundingCage.leaves s' = Ok ls /\ keyframes_forward s' = Ok ks
  | Some k =>
      exists kf l1 p l2 ca cb,
        deref_keyframe (heap s') (Some k) = Ok kf /\
        KeyFrame.index kf = index /\
        (k ∉ ks) /\
        ls = l1 ++ p :: l2 /\
        BoundingCage.leaves s' =
          Ok (l1 ++ length (cell_arena (heap s)) :: S (length (cell_arena (heap s))) :: l2) /\
        keyframes_forward s' =
          Ok (take (S (length l1)) ks ++ k :: drop (S (length l1)) ks) /\
        (length (cell_arena (heap s)) ∉ ls) /\
        (S (length (cell_arena (heap s))) ∉ ls) /\
        deref_cell (heap s') (Some (length (cell_arena (heap s)))) = Ok ca /\
        deref_cell (heap s') (Some (S (length (cell_arena (heap s))))) = Ok cb /\
        Cell.is_leaf ca = true /\ Cell.is_leaf cb = true /\
        left_keyframe ca = ks !! length l1 /\
        right_keyframe ca = Some k /\
        left_keyframe cb = Some k /\
        right_keyframe cb = ks !! S (length l1) /\
        exists xs lo hi,
          keyframe_indices (heap s) ks = Ok xs /\
          increasing xs = true /\
          xs !! length l1 = Some lo /\ xs !! S (length l1) = Some hi /\
          (lo <? index)%dbl = true /\ (index <? hi)%dbl = true
  end.
Proof.
  intros Hr Hls Hks Hs.
  pose proof (reachable_well_formed _ Hr) as Hwf.
  pose proof (well_linked_keyframes s Hwf (reachable_well_linked _ Hr)) as Hk.
  unfold BoundingCage.split in Hs.
  apply bind_Ok in Hs as ([it1 s1] & Hkfi & Hs).
  pose proof (reach_keyframe_for_index _ _ _ _ Hr Hkfi) as Hr1.
  pose proof (reachable_well_formed _ Hr1) as Hwf1.
  destruct (keyframe_for_index_effect _ _ _ _ Hkfi) as [[-> ->]|(kf1 & -> & Hs1 & Hidx)].
  { cbn in Hs. injection Hs as <- <-. cbn. auto. }
  unfold BoundingCage.split_iterator in Hs. cbn [keyframe] in Hs.
  apply bind_Ok in Hs as ([ret s2] & Hsplit & Hs). injection Hs as <- <-.
  cbn [keyframe].
  set (k1 := length (keyframe_arena (heap s))) in *.
  assert (cell_arena (heap s1) = cell_arena (heap s) /\ cage s1 = cage s /\
          keyframe_arena (heap s1) = keyframe_arena (heap s) ++ [kf1]) as (Hcells & Hcage & Hkeys).
  { rewrite Hs1. auto. }
  assert (BoundingCage.leaves s1 = Ok ls) as Hls1.
  { apply well_formed_leaves_eq; [assumption| |].
    - apply (dll_mono (heap s)); [assumption|]. apply well_formed_dll; assumption.
    - rewrite Hcage. apply well_formed_ends; assumption. }
  destruct (root (cage s)) as [r|] eqn:Hroot.
  2:{ unfold BoundingCage.split_internal in Hsplit. rewrite Hcage, Hroot in Hsplit.
      injection Hsplit as <- <-. split; [assumption|].
      destruct Hk as (_ & Hf & _).
      pose proof (well_linked_keyframes s1 Hwf1 (reachable_well_linked _ Hr1)) as Hk1.
      rewrite Hcage, Hroot in Hk1. destruct Hk1 as (_ & Hf1 & _). congruence. }
  destruct Hk as (ls0 & k0 & ks0 & rc & _ & Hls0 & Hl & _ & _ & _ & _ & Hf & _).
  assert (ls0 = ls) as -> by congruence.
  assert (ks = k0 :: ks0) as -> by congruence.
  assert (linked (heap s1) None k0 ls ks0) as Hl1.
  { apply (linked_mono (heap s)); [assumption| |assumption].
    intros j kf Hj. exists kf. split; [|reflexivity].
    rewrite Hkeys. apply lookup_app_l_Some. exact Hj. }
  assert (root (cage s1) = Some r) as Hroot1 by congruence.
  pose proof (split_internal_well_formed _ _ _ _ Hwf1 Hsplit) as Hwf2.
  destruct (split_internal_lists _ _ _ _ _ _ _ _ Hwf1 Hroot1 Hls1 Hl1 Hsplit)
    as (Hroot2 & Hind & [(-> & Hls2 & Hl2)|(k & l1 & p & l2 & [= <-] & -> & Hnk & -> & Hls2 & Hl2 & Hnew & Hxs)]).
  - split; [assumption|].
    destruct (linked_keyframes _ _ _ _ _ Hwf2 Hroot2 Hls2 Hl2) as (_ & _ & _ & _ & _ & _ & ? & _).
    assumption.
  - destruct (linked_keyframes _ _ _ _ _ Hwf2 Hroot2 Hls2 Hl2)
      as (_ & _ & _ & _ & _ & _ & Hf2 & _).
    assert (index_at (heap s2) (Some k1) = Some index) as Hat.
    { rewrite (index_at_ext (heap s1) (heap s2)) by assumption.
      cbn. rewrite Hkeys. unfold k1. rewrite list_lookup_middle by reflexivity.
      cbn. congruence. }
    destruct (index_at_deref _ _ _ Hat) as (kf & Hkf & Hkfx).
    rewrite Hcells in Hls2, Hl2, Hnew.
    destruct Hnew as (ca & cb & Hca & Hcb & Hlfa & Hlfb & Hcal & Hcar & Hcbl & Hcbr).
    assert (forall q, q ∈ l1 ++ p :: l2 -> q < length (cell_arena (heap s))) as Hold.
    { intros q Hq. eapply dll_lookup; [|exact Hq]. apply well_formed_dll; eassumption. }
    exists kf, l1, p, l2, ca, cb. split_and!; try assumption; try reflexivity.
    { intros Hq. apply Hold in Hq. lia. }
    { intros Hq. apply Hold in Hq. lia. }
    { unfold deref_cell. rewrite Hca. reflexivity. }
    { unfold deref_cell. rewrite Hcb. reflexivity. }
    destruct Hxs as (xs & lo & x & hi & Hxs & Hinc & Hlo & Hhi & Hx & Hlox & Hxhi).
    assert (x = index) as ->.
    { cbn in Hx. rewrite Hkeys in Hx. unfold k1 in Hx.
      rewrite list_lookup_middle in Hx by reflexivity. cbn in Hx. congruence. }
    exists xs, lo, hi. split_and!; try assumption.
    destruct (chain_linked_indices (heap s) (Some k0) (l1 ++ p :: l2)
                (last (k0 :: ks0)) None k0 ks0) as (x0 & xs0 & Hxs0 & _); [|assumption|].
    { destruct (linked_keyframes _ _ _ _ _ Hwf Hroot Hls Hl) as (_ & _ & ? & _). assumption. }
    assert (keyframe_indices (heap s1) (k0 :: ks0) = Ok (x0 :: xs0)) as Hxs1; [|congruence].
    apply (keyframe_indices_mono (heap s)); [|assumption].
    intros j kfj Hj. rewrite Hkeys. apply lookup_app_l_Some. exact Hj.
Qed.

(** X5. In a reachable cage a call [split(index)] that returns an iterator
    at a key frame has replaced one leaf cell [p] by two new ones in the
    leaf list and has put that key frame, which is a new one with exactly
    the index asked for, into the key frame list, with the other cells and
    key frames kept in their order.  The two new cells are the two the
    call has allocated, the first past the cells there were and the one
    after it, neither a leaf before; both are leaves, the first from the
    key frame on the left of [p] to the new key frame and the second from
    the new key frame to the one on the right of [p].  A call that
    returns the end iterator has left both lists as they were. *)
Theorem split_installs_keyframe `{!Geometry} (s : State) (index : double)
    (it : KeyFrameIterator) (s' : State) (ls : list cell_ptr) (ks : list keyframe_ptr) :
  reachable s ->
  BoundingCage.leaves s = Ok ls ->
  keyframes_forward s = Ok ks ->
  BoundingCage.split s index = Ok (it, s') ->
  match keyframe it with
  | None =>
      BoundingCage.leaves s' = Ok ls /\ keyframes_forward s' = Ok ks
  | Some k =>
      exists kf l1 p l2 ca cb,
        deref_keyframe (heap s') (Some k) = Ok kf /\
        KeyFrame.index kf = index /\
        (k ∉ ks) /\
        ls = l1 ++ p :: l2 /\
        BoundingCage.leaves s' =
          Ok (l1 ++ length (cell_arena (heap s)) :: S (length (cell_arena (heap s))) :: l2) /\
        keyframes_forward s' =
          Ok (take (S (length l1)) ks ++ k :: drop (S (length l1)) ks) /\
        (length (cell_arena (heap s)) ∉ ls) /\
        (S (length (cell_arena (heap s))) ∉ ls) /\
        deref_cell (heap s') (Some (length (cell_arena (heap s)))) = Ok ca /\
        deref_cell (heap s') (Some (S (length (cell_arena (heap s))))) = Ok cb /\
        Cell.is_leaf ca = true /\ Cell.is_leaf cb = true /\
        left_keyframe ca = ks !! length l1 /\
        right_keyframe ca = Some k /\
        left_keyframe cb = Some k /\
        right_keyframe cb = ks !! S (length l1)
  end.
Proof.
  intros Hr Hls Hks Hs. pose proof (split_lists _ _ _ _ _ _ Hr Hls Hks Hs) as Hsplit.
  destruct (keyframe it) as [k|]; [|exact Hsplit].
  destruct Hsplit as (kf & l1 & p & l2 & ca & cb & Hsplit).
  exists kf, l1, p, l2, ca, cb. decompose [and] Hsplit. split_and!; assumption.
Qed.

Lemma split_installs_keyframe_witness :
  exists kf l1 p l2 ca cb,
    deref_keyframe (heap state_two_cells) (Some 2) = Ok kf /\
    KeyFrame.index kf = 2%float /\
    (2 ∉ [0; 1]) /\
    [0] = l1 ++ p :: l2 /\
    BoundingCage.leaves state_two_cells = Ok (l1 ++ 1 :: 2 :: l2) /\
    keyframes_forward state_two_cells =
      Ok (take (S (length l1)) [0; 1] ++ 2 :: drop (S (length l1)) [0; 1]) /\
    (1 ∉ [0]) /\ (2 ∉ [0]) /\
    deref_cell (heap state_two_cells) (Some 1) = Ok ca /\
    deref_cell (heap state_two_cells) (Some 2) = Ok cb /\
    Cell.is_leaf ca = true /\ Cell.is_leaf cb = true /\
    left_keyframe ca = [0; 1] !! length l1 /\
    right_keyframe ca = Some 2 /\
    left_keyframe cb = Some 2 /\
    right_keyframe cb = [0; 1] !! S (length l1).
Proof.
  exact (@split_installs_keyframe example_geometry state_one_cell 2%float
           (mkKeyFrameIterator (Some 2)) state_two_cells [0] [0; 1]
           (reach_set_skeleton_vertices _ _ _ _ _ _ reach_new
              (eq_refl : @BoundingCage.set_skeleton_vertices example_geometry state_new
                           skeleton5 0 unit_square = Ok (true, state_one_cell))
              ltac:(vm_compute; reflexivity))
           eq_refl eq_refl eq_refl).
Defined.

(** X6. In a reachable cage [split(index)] with an index equal ([==])
    to the index of a key frame of the key frame list returns the end
    iterator and leaves the leaf list and the key frame list as they
    were: no second key frame is installed at an index, and a split
    repeated at the same index does nothing. *)
Theorem split_at_keyframe_rejected `{!Geometry} (s : State) (index : double)
    (ks : list keyframe_ptr) (xs : list double) (y : double) :
  reachable s ->
  keyframes_forward s = Ok ks ->
  keyframe_indices (heap s) ks = Ok xs ->
  y ∈ xs ->
  (index =? y)%dbl = true ->
  exists s',
    BoundingCage.split s index = Ok (BoundingCage.keyframes_end, s') /\
    BoundingCage.leaves s' = BoundingCage.leaves s /\
    keyframes_forward s' = Ok ks.
Proof.
  intros Hr Hks Hxs Hy Heq.
  pose proof (reachable_well_formed _ Hr) as Hwf.
  destruct (split_index_returns _ index Hwf) as [[it s'] Hs].
  destruct (well_formed_leaves _ Hwf) as (ls & los & Hls & _).
  pose proof (split_lists _ _ _ _ _ _ Hr Hls Hks Hs) as Hsplit.
  destruct it as [[k|]]; cbn [keyframe] in Hsplit.
  - exfalso.
    destruct Hsplit as (kf & l1 & p & l2 & ca & cb & _ & _ & _ & _ & _ & _ &
                        _ & _ & _ & _ & _ & _ & _ & _ & _ & _ &
                        xs' & lo & hi & Hxs' & Hinc & Hlo & Hhi & Hlox & Hxhi).
    assert (xs' = xs) as -> by congruence.
    apply list_elem_of_lookup in Hy as (j & Hj).
    rewrite (eqb_ltb_r lo index y Heq) in Hlox.
    rewrite (eqb_ltb_l index y hi Heq) in Hxhi.
    destruct (Nat.lt_trichotomy j (length l1)) as [Hlt|[->|Hlt]].
    + pose proof (increasing_pairwise _ Hinc _ _ _ _ Hlt Hj Hlo) as E.
      apply ltb_asym in E. congruence.
    + assert (y = lo) as -> by congruence. rewrite ltb_irrefl in Hlox. discriminate.
    + destruct (decide (j = S (length l1))) as [->|Hne].
      * assert (y = hi) as -> by congruence. rewrite ltb_irrefl in Hxhi. discriminate.
      * assert (S (length l1) < j) as Hlt' by lia.
        pose proof (increasing_pairwise _ Hinc _ _ _ _ Hlt' Hhi Hj) as E.
        apply ltb_asym in E. congruence.
  - exists s'. destruct Hsplit as [Hls' Hks']. split; [exact Hs|].
    split; congruence.
Qed.

Lemma split_at_keyframe_rejected_witness :
  exists s',
    @BoundingCage.split example_geometry state_two_cells 2%float =
      Ok (BoundingCage.keyframes_end, s') /\
    BoundingCage.leaves s' = BoundingCage.leaves state_two_cells /\
    keyframes_forward s' = Ok [0; 2; 1].
Proof.
  apply (@split_at_keyframe_rejected example_geometry state_two_cells 2%float
           [0; 2; 1] [0; 2; 4]%float 2%float state_two_cells_reachable eq_refl eq_refl).
  - apply list_elem_of_further, list_elem_of_here.
  - reflexivity.
Defined.

(** ** The index range and the totality of a split *)

(** X7. In every reachable state [min_index()] and [max_index()] return:
    neither of their two [assert]s fails and no pointer they follow is
    null.  For a cage with a root [min_index()] is strictly below
    [max_index()]; for an empty cage both are 0. *)
Theorem min_max_index_reachable `{!Geometry} (s : State) :
  reachable s ->
  exists lo hi,
    BoundingCage.min_index (heap s) (cage s) = Ok lo /\
    BoundingCage.max_index (heap s) (cage s) = Ok hi /\
    if root (cage s) is Some _ then (lo <? hi)%dbl = true
    else lo = 0%float /\ hi = 0%float.
Proof.
  intros Hr. apply reachable_well_formed in Hr.
  destruct (root (cage s)) as [r|] eqn:Hroot.
  - destruct (well_formed_min_max_index _ _ Hr Hroot)
      as (rc & lk & rk & _ & _ & _ & Hlt & Hmin & Hmax).
    exists (KeyFrame.index lk), (KeyFrame.index rk). auto.
  - exists 0%float, 0%float.
    unfold BoundingCage.min_index, BoundingCage.max_index. rewrite Hroot. auto.
Qed.

Lemma min_max_index_reachable_witness :
  exists lo hi,
    BoundingCage.min_index (heap state_two_cells) (cage state_two_cells) = Ok lo /\
    BoundingCage.max_index (heap state_two_cells) (cage state_two_cells) = Ok hi /\
    (lo <? hi)%dbl = true.
Proof.
  exact (@min_max_index_reachable example_geometry state_two_cells
           state_two_cells_reachable).
Defined.

(** X8. In every reachable state both overloads of [split] return, in a
    reachable state again: [split(index)] for every index, and
    [split(it)] for the end iterator and for an iterator at a key frame
    that exists.  No call runs into a null pointer or a failed [assert],
    and the descent through the tree of cells ends. *)
Theorem split_returns_reachable `{!Geometry} (s : State) :
  reachable s ->
  (forall index, exists it s',
     BoundingCage.split s index = Ok (it, s') /\ reachable s') /\
  (forall it,
     keyframe it = None \/ is_Ok (deref_keyframe (heap s) (keyframe it)) ->
     exists it' s',
       BoundingCage.split_iterator s it = Ok (it', s') /\ reachable s').
Proof.
  intros Hr. pose proof (reachable_well_formed _ Hr) as Hwf. split.
  - intros index. destruct (split_index_returns _ index Hwf) as [[it s'] Hs].
    exists it, s'. split; [assumption|]. eapply reach_split; eassumption.
  - intros it Hit. destruct (split_iterator_returns _ it Hwf Hit) as [[it' s'] Hs].
    exists it', s'. split; [assumption|]. eapply reach_split_iterator; eassumption.
Qed.

Lemma split_returns_reachable_witness :
  (forall index, exists it s',
     @BoundingCage.split example_geometry state_two_cells index = Ok (it, s') /\
     @reachable example_geometry s') /\
  (forall it,
     keyframe it = None \/
     is_Ok (deref_keyframe (heap state_two_cells) (keyframe it)) ->
     exists it' s',
       @BoundingCage.split_iterator example_geometry state_two_cells it = Ok (it', s') /\
       @reachable example_geometry s').
Proof.
  exact (@split_returns_reachable example_geometry state_two_cells
           state_two_cells_reachable).
Defined.

(** ** Moving a point and the polygon in space *)

Lemma vertices_3d_lookup kf i :
  KeyFrame.vertices_3d kf !! i = KeyFrame.local_to_world kf <$> (_vertices_2d kf !! i).
Proof.
  unfold KeyFrame.vertices_3d.
  destruct (vertices_3d_loop kf
              (replicate (length (_vertices_2d kf)) (mkRowVector3d 0 0 0))
              (length (_vertices_2d kf))) as [_ Hrow];
    [apply length_replicate | lia |].
  rewrite Hrow. destruct (decide (i < length (_vertices_2d kf))) as [|Hge]; [reflexivity|].
  rewrite (lookup_ge_None_2 (_vertices_2d kf)) by lia.
  apply lookup_ge_None_2. rewrite length_replicate. lia.
Qed.

Lemma vertices_3d_length kf :
  length (KeyFrame.vertices_3d kf) = length (_vertices_2d kf).
Proof.
  unfold KeyFrame.vertices_3d.
  destruct (vertices_3d_loop kf
              (replicate (length (_vertices_2d kf)) (mkRowVector3d 0 0 0))
              (length (_vertices_2d kf))) as [Hlen _];
    [apply length_replicate | lia |].
  cbn zeta in Hlen. rewrite Hlen. apply length_replicate.
Qed.

(** X9. A call of [move_point_2d] that returns true has moved exactly
    the vertex [i] of [vertices_3d()], to [center() + x * right() + y *
    up()] for the new position [(x, y)], and a call that returns false has
    left [vertices_3d()] as it was; the number of vertices never
    changes. *)
Theorem move_point_2d_vertices_3d `{!Geometry} (h : Heap) (kf : KeyFrame) (i : Z)
    (newpos : RowVector2d) (validate2d validate_3d ok : bool) (kf' : KeyFrame) :
  KeyFrame.move_point_2d h kf i newpos validate2d validate_3d = Ok (ok, kf') ->
  length (KeyFrame.vertices_3d kf') = length (KeyFrame.vertices_3d kf) /\
  (forall j, j <> Z.to_nat i ->
     KeyFrame.vertices_3d kf' !! j = KeyFrame.vertices_3d kf !! j) /\
  KeyFrame.vertices_3d kf' !! Z.to_nat i =
    if ok then Some (KeyFrame.local_to_world kf newpos)
    else KeyFrame.vertices_3d kf !! Z.to_nat i.
Proof.
  unfold KeyFrame.move_point_2d. case_bool_decide as Hi; [|discriminate].
  intros Hmv.
  assert ((ok = false /\ kf' = kf) \/ (ok = true /\ kf' = KeyFrame.candidate kf i newpos))
    as [[-> ->]|[-> ->]].
  { repeat match type of Hmv with
           | context [if ?b then _ else _] => destruct b
           end; injection Hmv as <- <-; auto. }
  - auto.
  - rewrite !vertices_3d_length. unfold KeyFrame.candidate. cbn [_vertices_2d set_vertices_2d].
    split; [apply length_insert|]. split.
    + intros j Hj. rewrite !vertices_3d_lookup. cbn [_vertices_2d set_vertices_2d].
      rewrite list_lookup_insert_ne by congruence. reflexivity.
    + rewrite vertices_3d_lookup. cbn [_vertices_2d set_vertices_2d].
      rewrite list_lookup_insert_eq by lia. reflexivity.
Qed.

Lemma move_point_2d_vertices_3d_witness :
  let kf := KeyFrame.ctor origin (mkMatrix3d e_x e_y e_z) unit_square 0 in
  let kf' := KeyFrame.candidate kf 2 (mkRowVector2d (-1) 0.5) in
  length (KeyFrame.vertices_3d kf') = length (KeyFrame.vertices_3d kf) /\
  (forall j, j <> 2 -> KeyFrame.vertices_3d kf' !! j = KeyFrame.vertices_3d kf !! j) /\
  KeyFrame.vertices_3d kf' !! 2 = Some (mkRowVector3d (-1) 0.5 0).
Proof.
  exact (@move_point_2d_vertices_3d example_geometry (heap state_one_cell)
           (KeyFrame.ctor origin (mkMatrix3d e_x e_y e_z) unit_square 0) 2
           (mkRowVector2d (-1) 0.5) false false true _ eq_refl).
Defined.

(** ** The empty cage *)

(** X10. A reachable cage has no root exactly when [cells.begin()] is
    [cells.end()], when [cells.rbegin()] is [cells.rend()], when
    [keyframes.begin()] is [keyframes.end()], and when
    [keyframes.rbegin()] is [keyframes.rend()]: each of the four tests
    tells whether the cage is empty. *)
Theorem begin_is_end_iff_empty `{!Geometry} (s : State) :
  reachable s ->
  (CellIterator.eqb (Cells.begin (cells (cage s))) (Cells.end_ (cells (cage s))) = true
     <-> root (cage s) = None) /\
  (CellIterator.eqb (Cells.rbegin (cells (cage s))) (Cells.rend (cells (cage s))) = true
     <-> root (cage s) = None) /\
  (exists b, BoundingCage.keyframes_begin (heap s) (cage s) = Ok b /\
     (KeyFrameIterator.eqb b BoundingCage.keyframes_end = true
        <-> root (cage s) = None)) /\
  (exists e, BoundingCage.keyframes_rbegin (heap s) (cage s) = Ok e /\
     (KeyFrameIterator.eqb e BoundingCage.keyframes_rend = true
        <-> root (cage s) = None)).
Proof.
  intros Hr. apply reachable_well_formed in Hr. unfold well_formed in Hr.
  unfold CellIterator.eqb, KeyFrameIterator.eqb, Cells.begin, Cells.rbegin, Cells.end_,
    Cells.rend, BoundingCage.keyframes_begin, BoundingCage.keyframes_rbegin,
    BoundingCage.keyframes_end, BoundingCage.keyframes_rend,
    CellIterator.default, KeyFrameIterator.default.
  cbn [cell keyframe].
  destruct (root (cage s)) as [r|].
  - destruct Hr as (lk & rk & ls & Ht & Hd & Hnd & -> & ->).
    pose proof (tree_nonempty _ _ _ _ _ Ht) as Hne.
    pose proof (tree_chain _ _ _ _ _ Ht) as Hch.
    destruct ls as [|p ls]; [contradiction|].
    pose proof Hch as (c & Hc & _ & (lo & hi & Hlo & _) & _).
    assert (exists q l0, p :: ls = l0 ++ [q]) as (q & l0 & Hq).
    { destruct (p :: ls) as [|x l _] using rev_ind; [contradiction|]. eauto. }
    rewrite Hq in Hch |- *. rewrite last_snoc.
    destruct (chain_last _ _ _ _ _ Hch) as (cq & Hcq & _ & (lo' & hi' & _ & Hhi' & _)).
    rewrite <- Hq. cbn [hd_error]. unfold deref_cell. rewrite Hc, Hcq. cbn [mbind result_bind].
    destruct (left_keyframe c) as [kl|]; [|discriminate].
    destruct (right_keyframe cq) as [kr|]; [|discriminate].
    split_and!; try (eexists; split; [reflexivity|]); cbn [keyframe];
      split; intros E; try discriminate;
      apply bool_decide_eq_true in E; discriminate.
  - destruct Hr as [-> ->]. split_and!; try (eexists; split; [reflexivity|]);
      cbn [keyframe]; split; intros _; try reflexivity; apply bool_decide_eq_true; reflexivity.
Qed.

Lemma begin_is_end_iff_empty_witness :
  (CellIterator.eqb (Cells.begin (cells (cage state_two_cells)))
     (Cells.end_ (cells (cage state_two_cells))) = true
     <-> root (cage state_two_cells) = None) /\
  (CellIterator.eqb (Cells.rbegin (cells (cage state_two_cells)))
     (Cells.rend (cells (cage state_two_cells))) = true
     <-> root (cage state_two_cells) = None) /\
  (exists b, BoundingCage.keyframes_begin (heap state_two_cells) (cage state_two_cells) = Ok b /\
     (KeyFrameIterator.eqb b BoundingCage.keyframes_end = true
        <-> root (cage state_two_cells) = None)) /\
  (exists e, BoundingCage.keyframes_rbegin (heap state_two_cells) (cage state_two_cells) = Ok e /\
     (KeyFrameIterator.eqb e BoundingCage.keyframes_rend = true
        <-> root (cage state_two_cells) = None)).
Proof.
  exact (@begin_is_end_iff_empty example_geometry state_two_cells
           state_two_cells_reachable).
Defined.

(* ================================================================= *)
(** * The segments and the half sweeps of the Voronoi offset *)

(** ** The order of the segments *)

(** X11. [SegmentF::operator<] is a strict order on all segments, whatever
    their coordinates: no segment is below itself, two segments are never
    below one another, and the relation is transitive. *)
Theorem segment_lt_strict_order (a b c : voroffset.SegmentF.t) :
  voroffset.SegmentF.lt a a = false /\
  (voroffset.SegmentF.lt a b = true -> voroffset.SegmentF.lt b a = false) /\
  (voroffset.SegmentF.lt a b = true -> voroffset.SegmentF.lt b c = true ->
     voroffset.SegmentF.lt a c = true).
Proof.
  unfold voroffset.SegmentF.lt.
  destruct a as [xa a1 a2], b as [xb b1 b2], c as [xc c1 c2]. cbn.
  generalize (a1 + a2)%dbl (b1 + b2)%dbl (c1 + c2)%dbl. intros sa sb sc.
  split; [|split].
  - rewrite !ltb_irrefl, andb_false_r. reflexivity.
  - intros Hab. apply orb_true_iff in Hab as [Hab|Hab].
    + rewrite (ltb_asym _ _ Hab).
      destruct (sb =? sa)%dbl eqn:E; [|reflexivity].
      apply eqb_not_ltb in E as [_ E]. congruence.
    + apply andb_prop in Hab as [Hs Hx].
      destruct (eqb_not_ltb _ _ Hs) as [_ ->]. rewrite (ltb_asym _ _ Hx).
      apply andb_false_r.
  - intros Hab Hbc.
    apply orb_true_iff in Hab as [Hab|Hab], Hbc as [Hbc|Hbc].
    + rewrite (ltb_trans _ _ _ Hab Hbc). reflexivity.
    + apply andb_prop in Hbc as [Hs _].
      rewrite <- (eqb_ltb_r sa sb sc Hs), Hab. reflexivity.
    + apply andb_prop in Hab as [Hs _].
      rewrite (eqb_ltb_l sa sb sc Hs), Hbc. reflexivity.
    + apply andb_prop in Hab as [Hs Hx]. apply andb_prop in Hbc as [Hs' Hx'].
      rewrite (eqb_eqb_l sa sb sc Hs), Hs', (ltb_trans _ _ _ Hx Hx').
      apply orb_true_r.
Qed.

(** X12. For segments none of whose sums [y1 + y2] and coordinates [x] is
    a NaN, neither of two segments is below the other under [operator<]
    exactly when their sums are equal and their [x] are equal: the order
    of [m_S] tells two segments of the same [x] apart by the sum of their
    ends only. *)
Theorem segment_lt_equivalence (a b : voroffset.SegmentF.t) :
  let sum s := (voroffset.SegmentF.y1 s + voroffset.SegmentF.y2 s)%dbl in
  (sum a =? sum a)%dbl = true -> (sum b =? sum b)%dbl = true ->
  (voroffset.SegmentF.x a =? voroffset.SegmentF.x a)%dbl = true ->
  (voroffset.SegmentF.x b =? voroffset.SegmentF.x b)%dbl = true ->
  negb (voroffset.SegmentF.lt a b) && negb (voroffset.SegmentF.lt b a) =
    (sum a =? sum b)%dbl && (voroffset.SegmentF.x a =? voroffset.SegmentF.x b)%dbl.
Proof.
  unfold voroffset.SegmentF.lt.
  destruct a as [xa a1 a2], b as [xb b1 b2]. cbn.
  generalize (a1 + a2)%dbl (b1 + b2)%dbl. intros sa sb Hsa Hsb Hxa Hxb.
  destruct (sa =? sb)%dbl eqn:Es.
  - destruct (eqb_not_ltb _ _ Es) as [-> ->]. rewrite (eqb_sym sb sa), Es. cbn.
    destruct (xa =? xb)%dbl eqn:Ex.
    + destruct (eqb_not_ltb _ _ Ex) as [-> ->]. reflexivity.
    + destruct (xa <? xb)%dbl eqn:E1; [reflexivity|].
      destruct (xb <? xa)%dbl eqn:E2; [reflexivity|].
      rewrite (not_ltb_eqb _ _ Hxa Hxb E1 E2) in Ex. discriminate.
  - rewrite (eqb_sym sb sa), Es. cbn. rewrite !orb_false_r.
    destruct (sa <? sb)%dbl eqn:E1; [reflexivity|].
    destruct (sb <? sa)%dbl eqn:E2; [reflexivity|].
    rewrite (not_ltb_eqb _ _ Hsa Hsb E1 E2) in Es. discriminate.
Qed.

Lemma segment_lt_equivalence_witness :
  negb (voroffset.SegmentF.lt (voroffset.SegmentF.mk 1 1 3) (voroffset.SegmentF.mk 1 0 4))
  && negb (voroffset.SegmentF.lt (voroffset.SegmentF.mk 1 0 4) (voroffset.SegmentF.mk 1 1 3))
  = true.
Proof.
  exact (segment_lt_equivalence (voroffset.SegmentF.mk 1 1 3) (voroffset.SegmentF.mk 1 0 4)
           eq_refl eq_refl eq_refl eq_refl).
Defined.

(** X13. [SegmentF::contains] is transitive, and two segments that
    contain one another have equal ends. *)
Theorem segment_contains_order (a b c : voroffset.SegmentF.t) :
  (voroffset.SegmentF.contains a b = true -> voroffset.SegmentF.contains b c = true ->
     voroffset.SegmentF.contains a c = true) /\
  (voroffset.SegmentF.contains a b = true -> voroffset.SegmentF.contains b a = true ->
     (voroffset.SegmentF.y1 a =? voroffset.SegmentF.y1 b)%dbl = true /\
     (voroffset.SegmentF.y2 a =? voroffset.SegmentF.y2 b)%dbl = true).
Proof.
  unfold voroffset.SegmentF.contains. split.
  - intros Hab Hbc. apply andb_prop in Hab as [H1 H2]. apply andb_prop in Hbc as [H3 H4].
    rewrite (leb_trans _ _ _ H1 H3), (leb_trans _ _ _ H4 H2). reflexivity.
  - intros Hab Hba. apply andb_prop in Hab as [H1 H2]. apply andb_prop in Hba as [H3 H4].
    split; [apply leb_antisym; assumption|].
    apply leb_antisym; assumption.
Qed.

(** ** The segments a row inserts *)

Lemma unpairs_length ps : length (voroffset.unpairs ps) = 2 * length ps.
Proof. induction ps as [|[a b] ps IH]; cbn; [reflexivity|]. rewrite IH. lia. Qed.

Lemma unpairs_app ps qs :
  voroffset.unpairs (ps ++ qs) = voroffset.unpairs ps ++ voroffset.unpairs qs.
Proof. induction ps as [|[a b] ps IH]; cbn; [reflexivity|]. rewrite IH. reflexivity. Qed.

Lemma pairs_unpairs ps : voroffset.pairs (voroffset.unpairs ps) = ps.
Proof. induction ps as [|[a b] ps IH]; cbn; [reflexivity|]. rewrite IH. reflexivity. Qed.

Lemma unpairs_pairs row :
  (Z.of_nat (length row) mod 2 = 0)%Z -> voroffset.unpairs (voroffset.pairs row) = row.
Proof.
  intros Heven.
  assert (exists n, length row = 2 * n) as [n Hn].
  { exists (Z.to_nat (Z.of_nat (length row) / 2)).
    pose proof (Z.div_mod (Z.of_nat (length row)) 2). lia. }
  clear Heven. revert row Hn. induction n as [|n IH]; intros row Hn.
  - destruct row; [reflexivity|discriminate].
  - destruct row as [|a [|b row]]; try (cbn in Hn; lia).
    cbn. rewrite IH; [reflexivity|]. cbn in Hn. lia.
Qed.

Lemma pairs_shift c ps d :
  voroffset.pairs (c :: voroffset.unpairs ps ++ [d]) =
    zip (c :: map snd ps) (map fst ps ++ [d]).
Proof.
  revert c. induction ps as [|[a b] ps IH]; intros c; [reflexivity|].
  change (voroffset.pairs (c :: voroffset.unpairs ((a, b) :: ps) ++ [d])) with
    ((c, a) :: voroffset.pairs (b :: voroffset.unpairs ps ++ [d])).
  rewrite IH. reflexivity.
Qed.

Lemma to_int_small (n : nat) :
  (Z.of_nat n < 2 ^ 31)%Z -> voroffset.to_int (Z.of_nat n) = Z.of_nat n.
Proof. intros Hn. unfold voroffset.to_int. rewrite Z.mod_small; lia. Qed.

Lemma dilate_segments_unpairs `{!voroffset.Methods} ps ext i v fuel :
  length ps <= fuel ->
  voroffset.dilate_segments fuel i (2 * Z.of_nat (length ps) - 2)
    (voroffset.unpairs ps ++ ext) v =
  Some (voroffset.insert_all i (reverse ps) v).
Proof.
  revert ext v fuel. induction ps as [|[a b] ps IH] using rev_ind; intros ext v fuel Hf.
  - destruct fuel; reflexivity.
  - rewrite length_app in Hf |- *. cbn [length] in Hf |- *.
    destruct fuel as [|fuel]; [lia|].
    rewrite unpairs_app, <- app_assoc. cbn [voroffset.unpairs app].
    cbn [voroffset.dilate_segments].
    assert ((2 * Z.of_nat (length ps + 1) - 2 <? 0)%Z = false) as ->
      by (apply Z.ltb_ge; lia).
    replace (Z.to_nat (2 * Z.of_nat (length ps + 1) - 2)) with
      (length (voroffset.unpairs ps) + 0) by (rewrite unpairs_length; lia).
    replace (Z.to_nat (2 * Z.of_nat (length ps + 1) - 2 + 1)) with
      (length (voroffset.unpairs ps) + 1) by (rewrite unpairs_length; lia).
    rewrite !lookup_app_r by lia.
    replace (length (voroffset.unpairs ps) + 0 - length (voroffset.unpairs ps)) with 0 by lia.
    replace (length (voroffset.unpairs ps) + 1 - length (voroffset.unpairs ps)) with 1 by lia.
    cbn [lookup list_lookup mbind option_bind].
    replace (2 * Z.of_nat (length ps + 1) - 2 - 2)%Z with
      (2 * Z.of_nat (length ps) - 2)%Z by lia.
    rewrite IH by lia. rewrite reverse_snoc. reflexivity.
Qed.

Lemma erode_segments_unpairs `{!voroffset.Methods} ps ext i c j2 v fuel :
  length ps <= fuel ->
  exists v' j',
    voroffset.erode_segments fuel i (2 * Z.of_nat (length ps) - 2)
      (voroffset.unpairs ps ++ ext) j2 v = Some (v', j') /\
    voroffset.insertSegment i c j' v' =
      voroffset.insert_all i
        (reverse (zip (c :: map snd ps) (map fst ps ++ [j2]))) v.
Proof.
  revert ext j2 v fuel. induction ps as [|[a b] ps IH] using rev_ind;
    intros ext j2 v fuel Hf.
  - exists v, j2. split; [destruct fuel; reflexivity|reflexivity].
  - rewrite length_app in Hf |- *. cbn [length] in Hf |- *.
    destruct fuel as [|fuel]; [lia|].
    rewrite unpairs_app, <- app_assoc. cbn [voroffset.unpairs app].
    cbn [voroffset.erode_segments].
    assert ((2 * Z.of_nat (length ps + 1) - 2 <? 0)%Z = false) as ->
      by (apply Z.ltb_ge; lia).
    replace (Z.to_nat (2 * Z.of_nat (length ps + 1) - 2)) with
      (length (voroffset.unpairs ps) + 0) by (rewrite unpairs_length; lia).
    replace (Z.to_nat (2 * Z.of_nat (length ps + 1) - 2 + 1)) with
      (length (voroffset.unpairs ps) + 1) by (rewrite unpairs_length; lia).
    rewrite !lookup_app_r by lia.
    replace (length (voroffset.unpairs ps) + 0 - length (voroffset.unpairs ps)) with 0 by lia.
    replace (length (voroffset.unpairs ps) + 1 - length (voroffset.unpairs ps)) with 1 by lia.
    cbn [lookup list_lookup mbind option_bind].
    replace (2 * Z.of_nat (length ps + 1) - 2 - 2)%Z with
      (2 * Z.of_nat (length ps) - 2)%Z by lia.
    destruct (IH (a :: b :: ext) a (voroffset.insertSegment i b j2 v) fuel)
      as (v' & j' & -> & Hv'); [lia|].
    exists v', j'. split; [reflexivity|]. rewrite Hv'.
    rewrite !map_app. cbn [map fst snd].
    rewrite app_comm_cons, <- (app_assoc (map fst ps)).
    change ([a] ++ [j2]) with ([a] ++ [j2]).
    rewrite (app_assoc (map fst ps) [a] [j2]).
    rewrite zip_with_app by (cbn; rewrite length_app, !length_map; cbn; lia).
    cbn [zip_with]. rewrite reverse_snoc. reflexivity.
Qed.

Lemma dilate_row_pairs `{!voroffset.Methods} i row v :
  (Z.of_nat (length row) mod 2 = 0)%Z -> (Z.of_nat (length row) < 2 ^ 31)%Z ->
  voroffset.dilate_row i row v =
    Some (voroffset.insert_all i (reverse (voroffset.pairs row)) v).
Proof.
  intros Heven Hlen. unfold voroffset.dilate_row. rewrite to_int_small by assumption.
  pose proof (unpairs_pairs _ Heven) as Hrow.
  pose proof (unpairs_length (voroffset.pairs row)) as Hl. rewrite Hrow in Hl.
  rewrite <- Hrow at 3. rewrite <- (app_nil_r (voroffset.unpairs _)).
  replace (Z.of_nat (length row) - 2)%Z with
    (2 * Z.of_nat (length (voroffset.pairs row)) - 2)%Z by lia.
  apply dilate_segments_unpairs. lia.
Qed.

Lemma erode_row_pairs `{!voroffset.Methods} i ysize row v :
  (Z.of_nat (length row) mod 2 = 0)%Z -> (Z.of_nat (length row) < 2 ^ 31)%Z ->
  voroffset.erode_row i ysize row v =
    Some (voroffset.insert_all i
            (reverse (voroffset.pairs
                        ((-1)%float :: row ++ [voroffset.int_to_float ysize]))) v).
Proof.
  intros Heven Hlen. unfold voroffset.erode_row. rewrite to_int_small by assumption.
  pose proof (unpairs_pairs _ Heven) as Hrow.
  pose proof (unpairs_length (voroffset.pairs row)) as Hl. rewrite Hrow in Hl.
  rewrite <- Hrow at 3 4. rewrite <- (app_nil_r (voroffset.unpairs _)) at 1.
  replace (Z.of_nat (length row) - 2)%Z with
    (2 * Z.of_nat (length (voroffset.pairs row)) - 2)%Z by lia.
  destruct (erode_segments_unpairs (voroffset.pairs row) [] i (-1)%float
              (voroffset.int_to_float ysize) v (length row)) as (v' & j' & -> & Hv'); [lia|].
  cbn [mbind option_bind]. rewrite Hv', pairs_shift. reflexivity.
Qed.

(** ** The rows of a sweep *)

Lemma sweep_lines_length `{!voroffset.Methods} segs i ysize rows v :
  length (voroffset.sweep_lines segs i ysize rows v) = length rows.
Proof.
  revert i v. induction rows as [|row rows IH]; intros i v; [reflexivity|].
  cbn [voroffset.sweep_lines].
  destruct (voroffset.getLine _ _ _ _) as [v' nl]. cbn. f_equal. apply IH.
Qed.

Lemma sweep_rows_lines `{!voroffset.Methods} segments segs xsize ysize it :
  (0 <= xsize)%Z -> Z.to_nat xsize <= length it ->
  (forall i row v, row ∈ take (Z.to_nat xsize) it ->
     (Z.of_nat (length row) mod 2 = 0)%Z /\
     segments i row v = Some (voroffset.insert_all i (segs i row) v)) ->
  forall n i done v fuel,
    (0 <= i)%Z -> (i + Z.of_nat n = xsize)%Z -> length done = Z.to_nat i -> n <= fuel ->
    voroffset.sweep_rows segments fuel i xsize ysize it v (done ++ replicate n []) =
    Some (done ++ voroffset.sweep_lines segs i ysize
                    (drop (Z.to_nat i) (take (Z.to_nat xsize) it)) v).
Proof.
  intros Hx Hit Hrows n. induction n as [|n IH]; intros i done v fuel Hi Hn Hdone Hf.
  - assert (i = xsize) as -> by lia.
    rewrite drop_ge by (rewrite length_take; lia).
    assert (voroffset.sweep_rows segments fuel xsize xsize ysize it v (done ++ replicate 0 [])
            = Some (done ++ replicate 0 [])) as ->; [|reflexivity].
    destruct fuel; cbn [voroffset.sweep_rows]; rewrite Z.ltb_irrefl; reflexivity.
  - destruct fuel as [|fuel]; [lia|]. cbn [voroffset.sweep_rows].
    assert ((i <? xsize)%Z = true) as -> by (apply Z.ltb_lt; lia). cbn [negb].
    assert (Z.to_nat i < length it) as Hlt by lia.
    destruct (lookup_lt_is_Some_2 _ _ Hlt) as [row Hrow]. rewrite Hrow.
    cbn [mbind option_bind].
    assert (take (Z.to_nat xsize) it !! Z.to_nat i = Some row) as Hrow'.
    { rewrite lookup_take_lt by lia. exact Hrow. }
    destruct (Hrows i row (voroffset.removeInactiveSegments i v)) as [Heven Hseg].
    { eapply list_elem_of_lookup_2. exact Hrow'. }
    rewrite Heven. cbn [Z.eqb negb]. rewrite Hseg. cbn [mbind option_bind].
    rewrite lookup_app_r by lia. rewrite Hdone, Nat.sub_diag. cbn [replicate lookup list_lookup].
    cbn [mbind option_bind].
    rewrite (drop_S _ _ _ Hrow'). cbn [voroffset.sweep_lines].
    destruct (voroffset.getLine i [] ysize _) as [v' nl].
    rewrite insert_app_r_alt by lia. rewrite Hdone, Nat.sub_diag. cbn [insert list_insert].
    rewrite (cons_middle nl done), app_assoc.
    rewrite (IH (i + 1)%Z (done ++ [nl]) v' fuel); try lia.
    + replace (Z.to_nat (i + 1)) with (S (Z.to_nat i)) by lia.
      rewrite <- app_assoc. reflexivity.
    + rewrite length_app. cbn. lia.
Qed.

Lemma sweep_rows_all `{!voroffset.Methods} segments segs xsize ysize it v :
  (0 <= xsize)%Z -> Z.to_nat xsize <= length it ->
  (forall i row v, row ∈ take (Z.to_nat xsize) it ->
     (Z.of_nat (length row) mod 2 = 0)%Z /\
     segments i row v = Some (voroffset.insert_all i (segs i row) v)) ->
  voroffset.sweep_rows segments (Z.to_nat xsize) 0 xsize ysize it v
    (replicate (Z.to_nat xsize) []) =
  Some (voroffset.sweep_lines segs 0 ysize (take (Z.to_nat xsize) it) v).
Proof.
  intros Hx Hit Hrows.
  apply (sweep_rows_lines segments segs xsize ysize it Hx Hit Hrows
           (Z.to_nat xsize) 0%Z [] v (Z.to_nat xsize)); (lia || reflexivity).
Qed.

(** X14. [voronoiF_half_dilate] on at least [xsize] rows of even length
    returns normally and leaves [xsize] lines: row by row the three
    methods are called in the order remove, insert, get, and the segments
    a row inserts are its pairs [(row[k], row[k + 1])], the last pair
    first. *)
Theorem voronoiF_half_dilate_lines `{!voroffset.Methods} (xsize ysize : Z)
    (radius : double) (it : list (list double)) :
  (0 <= xsize)%Z ->
  Z.to_nat xsize <= length it ->
  (forall row, row ∈ take (Z.to_nat xsize) it ->
     (Z.of_nat (length row) mod 2 = 0)%Z /\ (Z.of_nat (length row) < 2 ^ 31)%Z) ->
  exists voronoi result,
    voroffset.ctor xsize ysize radius = Some voronoi /\
    voroffset.voronoiF_half_dilate xsize ysize radius it = Some result /\
    length result = Z.to_nat xsize /\
    result = voroffset.sweep_lines (fun _ row => reverse (voroffset.pairs row))
               0 ysize (take (Z.to_nat xsize) it) voronoi.
Proof.
  intros Hx Hit Hrows. unfold voroffset.voronoiF_half_dilate, voroffset.ctor.
  assert ((xsize <? 0)%Z = false) as -> by (apply Z.ltb_ge; lia).
  eexists _, _. split; [reflexivity|]. cbn [mbind option_bind].
  rewrite (sweep_rows_all _ (fun _ row => reverse (voroffset.pairs row)));
    try assumption.
  - split; [reflexivity|]. split; [|reflexivity].
    rewrite sweep_lines_length, length_take. lia.
  - intros i row v Hrow. destruct (Hrows row Hrow) as [Heven Hlen].
    split; [assumption|]. apply dilate_row_pairs; assumption.
Qed.

Lemma voronoiF_half_dilate_lines_witness :
  exists voronoi result,
    voroffset.ctor 2 10 1 = Some voronoi /\
    @voroffset.voronoiF_half_dilate voroffset.recording 2 10 1
      [[1; 3]; [2; 4; 6; 8]]%float = Some result /\
    length result = 2 /\
    result = @voroffset.sweep_lines voroffset.recording
               (fun _ row => reverse (voroffset.pairs row))
               0 10 [[1; 3]; [2; 4; 6; 8]]%float voronoi.
Proof.
  apply (@voronoiF_half_dilate_lines voroffset.recording 2 10 1
           [[1; 3]; [2; 4; 6; 8]]%float).
  - lia.
  - cbn. lia.
  - intros row Hrow. cbn in Hrow.
    repeat (apply elem_of_cons in Hrow as [->|Hrow]; [cbn; split; [reflexivity|lia]|]).
    apply elem_of_nil in Hrow. contradiction.
Defined.

(** The [int] of an integer in the range of [int] is that integer. *)
Lemma to_int_range (z : Z) :
  (- 2 ^ 31 <= z < 2 ^ 31)%Z -> voroffset.to_int z = z.
Proof. intros Hz. unfold voroffset.to_int. rewrite Z.mod_small; lia. Qed.

(** X15. [voronoiF_half_erode] with [xsize] and [ysize] in the range of
    [int] and [ysize] below [INT_MAX], so that [ysize + 1] is an [int]
    too, on at least [xsize] rows of even length below [2^31] returns
    normally and leaves [xsize] lines: the constructor is given
    [ysize + 1] as [m_YMax], and after the extra segment from -1 to
    [ysize] before the first row, each row inserts the gaps between its
    segments, from -1 to its first end, between neighbouring pairs, and
    from its last end to [ysize] as a [float], the last gap first. *)
Theorem voronoiF_half_erode_lines `{!voroffset.Methods} (xsize ysize : Z)
    (radius : double) (it : list (list double)) :
  (0 <= xsize < 2 ^ 31)%Z ->
  (- 2 ^ 31 <= ysize < 2 ^ 31 - 1)%Z ->
  Z.to_nat xsize <= length it ->
  (forall row, row ∈ take (Z.to_nat xsize) it ->
     (Z.of_nat (length row) mod 2 = 0)%Z /\ (Z.of_nat (length row) < 2 ^ 31)%Z) ->
  exists voronoi result,
    voroffset.ctor xsize (ysize + 1) radius = Some voronoi /\
    voroffset.m_YMax voronoi = (ysize + 1)%Z /\
    voroffset.voronoiF_half_erode xsize ysize radius it = Some result /\
    length result = Z.to_nat xsize /\
    result =
      voroffset.sweep_lines
        (fun _ row =>
           reverse (voroffset.pairs
                      ((-1)%float :: row ++ [voroffset.int_to_float ysize])))
        0 ysize (take (Z.to_nat xsize) it)
        (voroffset.insertSegment (-1) (-1)%float (voroffset.int_to_double ysize) voronoi).
Proof.
  intros Hx Hy Hit Hrows. unfold voroffset.voronoiF_half_erode.
  rewrite to_int_range by lia. unfold voroffset.ctor.
  assert ((xsize <? 0)%Z = false) as -> by (apply Z.ltb_ge; lia).
  cbn [mbind option_bind].
  destruct (Z.eqb_spec xsize 0) as [->|Hne].
  { eexists _, _. split; [reflexivity|]. split; [reflexivity|].
    cbn. split; [reflexivity|]. split; reflexivity. }
  eexists _, _. split; [reflexivity|]. split; [reflexivity|].
  rewrite (sweep_rows_all _
             (fun _ row => reverse (voroffset.pairs
                                      ((-1)%float :: row ++ [voroffset.int_to_float ysize]))));
    try assumption; try lia.
  - split; [reflexivity|]. split; [|reflexivity].
    rewrite sweep_lines_length, length_take. lia.
  - intros i row v Hrow. destruct (Hrows row Hrow) as [Heven Hlen].
    split; [assumption|]. apply erode_row_pairs; assumption.
Qed.

Lemma voronoiF_half_erode_lines_witness :
  exists voronoi result,
    voroffset.ctor 2 (10 + 1) 1 = Some voronoi /\
    voroffset.m_YMax voronoi = (10 + 1)%Z /\
    @voroffset.voronoiF_half_erode voroffset.recording 2 10 1
      [[1; 3]; [2; 4; 6; 8]]%float = Some result /\
    length result = 2 /\
    result =
      @voroffset.sweep_lines voroffset.recording
        (fun _ row =>
           reverse (voroffset.pairs
                      ((-1)%float :: row ++ [voroffset.int_to_float 10])))
        0 10 [[1; 3]; [2; 4; 6; 8]]%float
        (@voroffset.insertSegment voroffset.recording (-1) (-1)%float
           (voroffset.int_to_double 10) voronoi).
Proof.
  apply (@voronoiF_half_erode_lines voroffset.recording 2 10 1
           [[1; 3]; [2; 4; 6; 8]]%float).
  - lia.
  - lia.
  - cbn. lia.
  - intros row Hrow. cbn in Hrow.
    repeat (apply elem_of_cons in Hrow as [->|Hrow]; [cbn; split; [reflexivity|lia]|]).
    apply elem_of_nil in Hrow. contradiction.
Defined.

(** The segments the erosion of the rows [[1, 3]] and [[2, 4, 6, 8]] below
    [ysize = 10] inserts, as the recording methods note them: the extra
    one, then the gaps of each row from the top down. *)
Example scenario_half_erode :
  (v ← voroffset.ctor 2 11 1;
   Some (voroffset.m_S
           (foldl (fun v irow =>
                     @voroffset.insert_all voroffset.recording irow.1
                       (reverse (voroffset.pairs
                                   ((-1)%float :: irow.2 ++ [voroffset.int_to_float 10]))) v)
                  (@voroffset.insertSegment voroffset.recording (-1) (-1)%float
                     (voroffset.int_to_double 10) v)
                  [(0%Z, [1; 3]%float); (1%Z, [2; 4; 6; 8]%float)]))) =
  Some [voroffset.SegmentF.mk (-1) (-1) 10;
        voroffset.SegmentF.mk 0 3 10; voroffset.SegmentF.mk 0 (-1) 1;
        voroffset.SegmentF.mk 1 8 10; voroffset.SegmentF.mk 1 4 6;
        voroffset.SegmentF.mk 1 (-1) 2] /\
  @voroffset.voronoiF_half_erode voroffset.recording 2 10 1
    [[1; 3]; [2; 4; 6; 8]]%float = Some [[3]; [6]]%float /\
  voroffset.int_to_float 16777217 = 16777216%float.
Proof. vm_compute. auto. Qed.

(** At [ysize = INT_MAX] the sum [ysize + 1] is no [int]: the constructor
    of the model is given [INT_MIN]. *)
Example half_erode_int_max :
  voroffset.to_int (2147483647 + 1) = (-2147483648)%Z /\
  voroffset.m_YMax <$> voroffset.ctor 1 (voroffset.to_int (2147483647 + 1)) 1 =
    Some (-2147483648)%Z.
Proof. split; reflexivity. Qed.

(* ================================================================= *)
(** * The directory and the base name of a file name *)

Lemma rfind_None c s : DatFile.rfind c s = None -> c ∉ s.
Proof.
  induction s as [|b s IH]; intros Hr; [apply not_elem_of_nil|].
  cbn in Hr. destruct (DatFile.rfind c s); [discriminate|].
  destruct (Byte.eqb b c) eqn:E; [discriminate|].
  apply Byte.eqb_false in E. apply not_elem_of_cons. split; [congruence|auto].
Qed.

Lemma rfind_Some c s i :
  DatFile.rfind c s = Some i -> s !! i = Some c /\ c ∉ drop (S i) s.
Proof.
  revert i. induction s as [|b s IH]; intros i Hr; [discriminate|].
  cbn in Hr. destruct (DatFile.rfind c s) as [j|] eqn:Ej.
  - injection Hr as <-. destruct (IH j eq_refl) as [Hj Hn]. auto.
  - destruct (Byte.eqb b c) eqn:E; [|discriminate]. injection Hr as <-.
    apply Byte.byte_dec_bl in E as ->. split; [reflexivity|].
    cbn. rewrite drop_0. apply rfind_None, Ej.
Qed.

(** X16. [dir_and_base_name] cuts a name at its last backslash: when the
    name has a backslash, the directory, a backslash and the base name
    give back the name, and the base name has no backslash; when it has
    none, both the directory and the base name are the whole name. *)
Theorem dir_and_base_name_cut (name : list Byte.byte) :
  (DatFile.backslash ∈ name ->
     name = (DatFile.dir_and_base_name name).1
              ++ DatFile.backslash :: (DatFile.dir_and_base_name name).2 /\
     DatFile.backslash ∉ (DatFile.dir_and_base_name name).2) /\
  (DatFile.backslash ∉ name ->
     DatFile.dir_and_base_name name = (name, name)).
Proof.
  unfold DatFile.dir_and_base_name.
  destruct (DatFile.rfind DatFile.backslash name) as [i|] eqn:E.
  - apply rfind_Some in E as [Hi Hn]. cbn [fst snd DatFile.substr].
    rewrite drop_0. replace (i + 1) with (S i) by lia. split.
    + intros _. split; [|assumption]. symmetry. apply take_drop_middle, Hi.
    + intros Hno. exfalso. apply Hno. eapply list_elem_of_lookup_2, Hi.
  - apply rfind_None in E. split; [contradiction|reflexivity].
Qed.

(** The name [C:\data\scan.dat] and a name without a backslash. *)
Example scenario_dir_and_base_name :
  let b := Byte.x5c in
  DatFile.dir_and_base_name
    [Byte.x43; Byte.x3a; b; Byte.x64; Byte.x61; Byte.x74; Byte.x61; b;
     Byte.x73; Byte.x63; Byte.x61; Byte.x6e; Byte.x2e; Byte.x64; Byte.x61; Byte.x74] =
    ([Byte.x43; Byte.x3a; b; Byte.x64; Byte.x61; Byte.x74; Byte.x61],
     [Byte.x73; Byte.x63; Byte.x61; Byte.x6e; Byte.x2e; Byte.x64; Byte.x61; Byte.x74]) /\
  DatFile.dir_and_base_name [Byte.x61; Byte.x2e; Byte.x64] =
    ([Byte.x61; Byte.x2e; Byte.x64], [Byte.x61; Byte.x2e; Byte.x64]).
Proof. split; reflexivity. Qed.

(* ================================================================= *)
(** * The render passes over the cells *)

Lemma render_from_lookup size i cells j p :
  Bounding_Widget_3d.render_from size i cells !! j = Some p ->
  exists cell, cells !! j = Some cell /\
    p = Bounding_Widget_3d.render_pass size (i + Z.of_nat j) cell.
Proof.
  revert i j. induction cells as [|c cells IH]; intros i j Hj; [discriminate|].
  destruct j as [|j].
  - injection Hj as <-. exists c. rewrite Z.add_0_r. auto.
  - cbn in Hj. destruct (IH _ _ Hj) as (cell & Hc & ->).
    exists cell. split; [assumption|]. f_equal. lia.
Qed.

Lemma render_from_length size i cells :
  length (Bounding_Widget_3d.render_from size i cells) = length cells.
Proof. revert i. induction cells as [|c cells IH]; intros i; cbn; auto. Qed.

(** X17. The loop over [sorted_cells] in [post_draw] makes one pass per
    cell, in their order.  The last pass, and no other, draws to the
    default framebuffer; every other pass draws to one of the two
    accumulation framebuffers and never samples the texture attached to
    the framebuffer it draws to; and each pass after the first samples the
    texture the pass before it drew to. *)
Theorem render_passes_ping_pong (sorted_cells : list CellIterator) :
  let passes := Bounding_Widget_3d.render_passes sorted_cells in
  map Bounding_Widget_3d.pass_cell passes = sorted_cells /\
  (forall j p, passes !! j = Some p ->
     (Bounding_Widget_3d.pass_framebuffer p = None <-> S j = length sorted_cells) /\
     (forall b, Bounding_Widget_3d.pass_framebuffer p = Some b ->
        (b = 0 \/ b = 1)%Z /\ Bounding_Widget_3d.pass_texture p <> b) /\
     (forall q, passes !! S j = Some q ->
        Bounding_Widget_3d.pass_framebuffer p =
          Some (Bounding_Widget_3d.pass_texture q))).
Proof.
  unfold Bounding_Widget_3d.render_passes. cbn zeta. split.
  - generalize (Z.of_nat (length sorted_cells)) 0%Z.
    induction sorted_cells as [|c cells IH]; intros size i; cbn; [reflexivity|].
    rewrite IH. reflexivity.
  - intros j p Hj.
    pose proof (lookup_lt_Some _ _ _ Hj) as Hlt. rewrite render_from_length in Hlt.
    apply render_from_lookup in Hj as (cell & Hcell & ->).
    unfold Bounding_Widget_3d.render_pass. cbn [Bounding_Widget_3d.pass_framebuffer
      Bounding_Widget_3d.pass_texture].
    rewrite !Z.add_0_l.
    pose proof (Z.rem_bound_pos (Z.of_nat j) 2) as Hb.
    pose proof (Z.rem_mod_nonneg (Z.of_nat j) 2) as Hr0.
    pose proof (Z.rem_mod_nonneg (Z.of_nat j + 1) 2) as Hr1.
    pose proof (Z.mod_pos_bound (Z.of_nat j) 2) as Hm0.
    pose proof (Z.mod_pos_bound (Z.of_nat j + 1) 2) as Hm1.
    pose proof (Z.div_mod (Z.of_nat j) 2) as Hd0.
    pose proof (Z.div_mod (Z.of_nat j + 1) 2) as Hd1.
    rewrite Hr0, Hr1 by lia.
    split; [|split].
    + destruct (Z.eqb_spec (Z.of_nat j) (Z.of_nat (length sorted_cells) - 1));
        split; intros; try discriminate; try reflexivity; lia.
    + intros b. destruct (Z.eqb_spec (Z.of_nat j) (Z.of_nat (length sorted_cells) - 1));
        [discriminate|]. intros [= <-]. lia.
    + intros q Hq.
      pose proof (lookup_lt_Some _ _ _ Hq) as Hlt'. rewrite render_from_length in Hlt'.
      apply render_from_lookup in Hq as (cell' & Hcell' & ->).
      rewrite Z.add_0_l.
      destruct (Z.eqb_spec (Z.of_nat j) (Z.of_nat (length sorted_cells) - 1)); [lia|].
      f_equal.
      pose proof (Z.rem_mod_nonneg (Z.of_nat (S j) + 1) 2) as Hr2.
      pose proof (Z.mod_pos_bound (Z.of_nat (S j) + 1) 2) as Hm2.
      pose proof (Z.div_mod (Z.of_nat (S j) + 1) 2) as Hd2.
      unfold Bounding_Widget_3d.render_pass. cbn [Bounding_Widget_3d.pass_texture].
      rewrite Hr2 by lia. lia.
Qed.
